(** * Quadkeys: the Bing-maps tile system of [Quadkeys.go]

    A shallow embedding of the Go package [Quadkeys] and the properties
    of its conversions between pixel, tile and quadkey coordinates.

    Go's [int] and [uint] are machine integers whose width depends on the
    target (32 or 64 bits).  They are modelled as [Z] with the wrap-around
    written out, for both widths.  A Go [string] is a sequence of bytes and
    is modelled by [string] (a list of [ascii]); [float64] values are the
    binary64 numbers of [SpecFloat]. *)

From Stdlib Require Import ZArith Lia Bool List String Ascii.
From Stdlib Require Import DecimalString.
From Stdlib Require Import SpecFloat.
Import ListNotations.

Local Open Scope Z_scope.

(** ** The Go integer types *)

Inductive GoArch : Set := Arch32 | Arch64.

(** [strconv.IntSize]: the size in bits of an [int] or [uint] value. *)
Definition IntSize (arch : GoArch) : Z :=
  match arch with Arch32 => 32 | Arch64 => 64 end.

Module Go.
Section Width.
Variable arch : GoArch.

Definition MaxInt : Z := 2 ^ (IntSize arch - 1) - 1.
Definition MinInt : Z := - 2 ^ (IntSize arch - 1).
Definition MaxUint : Z := 2 ^ IntSize arch - 1.

(** The value an unbounded result has once it is stored in a [uint],
    respectively in an [int] (two's complement). *)
Definition to_uint (z : Z) : Z := z mod 2 ^ IntSize arch.
Definition to_int (z : Z) : Z :=
  (z + 2 ^ (IntSize arch - 1)) mod 2 ^ IntSize arch - 2 ^ (IntSize arch - 1).

(** [x << n] with an unsigned count [n]: the bits shifted out are lost,
    a count of the width or more leaves 0. *)
Definition int_shl (x n : Z) : Z := to_int (Z.shiftl x n).
Definition uint_shl (x n : Z) : Z := to_uint (Z.shiftl x n).

Definition int_add (x y : Z) : Z := to_int (x + y).
Definition int_mul (x y : Z) : Z := to_int (x * y).
Definition uint_sub (x y : Z) : Z := to_uint (x - y).

(** [x / y] on [int] truncates toward zero ([y] is never 0 here). *)
Definition int_quo (x y : Z) : Z := to_int (Z.quot x y).
End Width.

(** [len(s)]: the number of bytes of [s].  A Go string never holds more
    than [MaxInt] bytes, so that [uint(len(s))] is the same number. *)
Definition len (s : string) : Z := Z.of_nat (String.length s).

(** [s[k]]: the byte at index [k]; the program panics ([None]) when the
    index is out of range. *)
Definition index (s : string) (k : Z) : option ascii :=
  if k <? 0 then None else String.get (Z.to_nat k) s.

(** [string(b)] for a byte [b]: the UTF-8 encoding of the code point [b]. *)
Definition string_of_byte (b : ascii) : string :=
  let n := N_of_ascii b in
  if (n <? 128)%N then String b EmptyString
  else String (ascii_of_N (192 + n / 64))
         (String (ascii_of_N (128 + n mod 64)) EmptyString).

(** [strconv.Itoa]: the decimal representation of an integer. *)
Definition Itoa (z : Z) : string := NilZero.string_of_int (Z.to_int z).
End Go.

(** ** float64 and the functions of package [math] that [clip] uses *)

Module F64.
Definition float64 : Set := spec_float.

Definition prec : Z := 53.
Definition emax : Z := 1024.

Definition add : float64 -> float64 -> float64 := SFadd prec emax.
Definition sub : float64 -> float64 -> float64 := SFsub prec emax.
Definition mul : float64 -> float64 -> float64 := SFmul prec emax.
Definition div : float64 -> float64 -> float64 := SFdiv prec emax.

(** Conversion of an integer to [float64], rounding to nearest even. *)
Definition of_Z (z : Z) : float64 := binary_normalize prec emax z 0 false.

(** The comparisons [x == y], [x < y] and [x <= y] of Go: they are
    false as soon as an operand is a NaN, and -0 == +0. *)
Definition eqb : float64 -> float64 -> bool := SFeqb.
Definition ltb : float64 -> float64 -> bool := SFltb.
Definition leb : float64 -> float64 -> bool := SFleb.

Definition NaN : float64 := S754_nan.

(** [math.Inf(sign)] *)
Definition Inf (sign : Z) : float64 := S754_infinity (sign <? 0).

(** [math.Pi] as a [float64]: the binary64 number nearest to pi. *)
Definition Pi : float64 := S754_finite false 7074237752028440 (-51).

(** The constants [4*math.Pi] and [0.5] as [float64]. *)
Definition Pi_times_4 : float64 := S754_finite false 7074237752028440 (-49).
Definition half : float64 := S754_finite false 4503599627370496 (-53).

(** [math.IsNaN(f)] *)
Definition IsNaN (f : float64) : bool :=
  match f with S754_nan => true | _ => false end.

(** [math.IsInf(f, sign)]: [f] is +Inf when [sign > 0], -Inf when
    [sign < 0], either when [sign == 0]. *)
Definition IsInf (f : float64) (sign : Z) : bool :=
  match f with
  | S754_infinity s => if s then sign <=? 0 else 0 <=? sign
  | _ => false
  end.

(** [math.Signbit(x)] on a number that is not a NaN. *)
Definition Signbit (x : float64) : bool :=
  match x with
  | S754_zero s | S754_infinity s | S754_finite s _ _ => s
  | S754_nan => false
  end.

(** [math.Max(x, y)], with its special cases
    Max(x, +Inf) = Max(+Inf, x) = +Inf, Max(x, NaN) = Max(NaN, x) = NaN,
    Max(+0, ±0) = Max(±0, +0) = +0 and Max(-0, -0) = -0. *)
Definition Max (x y : float64) : float64 :=
  if IsInf x 1 || IsInf y 1 then Inf 1
  else if IsNaN x || IsNaN y then NaN
  else if eqb x (S754_zero false) && eqb x y then
    if Signbit x then y else x
  else if ltb y x then x
  else y.

(** [math.Min(x, y)], with its special cases
    Min(x, -Inf) = Min(-Inf, x) = -Inf, Min(x, NaN) = Min(NaN, x) = NaN
    and Min(-0, ±0) = Min(±0, -0) = -0. *)
Definition Min (x y : float64) : float64 :=
  if IsInf x (-1) || IsInf y (-1) then Inf (-1)
  else if IsNaN x || IsNaN y then NaN
  else if eqb x (S754_zero false) && eqb x y then
    if Signbit x then x else y
  else if ltb x y then x
  else y.

(** The integer part of a number, [None] for a NaN or an infinity. *)
Definition trunc (f : float64) : option Z :=
  match f with
  | S754_zero _ => Some 0
  | S754_finite s m e => Some (cond_Zopp s (Z.shiftl (Zpos m) e))
  | S754_infinity _ | S754_nan => None
  end.
End F64.

Definition float64 : Set := F64.float64.

(** ** The package *)

(** The constants of the package are untyped; the floating-point ones
    are given here with the [float64] value they take where they are
    used: the binary64 number nearest to the decimal. *)
Definition EarthRadius : Z := 6378137.
Definition MinLatitude : float64 :=
  Eval cbv in SFopp (F64.div (F64.of_Z 8505112878) (F64.of_Z 100000000)).
Definition MaxLatitude : float64 :=
  Eval cbv in F64.div (F64.of_Z 8505112878) (F64.of_Z 100000000).
Definition MinLongitude : Z := -180.
Definition MaxLongitude : Z := -1 * MinLongitude.
Definition MaxLevel : Z := 23.

(** The constant 0.0254 of [MapScale], meters per inch, as a [float64]. *)
Definition metersPerInch : float64 :=
  Eval cbv in F64.div (F64.of_Z 254) (F64.of_Z 10000).

(** [func clip(n float64, minValue float64, maxValue float64) float64] *)
Definition clip (n minValue maxValue : float64) : float64 :=
  F64.Min (F64.Max n minValue) maxValue.

Section Quadkeys.
Variable arch : GoArch.

(** [math.Sin] and [math.Log] are approximations whose results the
    language does not fix, and the conversion of a [float64] that no
    [int] represents (a NaN, an infinity, a number out of range) gives
    an implementation-dependent [int]: they are parameters. *)
Variable math_Sin math_Log : float64 -> float64.
Variable int_of_unrepresentable : float64 -> Z.

(** [int(f)]: the fraction is discarded (truncation toward zero). *)
Definition int_of_float64 (f : float64) : Z :=
  match F64.trunc f with
  | Some z =>
      if (Go.MinInt arch <=? z) && (z <=? Go.MaxInt arch) then z
      else int_of_unrepresentable f
  | None => int_of_unrepresentable f
  end.

(** [func MapSize(levelOfDetail uint) uint]: the constant 256 takes the
    type [uint] of the result, and the shift is a [uint] shift. *)
Definition MapSize (levelOfDetail : Z) : Z :=
  Go.uint_shl arch 256 levelOfDetail.

(** The operations are rounded one by one (no fused multiply-add). *)
Definition LatLongToPixelXY (latitude longitude : float64)
    (levelOfDetail : Z) : Z * Z :=
  let latitude := clip latitude MinLatitude MaxLatitude in
  let longitude :=
    clip longitude (F64.of_Z MinLongitude) (F64.of_Z MaxLongitude) in
  let x := F64.div (F64.add longitude (F64.of_Z 180)) (F64.of_Z 360) in
  let sinLatitude :=
    math_Sin (F64.div (F64.mul latitude F64.Pi) (F64.of_Z 180)) in
  let y :=
    F64.sub F64.half
      (F64.div
         (math_Log (F64.div (F64.add (F64.of_Z 1) sinLatitude)
                            (F64.sub (F64.of_Z 1) sinLatitude)))
         F64.Pi_times_4) in
  let mapSize := MapSize levelOfDetail in
  let pixelX :=
    int_of_float64
      (clip (F64.add (F64.mul x (F64.of_Z mapSize)) F64.half)
            (F64.of_Z 0) (F64.of_Z (Go.uint_sub arch mapSize 1))) in
  let pixelY :=
    int_of_float64
      (clip (F64.add (F64.mul y (F64.of_Z mapSize)) F64.half)
            (F64.of_Z 0) (F64.of_Z (Go.uint_sub arch mapSize 1))) in
  (pixelX, pixelY).

Definition PixelXYToTileXY (pixelX pixelY : Z) : Z * Z :=
  let tileX := Go.int_quo arch pixelX 256 in
  let tileY := Go.int_quo arch pixelY 256 in
  (tileX, tileY).

Definition TileXYToPixelXY (tileX tileY : Z) : Z * Z :=
  let pixelX := Go.int_mul arch tileX 256 in
  let pixelY := Go.int_mul arch tileY 256 in
  (pixelX, pixelY).

(** The body of the loop of [TileXYToQuadKey] for one value of [i]:
    the digit written to the buffer.  [mask := 1 << (i - 1)] is an
    [int]: the constant 1 takes the type it would have without the
    shift. *)
Definition quadKeyDigit (tileX tileY : Z) (i : Z) : Z :=
  let digit := 0 in
  let mask := Go.int_shl arch 1 (Go.uint_sub arch i 1) in
  let digit :=
    if negb (Z.land tileX mask =? 0) then Go.int_add arch digit 1 else digit in
  let digit :=
    if negb (Z.land tileY mask =? 0)
    then Go.int_add arch (Go.int_add arch digit 1) 1 else digit in
  digit.

(** [for i := levelOfDetail; i > 0; i--]: the loop counter only takes
    the values [levelOfDetail], ..., 1, and is the structural argument. *)
Fixpoint TileXYToQuadKey_loop (tileX tileY : Z) (i : nat) (buffer : string)
  : string :=
  match i with
  | O => buffer
  | S i' =>
      let digit := quadKeyDigit tileX tileY (Z.of_nat i) in
      TileXYToQuadKey_loop tileX tileY i' (buffer ++ Go.Itoa digit)
  end.

Definition TileXYToQuadKey (tileX tileY : Z) (levelOfDetail : Z) : string :=
  TileXYToQuadKey_loop tileX tileY (Z.to_nat levelOfDetail) EmptyString.

(** The loop of [QuadKeyToTileXY].  [None] is the run-time panic of an
    index out of range. *)
Fixpoint QuadKeyToTileXY_loop (quadKey : string) (levelOfDetail : Z)
    (i : nat) (tileX tileY : Z) : option (Z * Z) :=
  match i with
  | O => Some (tileX, tileY)
  | S i' =>
      let mask := Go.int_shl arch 1 (Go.uint_sub arch (Z.of_nat i) 1) in
      match Go.index quadKey (Go.uint_sub arch levelOfDetail (Z.of_nat i)) with
      | None => None
      | Some b =>
          let c := Go.string_of_byte b in
          if String.eqb c "0" then
            QuadKeyToTileXY_loop quadKey levelOfDetail i' tileX tileY
          else if String.eqb c "1" then
            QuadKeyToTileXY_loop quadKey levelOfDetail i'
              (Z.lor tileX mask) tileY
          else if String.eqb c "2" then
            QuadKeyToTileXY_loop quadKey levelOfDetail i'
              tileX (Z.lor tileY mask)
          else if String.eqb c "3" then
            QuadKeyToTileXY_loop quadKey levelOfDetail i'
              (Z.lor tileX mask) (Z.lor tileY mask)
          else
            QuadKeyToTileXY_loop quadKey levelOfDetail i' (-1) (-1)
      end
  end.

Definition QuadKeyToTileXY (quadKey : string) : option (Z * Z * Z) :=
  let tileX := 0 in
  let tileY := 0 in
  let levelOfDetail := Go.len quadKey in
  match QuadKeyToTileXY_loop quadKey levelOfDetail
          (Z.to_nat levelOfDetail) tileX tileY with
  | Some (tileX, tileY) => Some (tileX, tileY, levelOfDetail)
  | None => None
  end.

Definition LatLongToQuadKey (latitude longitude : float64)
    (levelOfDetail : Z) : string :=
  let '(x, y) := LatLongToPixelXY latitude longitude levelOfDetail in
  let '(tileX, tileY) := PixelXYToTileXY x y in
  TileXYToQuadKey tileX tileY levelOfDetail.

(** [math.Cos], [math.Atan] and [math.Exp] are parameters as [math.Sin]
    and [math.Log] are. *)
Variable math_Cos math_Atan math_Exp : float64 -> float64.

(** [func GroundResolution(latitude float64, levelOfDetail uint) float64]:
    the product is taken from left to right, each constant with its
    [float64] value. *)
Definition GroundResolution (latitude : float64) (levelOfDetail : Z)
  : float64 :=
  let latitude := clip latitude MinLatitude MaxLatitude in
  F64.div
    (F64.mul
       (F64.mul
          (F64.mul
             (math_Cos (F64.div (F64.mul latitude F64.Pi) (F64.of_Z 180)))
             (F64.of_Z 2))
          F64.Pi)
       (F64.of_Z EarthRadius))
    (F64.of_Z (MapSize levelOfDetail)).

(** [func MapScale(latitude float64, levelOfDetail uint, screenDpi uint)
    float64] *)
Definition MapScale (latitude : float64) (levelOfDetail : Z) (screenDpi : Z)
  : float64 :=
  F64.div
    (F64.mul (GroundResolution latitude levelOfDetail) (F64.of_Z screenDpi))
    metersPerInch.

(** [func PixelXYToLatLong(pixelX int, pixelY int, levelOfDetail uint)
    (latitude float64, longitude float64)] *)
Definition PixelXYToLatLong (pixelX pixelY : Z) (levelOfDetail : Z)
  : float64 * float64 :=
  let mapSize := MapSize levelOfDetail in
  let x :=
    F64.sub
      (F64.div
         (clip (F64.of_Z pixelX) (F64.of_Z 0)
               (F64.of_Z (Go.uint_sub arch mapSize 1)))
         (F64.of_Z mapSize))
      F64.half in
  let y :=
    F64.sub F64.half
      (F64.div
         (clip (F64.of_Z pixelY) (F64.of_Z 0)
               (F64.of_Z (Go.uint_sub arch mapSize 1)))
         (F64.of_Z mapSize)) in
  let latitude :=
    F64.sub (F64.of_Z 90)
      (F64.div
         (F64.mul (F64.of_Z 360)
            (math_Atan
               (math_Exp
                  (F64.mul (F64.mul (SFopp y) (F64.of_Z 2)) F64.Pi))))
         F64.Pi) in
  let longitude := F64.mul (F64.of_Z 360) x in
  (latitude, longitude).
End Quadkeys.


(** ** Definitions used to state the properties *)

(** A byte that is none of '0', '1', '2', '3'. *)
Definition invalid_digit (c : ascii) : bool :=
  negb (Ascii.eqb c "0" || Ascii.eqb c "1" || Ascii.eqb c "2" || Ascii.eqb c "3").

Fixpoint has_invalid (s : string) : bool :=
  match s with
  | EmptyString => false
  | String c s' => invalid_digit c || has_invalid s'
  end.

(** The strings a Go program can hold: at most [MaxInt] bytes. *)
Definition go_string (arch : GoArch) (s : string) : Prop :=
  Go.len s <= Go.MaxInt arch.

(** [PixelXYToTileXY(TileXYToPixelXY(tileX, tileY))] *)
Definition tile_pixel_round_trip (arch : GoArch) (tileX tileY : Z) : Z * Z :=
  let '(pixelX, pixelY) := TileXYToPixelXY arch tileX tileY in
  PixelXYToTileXY arch pixelX pixelY.

(** The quadkey as the specification words it: for [i] from [level] down
    to 1, with [mask = 1 << (i - 1)] (an unbounded integer here), the digit
    0, plus 1 if [tileX & mask != 0], plus 2 if [tileY & mask != 0], as a
    decimal character, the coarsest level first. *)
Definition spec_digit (tileX tileY i : Z) : Z :=
  let mask := Z.shiftl 1 (i - 1) in
  0 + (if Z.land tileX mask =? 0 then 0 else 1)
    + (if Z.land tileY mask =? 0 then 0 else 2).

Definition digit_char (d : Z) : ascii := ascii_of_N (48 + Z.to_N d).

Definition levels_down (level : Z) : list Z :=
  map Z.of_nat (rev (seq 1 (Z.to_nat level))).

Definition spec_quadkey (tileX tileY level : Z) : string :=
  string_of_list_ascii
    (map (fun i => digit_char (spec_digit tileX tileY i)) (levels_down level)).

(** The composition latLongToPixelXY, then pixelXYToTileXY, then
    tileXYToQuadKey, with the pairs passed along whole. *)
Definition compose_LatLongToQuadKey (arch : GoArch)
    (math_Sin math_Log : float64 -> float64) (conv : float64 -> Z)
    (latitude longitude : float64) (levelOfDetail : Z) : string :=
  let pixel :=
    LatLongToPixelXY arch math_Sin math_Log conv latitude longitude
      levelOfDetail in
  let tile := PixelXYToTileXY arch (fst pixel) (snd pixel) in
  TileXYToQuadKey arch (fst tile) (snd tile) levelOfDetail.

(** The order in which [math.Max] and [math.Min] choose between two
    numbers: the order of the numbers, with -0 below +0. *)
Definition below (x y : float64) : bool :=
  F64.ltb x y
  || (F64.eqb x y && (F64.Signbit x || negb (F64.Signbit y))).

(** What [QuadKeyToTileXY_loop] does with the bytes that remain to be
    read, [i] being their number. *)
Fixpoint decode_rest (arch : GoArch) (rest : string) (tileX tileY : Z)
  : Z * Z :=
  match rest with
  | EmptyString => (tileX, tileY)
  | String c rest' =>
      let mask := Go.int_shl arch 1 (Go.uint_sub arch (Go.len rest) 1) in
      if Ascii.eqb c "0" then decode_rest arch rest' tileX tileY
      else if Ascii.eqb c "1" then
        decode_rest arch rest' (Z.lor tileX mask) tileY
      else if Ascii.eqb c "2" then
        decode_rest arch rest' tileX (Z.lor tileY mask)
      else if Ascii.eqb c "3" then
        decode_rest arch rest' (Z.lor tileX mask) (Z.lor tileY mask)
      else decode_rest arch rest' (-1) (-1)
  end.

(** The argument of the conversion to [int] that gives [pixelX] in
    [LatLongToPixelXY]. *)
Definition pixelX_value (arch : GoArch) (longitude : float64)
    (levelOfDetail : Z) : float64 :=
  let longitude :=
    clip longitude (F64.of_Z MinLongitude) (F64.of_Z MaxLongitude) in
  let x := F64.div (F64.add longitude (F64.of_Z 180)) (F64.of_Z 360) in
  F64.add (F64.mul x (F64.of_Z (MapSize arch levelOfDetail))) F64.half.

(** The value of [math.Log] in [LatLongToPixelXY]. *)
Definition mercator_log (math_Sin math_Log : float64 -> float64)
    (latitude : float64) : float64 :=
  let latitude := clip latitude MinLatitude MaxLatitude in
  let sinLatitude :=
    math_Sin (F64.div (F64.mul latitude F64.Pi) (F64.of_Z 180)) in
  math_Log (F64.div (F64.add (F64.of_Z 1) sinLatitude)
                    (F64.sub (F64.of_Z 1) sinLatitude)).

(** A number (no NaN) whose mantissa, if it has one, is below 2^53, as
    the mantissa of every result of a [float64] operation is. *)
Definition mantissa53 (f : float64) : Prop :=
  match f with
  | S754_nan => False
  | S754_finite _ m _ => Zpos m < 2 ^ 53
  | S754_zero _ | S754_infinity _ => True
  end.

(** A number of the sign [s] (a zero, an infinity or a finite number)
    with a mantissa below 2^53. *)
Definition rounded (s : bool) (f : float64) : Prop :=
  mantissa53 f /\ F64.Signbit f = s.

(** The normalized [float64] of sign [s] and of value [N * 2^k], for a
    positive integer [N] of at most 53 bits: the mantissa is [N] shifted
    to 53 bits. *)
Definition canon (s : bool) (N : positive) (k : Z) : float64 :=
  let a := 53 - Zpos (digits2_pos N) in
  S754_finite s (Z.to_pos (Zpos N * 2 ^ a)) (k - a).

(** The [float64] of value [z * 2^k], for an integer [z] of at most 53
    bits; +0 when [z] is 0. *)
Definition dyadic (z k : Z) : float64 :=
  match z with
  | Z0 => S754_zero false
  | Zpos N => canon false N k
  | Zneg N => canon true N k
  end.

(** The value of [math.Cos] in [GroundResolution]. *)
Definition cosine_value (math_Cos : float64 -> float64)
    (latitude : float64) : float64 :=
  let latitude := clip latitude MinLatitude MaxLatitude in
  math_Cos (F64.div (F64.mul latitude F64.Pi) (F64.of_Z 180)).

(** A positive normal [float64], a mantissa of exactly 53 bits, with an
    exponent between -200 and 200 (a number between 2^-148 and 2^253). *)
Definition normal_positive (f : float64) : bool :=
  match f with
  | S754_finite false m e =>
      (2 ^ 52 <=? Zpos m) && (Zpos m <? 2 ^ 53)
      && (-200 <=? e) && (e <=? 200)
  | _ => false
  end.

(** A zero or a finite number: no infinity, no NaN. *)
Definition is_finite (f : float64) : bool :=
  match f with
  | S754_zero _ | S754_finite _ _ _ => true
  | S754_infinity _ | S754_nan => false
  end.

(** An [int] kept within [0, limit]. *)
Definition clamp (limit z : Z) : Z := Z.min (Z.max z 0) limit.

(** ** The integer types *)

Module GoFacts.
Lemma to_uint_small (arch : GoArch) (z : Z) :
  0 <= z <= Go.MaxUint arch -> Go.to_uint arch z = z.
Proof.
  unfold Go.to_uint, Go.MaxUint. intros H. apply Z.mod_small. lia.
Qed.

Lemma to_int_small (arch : GoArch) (z : Z) :
  Go.MinInt arch <= z <= Go.MaxInt arch -> Go.to_int arch z = z.
Proof.
  unfold Go.to_int, Go.MinInt, Go.MaxInt. intros H.
  assert (E : 2 ^ IntSize arch = 2 * 2 ^ (IntSize arch - 1)).
  { destruct arch; reflexivity. }
  rewrite Z.mod_small; lia.
Qed.

Lemma MaxInt_ge (arch : GoArch) : 2 ^ 31 - 1 <= Go.MaxInt arch.
Proof. destruct arch; cbv; discriminate. Qed.

Lemma MaxUint_ge (arch : GoArch) : 2 ^ 32 - 1 <= Go.MaxUint arch.
Proof. destruct arch; cbv; discriminate. Qed.

Lemma MinInt_le (arch : GoArch) : Go.MinInt arch <= - 2 ^ 31.
Proof. destruct arch; cbv; discriminate. Qed.

Lemma pow2_le_23 (n : Z) : 0 <= n <= 23 -> 1 <= 2 ^ n <= 2 ^ 23.
Proof.
  intros H. split.
  - pose proof (Z.pow_pos_nonneg 2 n). lia.
  - apply Z.pow_le_mono_r; lia.
Qed.
End GoFacts.

(** ** [MapSize] *)

(** C8: for every level in [0,23], on a 32-bit as on a 64-bit target,
    [MapSize] returns exactly 256 * 2^level: the shift loses no bit and the
    result is a positive [uint]; [MapSize(23)] is 2147483648 = 2^31. *)
Theorem MapSize_exact (arch : GoArch) (level : Z) :
  0 <= level <= 23 ->
  MapSize arch level = 256 * 2 ^ level
  /\ 0 < MapSize arch level <= Go.MaxUint arch
  /\ MapSize arch 23 = 2147483648
  /\ 2147483648 = 2 ^ 31.
Proof.
  intros H.
  assert (E : MapSize arch level = 256 * 2 ^ level).
  { unfold MapSize, Go.uint_shl. rewrite Z.shiftl_mul_pow2 by lia.
    apply GoFacts.to_uint_small.
    pose proof (GoFacts.pow2_le_23 level H).
    pose proof (GoFacts.MaxUint_ge arch). lia. }
  rewrite E. repeat split.
  - pose proof (GoFacts.pow2_le_23 level H). lia.
  - pose proof (GoFacts.pow2_le_23 level H).
    pose proof (GoFacts.MaxUint_ge arch). lia.
  - destruct arch; reflexivity.
Qed.

Lemma MapSize_exact_witness :
  0 <= 23 <= 23 /\ MapSize Arch32 23 = 256 * 2 ^ 23.
Proof.
  split; [lia | apply (MapSize_exact Arch32 23); lia].
Defined.

(** ** Tiles and pixels *)

Lemma mul_quo_256 (arch : GoArch) (t : Z) :
  0 <= t -> t * 256 <= Go.MaxInt arch ->
  Go.int_quo arch (Go.int_mul arch t 256) 256 = t.
Proof.
  intros H0 H1. unfold Go.int_quo, Go.int_mul.
  pose proof (GoFacts.MinInt_le arch).
  rewrite (GoFacts.to_int_small arch (t * 256)) by lia.
  rewrite Z.quot_mul by lia.
  apply GoFacts.to_int_small. lia.
Qed.

(** C4, as the code has it: for every [tileX >= 0] and [tileY >= 0] whose
    product by 256 is still an [int] (tiles below 2^55 on a 64-bit target,
    below 2^23 on a 32-bit one), the upper-left pixel of the tile is
    computed without wrap-around and lies in that very tile. *)
Theorem tile_pixel_round_trip_in_range (arch : GoArch) (tileX tileY : Z) :
  0 <= tileX -> tileX * 256 <= Go.MaxInt arch ->
  0 <= tileY -> tileY * 256 <= Go.MaxInt arch ->
  TileXYToPixelXY arch tileX tileY = (tileX * 256, tileY * 256)
  /\ tile_pixel_round_trip arch tileX tileY = (tileX, tileY).
Proof.
  intros Hx0 Hx1 Hy0 Hy1.
  unfold tile_pixel_round_trip, TileXYToPixelXY, PixelXYToTileXY.
  rewrite !mul_quo_256 by assumption.
  unfold Go.int_mul. pose proof (GoFacts.MinInt_le arch).
  rewrite !GoFacts.to_int_small by lia.
  split; reflexivity.
Qed.

Lemma tile_pixel_round_trip_in_range_witness :
  tile_pixel_round_trip Arch32 (2 ^ 23 - 1) 5 = (2 ^ 23 - 1, 5).
Proof.
  apply (tile_pixel_round_trip_in_range Arch32 (2 ^ 23 - 1) 5);
    vm_compute; discriminate.
Defined.

(** C4, as it is stated, fails for a large tile: [2^55 * 256] wraps around
    to [MinInt] in a 64-bit [int], and the division gives [-2^55]. *)
Lemma tile_pixel_round_trip_wraps :
  0 <= 2 ^ 55 <= Go.MaxInt Arch64
  /\ tile_pixel_round_trip Arch64 (2 ^ 55) 0 = (- 2 ^ 55, 0)
  /\ tile_pixel_round_trip Arch64 (2 ^ 55) 0 <> (2 ^ 55, 0).
Proof.
  split; [|split].
  - vm_compute. split; discriminate.
  - vm_compute. reflexivity.
  - vm_compute. discriminate.
Qed.

(** ** [clip] *)

Module ClipFacts.
Import F64.

Ltac order_cases :=
  repeat match goal with
    | s : bool |- _ => destruct s
    end;
  cbn;
  repeat match goal with
    | |- context [Z.compare ?a ?b] =>
        destruct (Z.compare_spec a b); subst; cbn
    | |- context [Pos.compare_cont Eq ?a ?b] =>
        change (Pos.compare_cont Eq a b) with (Pos.compare a b);
        destruct (Pos.compare_spec a b); subst; cbn
    end;
  intros; try reflexivity; try discriminate; try lia.

Lemma Max_below (x y : float64) :
  IsNaN x = false -> IsNaN y = false ->
  Max x y = if below x y then y else x.
Proof.
  destruct x, y; intros Hx Hy; try discriminate;
    unfold Max, below, eqb, ltb, SFeqb, SFltb; order_cases.
Qed.

Lemma Min_below (x y : float64) :
  IsNaN x = false -> IsNaN y = false ->
  Min x y = if below x y then x else y.
Proof.
  destruct x, y; intros Hx Hy; try discriminate;
    unfold Min, below, eqb, ltb, SFeqb, SFltb; order_cases.
Qed.

Lemma below_total (x y : float64) :
  IsNaN x = false -> IsNaN y = false ->
  below x y = false -> below y x = true.
Proof.
  destruct x, y; intros Hx Hy; try discriminate;
    unfold below, eqb, ltb, SFeqb, SFltb; order_cases.
Qed.

Lemma below_antisym (x y : float64) :
  below x y = true -> below y x = true -> x = y.
Proof.
  destruct x, y;
    unfold below, eqb, ltb, SFeqb, SFltb; order_cases.
Qed.

Lemma leb_not_NaN (a b : float64) :
  leb a b = true -> IsNaN a = false /\ IsNaN b = false.
Proof. destruct a, b; cbn; intros H; try discriminate; auto. Qed.

(** A NaN goes through [clip] unless a bound is the infinity that
    [Max] or [Min] returns first. *)
Lemma clip_NaN_idempotent (a b : float64) :
  IsNaN a = false -> IsNaN b = false ->
  clip (clip NaN a b) a b = clip NaN a b.
Proof.
  destruct a as [[]|[]| |[] ma ea], b as [[]|[]| |[] mb eb];
    intros Ha Hb; try discriminate; reflexivity.
Qed.

Lemma eqb_refl (x : float64) : IsNaN x = false -> eqb x x = true.
Proof.
  destruct x as [s|s| |s m e]; intros H; try discriminate;
    unfold eqb, SFeqb; try destruct s; cbn; try reflexivity;
    rewrite Z.compare_refl, Pos.compare_cont_refl; reflexivity.
Qed.

Lemma clip_not_NaN (n a b : float64) :
  IsNaN n = false -> IsNaN a = false -> IsNaN b = false ->
  IsNaN (clip n a b) = false.
Proof.
  intros Hn Ha Hb. unfold clip.
  assert (Hm : IsNaN (Max n a) = false).
  { rewrite Max_below by assumption. destruct (below n a); assumption. }
  rewrite Min_below by assumption.
  destruct (below (Max n a) b); assumption.
Qed.

Lemma clip_number_idempotent (n a b : float64) :
  IsNaN n = false -> IsNaN a = false -> IsNaN b = false ->
  clip (clip n a b) a b = clip n a b.
Proof.
  intros Hn Ha Hb. unfold clip.
  assert (Hm : IsNaN (Max n a) = false).
  { rewrite Max_below by assumption. destruct (below n a); assumption. }
  rewrite (Min_below (Max n a) b) by assumption.
  rewrite (Max_below n a) in * by assumption.
  destruct (below n a) eqn:Hna.
  - destruct (below a b) eqn:Hab.
    + rewrite (Max_below a a), Tauto.if_same, Min_below, Hab by assumption.
      reflexivity.
    + pose proof (below_total a b Ha Hb Hab) as Hba.
      rewrite (Max_below b a), Hba, Min_below, Hab by assumption.
      reflexivity.
  - destruct (below n b) eqn:Hnb.
    + rewrite Max_below, Hna, Min_below, Hnb by assumption. reflexivity.
    + rewrite (Max_below b a) by assumption.
      destruct (below b a) eqn:Hba.
      * rewrite Min_below by assumption.
        destruct (below a b) eqn:Hab; [|reflexivity].
        apply below_antisym; assumption.
      * rewrite Min_below, Tauto.if_same by assumption. reflexivity.
Qed.
End ClipFacts.

(** C6: [clip] is idempotent: for every [n] (a NaN included) and all
    bounds [a <= b], clipping a clipped value gives that same value. *)
Theorem clip_idempotent (n a b : float64) :
  F64.leb a b = true ->
  clip (clip n a b) a b = clip n a b
  /\ (F64.IsNaN n = false ->
      F64.eqb (clip (clip n a b) a b) (clip n a b) = true).
Proof.
  intros Hab. destruct (ClipFacts.leb_not_NaN a b Hab) as [Ha Hb].
  destruct (F64.IsNaN n) eqn:Hn.
  - split; [|discriminate]. destruct n; try discriminate.
    apply ClipFacts.clip_NaN_idempotent; assumption.
  - pose proof (ClipFacts.clip_number_idempotent n a b Hn Ha Hb) as E.
    split; [exact E|]. intros _. rewrite E.
    apply ClipFacts.eqb_refl, ClipFacts.clip_not_NaN; assumption.
Qed.

Lemma clip_idempotent_witness :
  F64.leb (F64.of_Z 0) (F64.of_Z 255) = true
  /\ clip (clip (F64.of_Z 300) (F64.of_Z 0) (F64.of_Z 255))
          (F64.of_Z 0) (F64.of_Z 255)
     = clip (F64.of_Z 300) (F64.of_Z 0) (F64.of_Z 255).
Proof.
  split; [reflexivity | apply (clip_idempotent (F64.of_Z 300)); reflexivity].
Defined.

(** ** [QuadKeyToTileXY] *)

Module DecodeFacts.
(** The [switch] of the decoder compares [string(quadKey[k])] with a
    one-byte string: that is the comparison of the bytes. *)
Lemma string_of_byte_eqb (c : ascii) :
  String.eqb (Go.string_of_byte c) "0" = Ascii.eqb c "0"
  /\ String.eqb (Go.string_of_byte c) "1" = Ascii.eqb c "1"
  /\ String.eqb (Go.string_of_byte c) "2" = Ascii.eqb c "2"
  /\ String.eqb (Go.string_of_byte c) "3" = Ascii.eqb c "3".
Proof.
  destruct c as [[] [] [] [] [] [] [] []]; repeat split; reflexivity.
Qed.

Lemma append_cons (pre : string) (c : ascii) (rest : string) :
  ((pre ++ String c EmptyString) ++ rest)%string
  = (pre ++ String c rest)%string.
Proof. induction pre as [|d pre IH]; cbn; [|rewrite IH]; reflexivity. Qed.

Lemma len_append (s t : string) : Go.len (s ++ t) = Go.len s + Go.len t.
Proof.
  unfold Go.len. induction s as [|c s IH]; cbn [append String.length].
  - reflexivity.
  - rewrite !Nat2Z.inj_succ. lia.
Qed.

Lemma len_nonneg (s : string) : 0 <= Go.len s.
Proof. unfold Go.len. lia. Qed.

Lemma index_middle (pre : string) (c : ascii) (rest : string) :
  Go.index (pre ++ String c rest) (Go.len pre) = Some c.
Proof.
  unfold Go.index, Go.len.
  destruct (Z.ltb_spec (Z.of_nat (String.length pre)) 0) as [H|_]; [lia|].
  rewrite Nat2Z.id.
  induction pre as [|d pre IH]; cbn; [reflexivity | exact IH].
Qed.

Section Loop.
Variable arch : GoArch.

Lemma loop_decode_rest (rest : string) :
  forall (pre : string) (tileX tileY : Z),
    go_string arch (pre ++ rest) ->
    QuadKeyToTileXY_loop arch (pre ++ rest) (Go.len (pre ++ rest))
      (String.length rest) tileX tileY
    = Some (decode_rest arch rest tileX tileY).
Proof.
  induction rest as [|c rest IH]; intros pre tileX tileY Hs.
  - reflexivity.
  - cbn [String.length QuadKeyToTileXY_loop decode_rest].
    assert (Ek : Go.uint_sub arch (Go.len (pre ++ String c rest))
                   (Z.of_nat (S (String.length rest))) = Go.len pre).
    { unfold Go.uint_sub. rewrite len_append.
      change (Z.of_nat (S (String.length rest)))
        with (Go.len (String c rest)).
      replace (Go.len pre + Go.len (String c rest) - Go.len (String c rest))
        with (Go.len pre) by lia.
      apply GoFacts.to_uint_small.
      unfold go_string in Hs. rewrite len_append in Hs.
      pose proof (len_nonneg pre). pose proof (len_nonneg (String c rest)).
      assert (Go.MaxInt arch <= Go.MaxUint arch)
        by (destruct arch; cbv; discriminate).
      lia. }
    rewrite Ek, index_middle.
    change (Z.of_nat (S (String.length rest)))
      with (Go.len (String c rest)).
    destruct (string_of_byte_eqb c) as (E0 & E1 & E2 & E3).
    cbv zeta. rewrite E0, E1, E2, E3.
    rewrite <- (append_cons pre c rest) in *.
    destruct (Ascii.eqb c "0"); [apply IH; assumption|].
    destruct (Ascii.eqb c "1"); [apply IH; assumption|].
    destruct (Ascii.eqb c "2"); [apply IH; assumption|].
    destruct (Ascii.eqb c "3"); apply IH; assumption.
Qed.

(** The decoder never panics: every index it uses is in range. *)
Lemma QuadKeyToTileXY_decode_rest (s : string) :
  go_string arch s ->
  QuadKeyToTileXY arch s
  = Some (fst (decode_rest arch s 0 0), snd (decode_rest arch s 0 0),
          Go.len s).
Proof.
  intros Hs. unfold QuadKeyToTileXY. cbv zeta.
  unfold Go.len at 2. rewrite Nat2Z.id.
  pose proof (loop_decode_rest s EmptyString 0 0 Hs) as E.
  cbn [append] in E. rewrite E.
  destruct (decode_rest arch s 0 0); reflexivity.
Qed.

(** Once both coordinates are -1 they stay so: [-1 | mask = -1]. *)
Lemma decode_rest_sentinel (rest : string) :
  decode_rest arch rest (-1) (-1) = (-1, -1).
Proof.
  induction rest as [|c rest IH]; [reflexivity|].
  cbn [decode_rest]. cbv zeta. rewrite !Z.lor_m1_l.
  repeat match goal with |- context [if ?b then _ else _] => destruct b end;
    exact IH.
Qed.

Lemma decode_rest_invalid (rest : string) :
  forall tileX tileY : Z,
    has_invalid rest = true ->
    decode_rest arch rest tileX tileY = (-1, -1).
Proof.
  induction rest as [|c rest IH]; intros tileX tileY H; [discriminate|].
  cbn [has_invalid] in H. cbn [decode_rest]. cbv zeta.
  unfold invalid_digit in H.
  destruct (Ascii.eqb c "0") eqn:E0;
    [apply IH; cbn in H; exact H|].
  destruct (Ascii.eqb c "1") eqn:E1;
    [apply IH; cbn in H; exact H|].
  destruct (Ascii.eqb c "2") eqn:E2;
    [apply IH; cbn in H; exact H|].
  destruct (Ascii.eqb c "3") eqn:E3;
    [apply IH; cbn in H; exact H|].
  apply decode_rest_sentinel.
Qed.
End Loop.
End DecodeFacts.

(** C10: for every string with a byte that is none of '0', '1', '2', '3',
    wherever that byte is and whatever stands before or after it,
    [QuadKeyToTileXY] returns [tileX = -1] and [tileY = -1], with the
    length of the string as level of detail. *)
Theorem QuadKeyToTileXY_invalid_sentinel (arch : GoArch) (quadKey : string) :
  go_string arch quadKey ->
  has_invalid quadKey = true ->
  QuadKeyToTileXY arch quadKey = Some (-1, -1, Go.len quadKey).
Proof.
  intros Hs Hi.
  rewrite (DecodeFacts.QuadKeyToTileXY_decode_rest arch quadKey Hs).
  rewrite (DecodeFacts.decode_rest_invalid arch quadKey 0 0 Hi).
  reflexivity.
Qed.

Lemma QuadKeyToTileXY_invalid_sentinel_witness :
  QuadKeyToTileXY Arch64 "0123a210" = Some (-1, -1, 8).
Proof.
  apply (QuadKeyToTileXY_invalid_sentinel Arch64 "0123a210").
  - vm_compute. discriminate.
  - reflexivity.
Defined.

(** C1, as it is stated, fails: the decoder has no error result.  On
    "12x3", whose byte 'x' at position 2 is no digit of a quadkey, it
    returns tile coordinates, the sentinel -1 twice, as it does on "x000",
    whose offending byte is another one at another position. *)
Lemma QuadKeyToTileXY_12x3_returns_sentinel :
  has_invalid "12x3" = true
  /\ QuadKeyToTileXY Arch64 "12x3" = Some (-1, -1, 4)
  /\ QuadKeyToTileXY Arch32 "12x3" = Some (-1, -1, 4)
  /\ QuadKeyToTileXY Arch64 "12x3" <> None
  /\ QuadKeyToTileXY Arch64 "y000" = QuadKeyToTileXY Arch64 "12x3".
Proof.
  repeat split; try reflexivity. discriminate.
Qed.

(** C1, as the code has it: on a string with a byte that is none of '0',
    '1', '2', '3' the decoder signals no error and names neither the byte
    nor its position.  It returns the sentinel -1 for both coordinates
    with the length as level, the same result for every such string of
    that length, so that nothing of it comes from the valid prefix;
    "12x3" gives (-1, -1, 4). *)
Theorem QuadKeyToTileXY_invalid_no_error (arch : GoArch) (quadKey : string) :
  go_string arch quadKey ->
  has_invalid quadKey = true ->
  (exists tileX tileY level,
      QuadKeyToTileXY arch quadKey = Some (tileX, tileY, level)
      /\ tileX = -1 /\ tileY = -1 /\ level = Go.len quadKey)
  /\ (forall other : string,
        go_string arch other -> has_invalid other = true ->
        Go.len other = Go.len quadKey ->
        QuadKeyToTileXY arch other = QuadKeyToTileXY arch quadKey)
  /\ QuadKeyToTileXY arch "12x3" = Some (-1, -1, 4).
Proof.
  intros Hs Hi.
  assert (E : forall s, go_string arch s -> has_invalid s = true ->
                QuadKeyToTileXY arch s = Some (-1, -1, Go.len s)).
  { intros s H1 H2.
    rewrite (DecodeFacts.QuadKeyToTileXY_decode_rest arch s H1).
    rewrite (DecodeFacts.decode_rest_invalid arch s 0 0 H2). reflexivity. }
  split; [|split].
  - exists (-1), (-1), (Go.len quadKey). rewrite (E quadKey Hs Hi). auto.
  - intros other Ho Hio Hlen. rewrite (E other Ho Hio), (E quadKey Hs Hi), Hlen.
    reflexivity.
  - destruct arch; reflexivity.
Qed.

Lemma QuadKeyToTileXY_invalid_no_error_witness :
  has_invalid "12x3" = true
  /\ QuadKeyToTileXY Arch32 "y000" = QuadKeyToTileXY Arch32 "12x3".
Proof.
  split; [reflexivity|].
  apply (QuadKeyToTileXY_invalid_no_error Arch32 "12x3");
    try reflexivity; vm_compute; discriminate.
Defined.

(** ** [TileXYToQuadKey] *)

Module EncodeFacts.
Lemma land_pow2_cases (x n : Z) :
  0 <= n -> Z.land x (2 ^ n) = 0 \/ Z.land x (2 ^ n) = 2 ^ n.
Proof.
  intros Hn. destruct (Z.testbit x n) eqn:Hb; [right | left];
    apply Z.bits_inj'; intros k Hk;
    rewrite Z.land_spec, Z.pow2_bits_eqb by assumption;
    destruct (Z.eqb_spec n k) as [->|_];
    rewrite ?Hb, ?Z.bits_0, ?andb_false_r; reflexivity.
Qed.

Lemma mod_pow2_succ (x n : Z) :
  0 <= n -> Z.lor (Z.land x (2 ^ n)) (x mod 2 ^ n) = x mod 2 ^ (n + 1).
Proof.
  intros Hn. apply Z.bits_inj'; intros k Hk.
  rewrite Z.lor_spec, Z.land_spec, Z.pow2_bits_eqb by assumption.
  rewrite !Z.testbit_mod_pow2 by lia.
  destruct (Z.eqb_spec n k) as [E|Hne];
    destruct (Z.ltb_spec k n); destruct (Z.ltb_spec k (n + 1));
    try lia; destruct (Z.testbit x k); reflexivity.
Qed.

Section Mask.
Variable arch : GoArch.

(** Up to level 31 the shift of [mask := 1 << (i - 1)] loses no bit,
    on a 32-bit target too. *)
Lemma mask_pow2 (i : Z) :
  1 <= i <= 31 ->
  Go.int_shl arch 1 (Go.uint_sub arch i 1) = 2 ^ (i - 1).
Proof.
  intros Hi. unfold Go.int_shl, Go.uint_sub.
  pose proof (GoFacts.MaxUint_ge arch).
  pose proof (GoFacts.MaxInt_ge arch).
  pose proof (GoFacts.MinInt_le arch).
  rewrite GoFacts.to_uint_small by lia.
  rewrite Z.shiftl_1_l.
  assert (0 < 2 ^ (i - 1) <= 2 ^ 30).
  { split; [apply Z.pow_pos_nonneg; lia | apply Z.pow_le_mono_r; lia]. }
  apply GoFacts.to_int_small. lia.
Qed.

Lemma quadKeyDigit_spec (tileX tileY i : Z) :
  1 <= i <= 31 ->
  quadKeyDigit arch tileX tileY i = spec_digit tileX tileY i.
Proof.
  intros Hi. unfold quadKeyDigit, spec_digit. cbv zeta.
  rewrite mask_pow2, Z.shiftl_1_l by assumption.
  destruct (Z.land tileX (2 ^ (i - 1)) =? 0);
    destruct (Z.land tileY (2 ^ (i - 1)) =? 0);
    destruct arch; reflexivity.
Qed.
End Mask.

Lemma spec_digit_cases (tileX tileY i : Z) :
  spec_digit tileX tileY i = 0 \/ spec_digit tileX tileY i = 1
  \/ spec_digit tileX tileY i = 2 \/ spec_digit tileX tileY i = 3.
Proof.
  unfold spec_digit. cbv zeta.
  destruct (Z.land tileX _ =? 0); destruct (Z.land tileY _ =? 0); auto.
Qed.

(** [strconv.Itoa] of a digit is its decimal character. *)
Lemma Itoa_digit (d : Z) :
  d = 0 \/ d = 1 \/ d = 2 \/ d = 3 ->
  Go.Itoa d = String (digit_char d) EmptyString.
Proof. intros [->|[->|[->| ->]]]; reflexivity. Qed.

Lemma levels_down_succ (n : nat) :
  levels_down (Z.of_nat (S n)) = Z.of_nat (S n) :: levels_down (Z.of_nat n).
Proof.
  unfold levels_down. rewrite !Nat2Z.id, seq_S, rev_app_distr.
  reflexivity.
Qed.
End EncodeFacts.

Module QuadKeyFacts.
Lemma append_nil_r (s : string) : (s ++ EmptyString)%string = s.
Proof. induction s as [|c s IH]; cbn; [|rewrite IH]; reflexivity. Qed.

Lemma append_assoc (s t u : string) :
  ((s ++ t) ++ u)%string = (s ++ (t ++ u))%string.
Proof. induction s as [|c s IH]; cbn; [|rewrite IH]; reflexivity. Qed.

Lemma length_string_of_list_ascii (l : list ascii) :
  String.length (string_of_list_ascii l) = List.length l.
Proof. induction l as [|c l IH]; cbn; [|rewrite IH]; reflexivity. Qed.

Lemma len_spec_quadkey (tileX tileY : Z) (n : nat) :
  Go.len (spec_quadkey tileX tileY (Z.of_nat n)) = Z.of_nat n.
Proof.
  unfold Go.len, spec_quadkey, levels_down.
  rewrite length_string_of_list_ascii, !length_map, length_rev, length_seq.
  rewrite Nat2Z.id. reflexivity.
Qed.

Lemma spec_quadkey_succ (tileX tileY : Z) (n : nat) :
  spec_quadkey tileX tileY (Z.of_nat (S n))
  = String (digit_char (spec_digit tileX tileY (Z.of_nat (S n))))
      (spec_quadkey tileX tileY (Z.of_nat n)).
Proof.
  unfold spec_quadkey. rewrite EncodeFacts.levels_down_succ. reflexivity.
Qed.

Section Loops.
Variable arch : GoArch.
Variables tileX tileY : Z.

(** What is already in the buffer stays in front. *)
Lemma loop_buffer (i : nat) :
  forall buffer : string,
    TileXYToQuadKey_loop arch tileX tileY i buffer
    = (buffer ++ TileXYToQuadKey_loop arch tileX tileY i EmptyString)%string.
Proof.
  induction i as [|i IH]; intros buffer; cbn [TileXYToQuadKey_loop].
  - symmetry. apply append_nil_r.
  - cbv zeta. rewrite IH, (IH (EmptyString ++ _)%string).
    cbn [append]. apply append_assoc.
Qed.

Lemma loop_spec_quadkey (n : nat) :
  (n <= 31)%nat ->
  TileXYToQuadKey_loop arch tileX tileY n EmptyString
  = spec_quadkey tileX tileY (Z.of_nat n).
Proof.
  induction n as [|n IH]; intros Hn; [reflexivity|].
  cbn [TileXYToQuadKey_loop]. cbv zeta.
  rewrite loop_buffer, IH by lia. cbn [append].
  rewrite EncodeFacts.quadKeyDigit_spec by lia.
  rewrite EncodeFacts.Itoa_digit by apply EncodeFacts.spec_digit_cases.
  rewrite spec_quadkey_succ. reflexivity.
Qed.

(** Reading the digit written for level [i] sets bit [i - 1] of each
    coordinate as that bit is in the tile encoded. *)
Lemma decode_rest_digit (i : Z) (rest : string) (x y : Z) :
  1 <= i <= 31 -> Go.len rest = i - 1 ->
  decode_rest arch (String (digit_char (spec_digit tileX tileY i)) rest) x y
  = decode_rest arch rest
      (Z.lor x (Z.land tileX (2 ^ (i - 1))))
      (Z.lor y (Z.land tileY (2 ^ (i - 1)))).
Proof.
  intros Hi Hlen. cbn [decode_rest]. cbv zeta.
  replace (Go.len (String (digit_char (spec_digit tileX tileY i)) rest))
    with i by (unfold Go.len in *; cbn [String.length]; lia).
  rewrite EncodeFacts.mask_pow2 by assumption.
  unfold spec_digit. cbv zeta. rewrite Z.shiftl_1_l.
  assert (Hp : 2 ^ (i - 1) <> 0)
    by (pose proof (Z.pow_pos_nonneg 2 (i - 1)); lia).
  assert (Hi' : 0 <= i - 1) by lia.
  destruct (EncodeFacts.land_pow2_cases tileX (i - 1) Hi') as [Ex|Ex];
    destruct (EncodeFacts.land_pow2_cases tileY (i - 1) Hi') as [Ey|Ey];
    rewrite Ex, Ey, ?Z.eqb_refl, ?Z.lor_0_r;
    try (destruct (Z.eqb_spec (2 ^ (i - 1)) 0) as [E0|_]; [contradiction|]);
    reflexivity.
Qed.

Lemma decode_rest_spec_quadkey (n : nat) :
  (n <= 31)%nat ->
  forall x y : Z,
    decode_rest arch (spec_quadkey tileX tileY (Z.of_nat n)) x y
    = (Z.lor x (tileX mod 2 ^ Z.of_nat n),
       Z.lor y (tileY mod 2 ^ Z.of_nat n)).
Proof.
  induction n as [|n IH]; intros Hn x y.
  - cbn. rewrite !Z.mod_1_r, !Z.lor_0_r. reflexivity.
  - rewrite spec_quadkey_succ, decode_rest_digit
      by (rewrite ?len_spec_quadkey; lia).
    rewrite IH by lia.
    replace (Z.of_nat (S n) - 1) with (Z.of_nat n) by lia.
    replace (Z.of_nat (S n)) with (Z.of_nat n + 1) by lia.
    rewrite <- !Z.lor_assoc, !EncodeFacts.mod_pow2_succ by lia.
    reflexivity.
Qed.
End Loops.
End QuadKeyFacts.

(** C3: for every level in [1,23] and all [tileX], [tileY], the string
    that [TileXYToQuadKey] returns is the one built digit by digit from
    level down to 1, the coarsest level first; its length is the level;
    and [TileXYToQuadKey(3, 5, 3)] is "213". *)
Theorem TileXYToQuadKey_spec_quadkey (arch : GoArch) (tileX tileY level : Z) :
  1 <= level <= 23 ->
  TileXYToQuadKey arch tileX tileY level = spec_quadkey tileX tileY level
  /\ Go.len (TileXYToQuadKey arch tileX tileY level) = level
  /\ TileXYToQuadKey arch 3 5 3 = "213"%string.
Proof.
  intros Hl.
  assert (E : TileXYToQuadKey arch tileX tileY level
              = spec_quadkey tileX tileY level).
  { unfold TileXYToQuadKey.
    rewrite QuadKeyFacts.loop_spec_quadkey by lia.
    rewrite Z2Nat.id by lia. reflexivity. }
  split; [exact E|]. split.
  - rewrite E. rewrite <- (Z2Nat.id level) at 1 2 by lia.
    rewrite QuadKeyFacts.len_spec_quadkey. lia.
  - destruct arch; reflexivity.
Qed.

Lemma TileXYToQuadKey_spec_quadkey_witness :
  TileXYToQuadKey Arch64 6 2 3 = spec_quadkey 6 2 3
  /\ Go.len (TileXYToQuadKey Arch64 6 2 3) = 3
  /\ TileXYToQuadKey Arch64 3 5 3 = "213"%string.
Proof.
  apply (TileXYToQuadKey_spec_quadkey Arch64 6 2 3). lia.
Defined.

(** C2: for every level in [1,23] and all [tileX], [tileY] in
    [0, 2^level - 1], decoding the quadkey of a tile gives back the tile
    and the level. *)
Theorem quadkey_round_trip (arch : GoArch) (tileX tileY level : Z) :
  1 <= level <= 23 ->
  0 <= tileX <= 2 ^ level - 1 ->
  0 <= tileY <= 2 ^ level - 1 ->
  QuadKeyToTileXY arch (TileXYToQuadKey arch tileX tileY level)
  = Some (tileX, tileY, level).
Proof.
  intros Hl Hx Hy.
  assert (E : TileXYToQuadKey arch tileX tileY level
              = spec_quadkey tileX tileY (Z.of_nat (Z.to_nat level))).
  { unfold TileXYToQuadKey.
    rewrite QuadKeyFacts.loop_spec_quadkey by lia. reflexivity. }
  rewrite E.
  rewrite DecodeFacts.QuadKeyToTileXY_decode_rest.
  - rewrite QuadKeyFacts.decode_rest_spec_quadkey by lia.
    rewrite QuadKeyFacts.len_spec_quadkey, Z2Nat.id by lia.
    cbn [fst snd Z.lor]. rewrite !Z.mod_small by lia. reflexivity.
  - unfold go_string. rewrite QuadKeyFacts.len_spec_quadkey.
    pose proof (GoFacts.MaxInt_ge arch). lia.
Qed.

Lemma quadkey_round_trip_witness :
  QuadKeyToTileXY Arch32 (TileXYToQuadKey Arch32 3 5 3) = Some (3, 5, 3).
Proof.
  apply (quadkey_round_trip Arch32 3 5 3); lia.
Defined.

(** ** [LatLongToQuadKey] *)

(** C9: for every latitude, longitude and level, whatever [math.Sin],
    [math.Log] and the conversion to [int] compute, [LatLongToQuadKey] is
    [TileXYToQuadKey], at the same level, of [PixelXYToTileXY] of
    [LatLongToPixelXY], and nothing else. *)
Theorem LatLongToQuadKey_composition (arch : GoArch)
    (math_Sin math_Log : float64 -> float64) (conv : float64 -> Z)
    (latitude longitude : float64) (levelOfDetail : Z) :
  LatLongToQuadKey arch math_Sin math_Log conv latitude longitude levelOfDetail
  = compose_LatLongToQuadKey arch math_Sin math_Log conv
      latitude longitude levelOfDetail.
Proof.
  unfold LatLongToQuadKey, compose_LatLongToQuadKey. cbv zeta.
  destruct (LatLongToPixelXY arch math_Sin math_Log conv
              latitude longitude levelOfDetail) as [x y].
  cbn [fst snd].
  destruct (PixelXYToTileXY arch x y) as [tx ty].
  reflexivity.
Qed.

(** * Further properties of the package *)

(** ** [MapSize] beyond the levels of the tile system *)

(** X1: [MapSize] is exact as long as the level is below the width of a
    [uint] less 8 (levels up to 23 on a 32-bit target, up to 55 on a
    64-bit one); from that level on every bit is shifted out and the
    result is 0, with no error. *)
Theorem MapSize_exact_or_zero (arch : GoArch) (level : Z) :
  0 <= level ->
  MapSize arch level
  = if level <? IntSize arch - 8 then 256 * 2 ^ level else 0.
Proof.
  intros H0. unfold MapSize, Go.uint_shl, Go.to_uint.
  rewrite Z.shiftl_mul_pow2 by assumption.
  change 256 with (2 ^ 8). rewrite <- Z.pow_add_r by lia.
  destruct (Z.ltb_spec level (IntSize arch - 8)) as [Hlt|Hge].
  - apply Z.mod_small. split; [apply Z.pow_nonneg; lia|].
    apply Z.pow_lt_mono_r; destruct arch; cbn [IntSize] in *; lia.
  - replace (8 + level) with ((8 + level - IntSize arch) + IntSize arch) by lia.
    rewrite Z.pow_add_r by (destruct arch; cbn [IntSize] in *; lia).
    apply Z.mod_mul. destruct arch; discriminate.
Qed.

Lemma MapSize_exact_or_zero_witness :
  MapSize Arch32 24 = 0 /\ MapSize Arch64 24 = 256 * 2 ^ 24.
Proof.
  split.
  - apply (MapSize_exact_or_zero Arch32 24). lia.
  - apply (MapSize_exact_or_zero Arch64 24). lia.
Defined.

(** ** The tile of a pixel *)

(** X2: for every pixel of non-negative coordinates, [PixelXYToTileXY]
    gives the tile that contains it: the upper-left pixel of that tile,
    as [TileXYToPixelXY] computes it, is at most 255 pixels to the left
    of and above the pixel. *)
Theorem pixel_in_its_tile (arch : GoArch) (pixelX pixelY : Z) :
  0 <= pixelX <= Go.MaxInt arch ->
  0 <= pixelY <= Go.MaxInt arch ->
  let '(tileX, tileY) := PixelXYToTileXY arch pixelX pixelY in
  let '(cornerX, cornerY) := TileXYToPixelXY arch tileX tileY in
  tileX = pixelX / 256 /\ tileY = pixelY / 256
  /\ cornerX <= pixelX <= cornerX + 255
  /\ cornerY <= pixelY <= cornerY + 255.
Proof.
  intros Hx Hy. unfold PixelXYToTileXY, TileXYToPixelXY, Go.int_quo, Go.int_mul.
  pose proof (GoFacts.MinInt_le arch) as Hmin.
  rewrite !Z.quot_div_nonneg by lia.
  assert (Dx : 0 <= pixelX / 256 * 256 <= pixelX /\ pixelX < pixelX / 256 * 256 + 256).
  { pose proof (Z.div_mod pixelX 256). pose proof (Z.mod_pos_bound pixelX 256).
    pose proof (Z.div_pos pixelX 256). lia. }
  assert (Dy : 0 <= pixelY / 256 * 256 <= pixelY /\ pixelY < pixelY / 256 * 256 + 256).
  { pose proof (Z.div_mod pixelY 256). pose proof (Z.mod_pos_bound pixelY 256).
    pose proof (Z.div_pos pixelY 256). lia. }
  rewrite (GoFacts.to_int_small arch (pixelX / 256)) by nia.
  rewrite (GoFacts.to_int_small arch (pixelY / 256)) by nia.
  rewrite !GoFacts.to_int_small by lia.
  repeat split; lia.
Qed.

Lemma pixel_in_its_tile_witness :
  let '(tileX, tileY) := PixelXYToTileXY Arch32 1000 255 in
  let '(cornerX, cornerY) := TileXYToPixelXY Arch32 tileX tileY in
  tileX = 1000 / 256 /\ tileY = 255 / 256
  /\ cornerX <= 1000 <= cornerX + 255
  /\ cornerY <= 255 <= cornerY + 255.
Proof.
  apply (pixel_in_its_tile Arch32 1000 255); vm_compute; split; discriminate.
Defined.

(** X3: the division of [PixelXYToTileXY] truncates toward zero: the
    pixels of coordinate -255 to -1, left of or above the map, are put in
    tile 0 like the pixels 0 to 255, not in a tile -1. *)
Theorem negative_pixel_in_tile_0 (arch : GoArch) (pixelX pixelY : Z) :
  -255 <= pixelX <= 255 -> -255 <= pixelY <= 255 ->
  PixelXYToTileXY arch pixelX pixelY = (0, 0).
Proof.
  intros Hx Hy. unfold PixelXYToTileXY, Go.int_quo.
  assert (Ex : Z.quot pixelX 256 = 0) by (apply Z.quot_small_iff; lia).
  assert (Ey : Z.quot pixelY 256 = 0) by (apply Z.quot_small_iff; lia).
  rewrite Ex, Ey. destruct arch; reflexivity.
Qed.

Lemma negative_pixel_in_tile_0_witness :
  PixelXYToTileXY Arch64 (-1) (-255) = (0, 0).
Proof.
  apply (negative_pixel_in_tile_0 Arch64 (-1) (-255)); lia.
Defined.

(** ** Quadkeys at every level and for every tile *)

Module QuadKeyMore.
Lemma land_pow2_testbit (x k : Z) :
  0 <= k -> Z.land x (2 ^ k) = if Z.testbit x k then 2 ^ k else 0.
Proof.
  intros Hk. apply Z.bits_inj'; intros j Hj.
  rewrite Z.land_spec, Z.pow2_bits_eqb by assumption.
  destruct (Z.eqb_spec k j) as [E|N].
  - subst j. destruct (Z.testbit x k); cbn.
    + rewrite Z.pow2_bits_true by assumption. reflexivity.
    + rewrite Z.bits_0. reflexivity.
  - rewrite andb_false_r. destruct (Z.testbit x k).
    + rewrite Z.pow2_bits_false by assumption. reflexivity.
    + rewrite Z.bits_0. reflexivity.
Qed.

(** The digit of level [i] holds bit [i - 1] of each coordinate. *)
Lemma spec_digit_bits (x y i : Z) :
  1 <= i ->
  spec_digit x y i
  = Z.b2z (Z.testbit x (i - 1)) + 2 * Z.b2z (Z.testbit y (i - 1)).
Proof.
  intros Hi. unfold spec_digit. cbv zeta.
  rewrite Z.shiftl_1_l, !land_pow2_testbit by lia.
  assert (Hp : 2 ^ (i - 1) <> 0)
    by (pose proof (Z.pow_pos_nonneg 2 (i - 1)); lia).
  destruct (Z.testbit x (i - 1)), (Z.testbit y (i - 1));
    repeat match goal with
      | |- context [?a =? 0] =>
          destruct (Z.eqb_spec a 0); try contradiction; try lia
      end; reflexivity.
Qed.

Lemma quadKeyDigit_range (arch : GoArch) (x y i : Z) :
  let d := quadKeyDigit arch x y i in d = 0 \/ d = 1 \/ d = 2 \/ d = 3.
Proof.
  unfold quadKeyDigit. cbv zeta.
  destruct (Z.land x _ =? 0), (Z.land y _ =? 0); destruct arch; cbn; auto.
Qed.

Lemma invalid_digit_char (d : Z) :
  d = 0 \/ d = 1 \/ d = 2 \/ d = 3 -> invalid_digit (digit_char d) = false.
Proof. intros [->|[->|[->| ->]]]; reflexivity. Qed.

Lemma loop_succ (arch : GoArch) (x y : Z) (n : nat) :
  TileXYToQuadKey_loop arch x y (S n) EmptyString
  = String (digit_char (quadKeyDigit arch x y (Z.of_nat (S n))))
      (TileXYToQuadKey_loop arch x y n EmptyString).
Proof.
  cbn [TileXYToQuadKey_loop]. cbv zeta.
  rewrite QuadKeyFacts.loop_buffer. cbn [append].
  rewrite EncodeFacts.Itoa_digit by apply quadKeyDigit_range.
  reflexivity.
Qed.

Lemma loop_valid (arch : GoArch) (x y : Z) (n : nat) :
  Go.len (TileXYToQuadKey_loop arch x y n EmptyString) = Z.of_nat n
  /\ has_invalid (TileXYToQuadKey_loop arch x y n EmptyString) = false.
Proof.
  induction n as [|n [IHl IHv]]; [split; reflexivity|].
  rewrite loop_succ. split.
  - unfold Go.len in *. cbn [String.length]. lia.
  - cbn [has_invalid]. rewrite IHv, invalid_digit_char
      by apply quadKeyDigit_range.
    reflexivity.
Qed.
End QuadKeyMore.

(** X4: whatever the tile coordinates (negative or beyond the level) and
    whatever the level, also above 23 and above the width of an [int],
    [TileXYToQuadKey] returns exactly [levelOfDetail] characters, each of
    them one of '0', '1', '2', '3'. *)
Theorem TileXYToQuadKey_always_quadkey (arch : GoArch) (tileX tileY level : Z) :
  0 <= level ->
  Go.len (TileXYToQuadKey arch tileX tileY level) = level
  /\ has_invalid (TileXYToQuadKey arch tileX tileY level) = false.
Proof.
  intros Hl. unfold TileXYToQuadKey.
  destruct (QuadKeyMore.loop_valid arch tileX tileY (Z.to_nat level)) as [E V].
  rewrite E, V, Z2Nat.id by assumption. split; reflexivity.
Qed.

Lemma TileXYToQuadKey_always_quadkey_witness :
  Go.len (TileXYToQuadKey Arch32 (-7) (2 ^ 40) 70) = 70
  /\ has_invalid (TileXYToQuadKey Arch32 (-7) (2 ^ 40) 70) = false.
Proof.
  apply (TileXYToQuadKey_always_quadkey Arch32 (-7) (2 ^ 40) 70). lia.
Defined.

(** X5: up to level 31 the encoder keeps the [level] low bits of each
    coordinate and silently drops the others: decoding the quadkey of any
    tile, in range or not, negative or not, gives the coordinates modulo
    [2^level] (at level 0 the empty quadkey and the tile (0, 0)). *)
Theorem quadkey_round_trip_mod (arch : GoArch) (tileX tileY level : Z) :
  0 <= level <= 31 ->
  QuadKeyToTileXY arch (TileXYToQuadKey arch tileX tileY level)
  = Some (tileX mod 2 ^ level, tileY mod 2 ^ level, level).
Proof.
  intros Hl. unfold TileXYToQuadKey.
  rewrite QuadKeyFacts.loop_spec_quadkey by lia.
  rewrite DecodeFacts.QuadKeyToTileXY_decode_rest.
  - rewrite QuadKeyFacts.decode_rest_spec_quadkey by lia.
    rewrite QuadKeyFacts.len_spec_quadkey, Z2Nat.id by lia.
    reflexivity.
  - unfold go_string. rewrite QuadKeyFacts.len_spec_quadkey.
    pose proof (GoFacts.MaxInt_ge arch). lia.
Qed.

Lemma quadkey_round_trip_mod_witness :
  QuadKeyToTileXY Arch64 (TileXYToQuadKey Arch64 (-1) 13 3)
  = Some ((-1) mod 2 ^ 3, 13 mod 2 ^ 3, 3).
Proof.
  apply (quadkey_round_trip_mod Arch64 (-1) 13 3). lia.
Defined.

Module ValidQuadKey.
Lemma in_levels_down (n : nat) (i : Z) :
  In i (levels_down (Z.of_nat n)) -> 1 <= i <= Z.of_nat n.
Proof.
  unfold levels_down. rewrite Nat2Z.id, in_map_iff.
  intros (k & <- & Hk). apply in_rev, in_seq in Hk. lia.
Qed.

(** The quadkey of level [n] only reads the [n] low bits. *)
Lemma spec_quadkey_mod (x y : Z) (n : nat) :
  spec_quadkey x y (Z.of_nat n)
  = spec_quadkey (x mod 2 ^ Z.of_nat n) (y mod 2 ^ Z.of_nat n) (Z.of_nat n).
Proof.
  unfold spec_quadkey. f_equal. apply map_ext_in. intros i Hi.
  apply in_levels_down in Hi.
  rewrite !QuadKeyMore.spec_digit_bits by lia.
  rewrite !Z.testbit_mod_pow2 by lia.
  destruct (Z.ltb_spec (i - 1) (Z.of_nat n)); [reflexivity | lia].
Qed.

Lemma valid_digit_bits (c : ascii) :
  invalid_digit c = false ->
  exists bx by_ : bool, c = digit_char (Z.b2z bx + 2 * Z.b2z by_).
Proof.
  unfold invalid_digit. intros H.
  destruct (Ascii.eqb_spec c "0") as [E|_]; [exists false, false; exact E|].
  destruct (Ascii.eqb_spec c "1") as [E|_]; [exists true, false; exact E|].
  destruct (Ascii.eqb_spec c "2") as [E|_]; [exists false, true; exact E|].
  destruct (Ascii.eqb_spec c "3") as [E|_]; [exists true, true; exact E|].
  discriminate.
Qed.

(** A bit added above a number of [n] bits. *)
Lemma lor_top_bit (b : bool) (n v : Z) :
  0 <= n -> 0 <= v < 2 ^ n ->
  let top := if b then 2 ^ n else 0 in
  Z.lor top v = top + v
  /\ 0 <= Z.lor top v < 2 ^ (n + 1)
  /\ Z.testbit (Z.lor top v) n = b
  /\ Z.lor top v mod 2 ^ n = v.
Proof.
  intros Hn Hv. cbv zeta.
  assert (Hp : 0 < 2 ^ n) by (apply Z.pow_pos_nonneg; lia).
  assert (Hs : 2 ^ (n + 1) = 2 * 2 ^ n) by (rewrite Z.pow_add_r; lia).
  assert (Hb : Z.testbit v n = false).
  { apply Z.testbit_false; [assumption|]. rewrite Z.div_small by lia. reflexivity. }
  assert (E : Z.lor (if b then 2 ^ n else 0) v = (if b then 2 ^ n else 0) + v).
  { pose proof (Z.add_lor_land (if b then 2 ^ n else 0) v) as Hsum.
    assert (Hl : Z.land (if b then 2 ^ n else 0) v = 0).
    { destruct b; [|reflexivity].
      rewrite Z.land_comm, QuadKeyMore.land_pow2_testbit, Hb by assumption.
      reflexivity. }
    lia. }
  rewrite E. repeat split; try (destruct b; lia).
  - destruct b.
    + apply Z.testbit_true; [assumption|].
      replace (2 ^ n + v) with (v + 1 * 2 ^ n) by lia.
      rewrite Z.div_add, Z.div_small by lia. reflexivity.
    + exact Hb.
  - destruct b.
    + replace (2 ^ n + v) with (v + 1 * 2 ^ n) by lia.
      rewrite Z.mod_add, Z.mod_small by lia. reflexivity.
    + apply Z.mod_small. lia.
Qed.

Section Decode.
Variable arch : GoArch.

Lemma decode_rest_valid_digit (bx by_ : bool) (rest : string) (x y : Z) :
  Go.len rest <= 30 ->
  decode_rest arch
    (String (digit_char (Z.b2z bx + 2 * Z.b2z by_)) rest) x y
  = decode_rest arch rest
      (Z.lor x (if bx then 2 ^ Go.len rest else 0))
      (Z.lor y (if by_ then 2 ^ Go.len rest else 0)).
Proof.
  intros Hl. cbn [decode_rest]. cbv zeta.
  pose proof (DecodeFacts.len_nonneg rest) as H0.
  replace (Go.len (String (digit_char (Z.b2z bx + 2 * Z.b2z by_)) rest))
    with (Go.len rest + 1)
    by (unfold Go.len; cbn [String.length]; lia).
  rewrite EncodeFacts.mask_pow2 by lia.
  replace (Go.len rest + 1 - 1) with (Go.len rest) by lia.
  destruct bx, by_; cbn; rewrite ?Z.lor_0_r; reflexivity.
Qed.

Lemma decode_rest_valid (rest : string) :
  has_invalid rest = false -> Go.len rest <= 31 ->
  exists X Y : Z,
    0 <= X < 2 ^ Go.len rest /\ 0 <= Y < 2 ^ Go.len rest
    /\ (forall x y, decode_rest arch rest x y = (Z.lor x X, Z.lor y Y))
    /\ spec_quadkey X Y (Go.len rest) = rest.
Proof.
  induction rest as [|c rest IH]; intros Hv Hl.
  - exists 0, 0. repeat split; try (cbn; lia).
    intros x y. cbn. rewrite !Z.lor_0_r. reflexivity.
  - cbn [has_invalid] in Hv. apply orb_false_iff in Hv as [Hc Hv].
    assert (Hlen : Go.len (String c rest) = Go.len rest + 1)
      by (unfold Go.len; cbn [String.length]; lia).
    pose proof (DecodeFacts.len_nonneg rest) as H0.
    destruct (IH Hv ltac:(lia)) as (X' & Y' & HX & HY & Hd & Hq).
    destruct (valid_digit_bits c Hc) as (bx & by_ & ->).
    destruct (lor_top_bit bx (Go.len rest) X' H0 HX) as (_ & BX & TX & MX).
    destruct (lor_top_bit by_ (Go.len rest) Y' H0 HY) as (_ & BY & TY & MY).
    cbv zeta in *.
    exists (Z.lor (if bx then 2 ^ Go.len rest else 0) X'),
           (Z.lor (if by_ then 2 ^ Go.len rest else 0) Y').
    rewrite Hlen. split; [exact BX|]. split; [exact BY|]. split.
    + intros x y. rewrite decode_rest_valid_digit, Hd, !Z.lor_assoc by lia.
      reflexivity.
    + unfold Go.len in *.
      replace (Z.of_nat (String.length rest) + 1)
        with (Z.of_nat (S (String.length rest))) by lia.
      rewrite QuadKeyFacts.spec_quadkey_succ.
      rewrite QuadKeyMore.spec_digit_bits by lia.
      replace (Z.of_nat (S (String.length rest)) - 1)
        with (Z.of_nat (String.length rest)) by lia.
      rewrite TX, TY, spec_quadkey_mod, MX, MY, Hq. reflexivity.
Qed.
End Decode.

(** The digit of a level is the digit of the parent tile one level up. *)
Lemma spec_digit_half (x y i : Z) :
  1 <= i -> spec_digit x y (i + 1) = spec_digit (x / 2) (y / 2) i.
Proof.
  intros Hi. rewrite !QuadKeyMore.spec_digit_bits by lia.
  rewrite !Z.div2_bits by lia.
  replace (i + 1 - 1) with (Z.succ (i - 1)) by lia. reflexivity.
Qed.

Lemma spec_quadkey_parent (x y : Z) (n : nat) :
  spec_quadkey x y (Z.of_nat (S n))
  = (spec_quadkey (x / 2) (y / 2) (Z.of_nat n)
     ++ String (digit_char (spec_digit x y 1)) EmptyString)%string.
Proof.
  induction n as [|n IH].
  - reflexivity.
  - rewrite QuadKeyFacts.spec_quadkey_succ, IH.
    rewrite (QuadKeyFacts.spec_quadkey_succ (x / 2)). cbn [append].
    replace (Z.of_nat (S (S n))) with (Z.of_nat (S n) + 1) by lia.
    rewrite spec_digit_half by lia. reflexivity.
Qed.
End ValidQuadKey.

(** X6: for every quadkey of at most 31 characters, all of them among
    '0', '1', '2', '3', the decoder returns a tile of the level given by
    the length, with both coordinates in [0, 2^level - 1] (never the
    sentinel -1), and encoding that tile at that level gives the quadkey
    back. *)
Theorem quadkey_decode_encode (arch : GoArch) (quadKey : string) :
  has_invalid quadKey = false ->
  Go.len quadKey <= 31 ->
  exists tileX tileY : Z,
    QuadKeyToTileXY arch quadKey = Some (tileX, tileY, Go.len quadKey)
    /\ 0 <= tileX <= 2 ^ Go.len quadKey - 1
    /\ 0 <= tileY <= 2 ^ Go.len quadKey - 1
    /\ TileXYToQuadKey arch tileX tileY (Go.len quadKey) = quadKey.
Proof.
  intros Hv Hl.
  destruct (ValidQuadKey.decode_rest_valid arch quadKey Hv Hl)
    as (X & Y & HX & HY & Hd & Hq).
  exists X, Y. split; [|split; [lia|split; [lia|]]].
  - rewrite DecodeFacts.QuadKeyToTileXY_decode_rest.
    + rewrite Hd. reflexivity.
    + unfold go_string. pose proof (GoFacts.MaxInt_ge arch). lia.
  - unfold TileXYToQuadKey.
    rewrite QuadKeyFacts.loop_spec_quadkey by (unfold Go.len in *; lia).
    rewrite Z2Nat.id by apply DecodeFacts.len_nonneg. exact Hq.
Qed.

Lemma quadkey_decode_encode_witness :
  exists tileX tileY : Z,
    QuadKeyToTileXY Arch32 "0231" = Some (tileX, tileY, Go.len "0231")
    /\ 0 <= tileX <= 2 ^ Go.len "0231" - 1
    /\ 0 <= tileY <= 2 ^ Go.len "0231" - 1
    /\ TileXYToQuadKey Arch32 tileX tileY (Go.len "0231") = "0231"%string.
Proof.
  apply (quadkey_decode_encode Arch32 "0231"); [reflexivity|].
  vm_compute. discriminate.
Defined.

(** X7: the quadkey of a tile is the quadkey of its parent, the tile
    [(tileX / 2, tileY / 2)] of the level above, followed by one digit,
    which says which of the four children the tile is: for levels 1 to
    31 and non-negative coordinates. *)
Theorem quadkey_extends_parent (arch : GoArch) (tileX tileY level : Z) :
  1 <= level <= 31 -> 0 <= tileX -> 0 <= tileY ->
  TileXYToQuadKey arch tileX tileY level
  = (TileXYToQuadKey arch (tileX / 2) (tileY / 2) (level - 1)
     ++ String (digit_char (tileX mod 2 + 2 * (tileY mod 2))) EmptyString)%string.
Proof.
  intros Hl Hx Hy. unfold TileXYToQuadKey.
  rewrite !QuadKeyFacts.loop_spec_quadkey by lia.
  replace (Z.to_nat level) with (S (Z.to_nat (level - 1))) by lia.
  rewrite ValidQuadKey.spec_quadkey_parent.
  rewrite QuadKeyMore.spec_digit_bits by lia.
  change (1 - 1) with 0. rewrite !Z.bit0_mod. reflexivity.
Qed.

Lemma quadkey_extends_parent_witness :
  TileXYToQuadKey Arch64 3 5 3
  = (TileXYToQuadKey Arch64 (3 / 2) (5 / 2) (3 - 1)
     ++ String (digit_char (3 mod 2 + 2 * (5 mod 2))) EmptyString)%string.
Proof.
  apply (quadkey_extends_parent Arch64 3 5 3); lia.
Defined.

(** ** What [clip] returns *)

Module ClipMore.
Import F64.

Ltac by_order :=
  unfold below, leb, eqb, ltb, SFleb, SFeqb, SFltb; ClipFacts.order_cases.

Lemma below_leb (x y : float64) : below x y = true -> leb x y = true.
Proof. destruct x, y; by_order. Qed.

Lemma not_below_leb (x y : float64) :
  IsNaN x = false -> IsNaN y = false ->
  below x y = false -> leb y x = true.
Proof. destruct x, y; intros Hx Hy; try discriminate; by_order. Qed.

Lemma ltb_below (x y : float64) : ltb x y = true -> below x y = true.
Proof. destruct x, y; by_order. Qed.

Lemma ltb_not_leb (x y : float64) : ltb x y = true -> leb y x = false.
Proof. destruct x, y; by_order. Qed.

Lemma leb_refl (x : float64) : IsNaN x = false -> leb x x = true.
Proof.
  destruct x as [s|s| |s m e]; intros H; try discriminate;
    unfold leb, SFleb; try destruct s; cbn; try reflexivity;
    rewrite Z.compare_refl, Pos.compare_cont_refl; reflexivity.
Qed.

Lemma leb_antisym (x y : float64) :
  leb x y = true -> leb y x = true -> eqb x y = true.
Proof. destruct x, y; by_order. Qed.

Lemma eqb_sym (x y : float64) : eqb x y = true -> eqb y x = true.
Proof. destruct x, y; by_order. Qed.

(** Two numbers that compare equal are the same [float64], or are the
    two zeros. *)
Lemma eqb_eq (x y : float64) :
  eqb x y = true -> eqb y (S754_zero false) = false -> x = y.
Proof. destruct x, y; by_order. Qed.

Lemma leb_trans (x y z : float64) :
  leb x y = true -> leb y z = true -> leb x z = true.
Proof. destruct x, y, z; by_order. Qed.

Lemma eqb_trans (x y z : float64) :
  eqb x y = true -> eqb y z = true -> eqb x z = true.
Proof. destruct x, y, z; by_order. Qed.

Lemma eqb_leb (x y : float64) : eqb x y = true -> leb x y = true.
Proof. destruct x, y; by_order. Qed.
End ClipMore.

(** X8: for every number [n] (not a NaN) and all bounds [a <= b], the
    value that [clip] returns lies between the bounds:
    [a <= clip(n, a, b) <= b]. *)
Theorem clip_within_bounds (n a b : float64) :
  F64.IsNaN n = false -> F64.leb a b = true ->
  F64.leb a (clip n a b) = true /\ F64.leb (clip n a b) b = true.
Proof.
  intros Hn Hab. destruct (ClipFacts.leb_not_NaN a b Hab) as [Ha Hb].
  unfold clip. rewrite (ClipFacts.Max_below n a) by assumption.
  destruct (below n a) eqn:Hna.
  - rewrite ClipFacts.Min_below by assumption.
    destruct (below a b) eqn:E; split;
      auto using ClipMore.leb_refl, ClipMore.below_leb.
  - rewrite ClipFacts.Min_below by assumption.
    destruct (below n b) eqn:E; split;
      auto using ClipMore.leb_refl, ClipMore.below_leb, ClipMore.not_below_leb.
Qed.

Lemma clip_within_bounds_witness :
  F64.leb (F64.of_Z 0) (clip (F64.of_Z (-7)) (F64.of_Z 0) (F64.of_Z 255)) = true
  /\ F64.leb (clip (F64.of_Z (-7)) (F64.of_Z 0) (F64.of_Z 255)) (F64.of_Z 255)
     = true.
Proof.
  apply (clip_within_bounds (F64.of_Z (-7))); reflexivity.
Defined.

(** X9: [clip] leaves a number that lies between the bounds as it is:
    if [a <= n <= b] then [clip(n, a, b) == n], and the result is [n]
    itself unless [n] is a zero (whose sign a bound that is the other
    zero can change). *)
Theorem clip_in_range (n a b : float64) :
  F64.leb a n = true -> F64.leb n b = true ->
  F64.eqb (clip n a b) n = true
  /\ (F64.eqb n (S754_zero false) = false -> clip n a b = n).
Proof.
  intros Han Hnb.
  destruct (ClipFacts.leb_not_NaN a n Han) as [Ha Hn].
  destruct (ClipFacts.leb_not_NaN n b Hnb) as [_ Hb].
  assert (Hm : F64.eqb (F64.Max n a) n = true
               /\ F64.IsNaN (F64.Max n a) = false).
  { rewrite ClipFacts.Max_below by assumption.
    destruct (below n a) eqn:E.
    - split; [|assumption].
      apply ClipMore.leb_antisym; auto using ClipMore.below_leb.
    - split; [|assumption]. apply ClipFacts.eqb_refl; assumption. }
  destruct Hm as [Hm Hm'].
  assert (Hc : F64.eqb (clip n a b) n = true).
  { unfold clip. rewrite ClipFacts.Min_below by assumption.
    destruct (below (F64.Max n a) b) eqn:E; [exact Hm|].
    apply ClipMore.not_below_leb in E; [|assumption|assumption].
    apply ClipMore.leb_antisym; [|assumption].
    apply ClipMore.leb_trans with (F64.Max n a); [assumption|].
    apply ClipMore.eqb_leb; assumption. }
  split; [exact Hc|]. intros Hz. apply ClipMore.eqb_eq; assumption.
Qed.

Lemma clip_in_range_witness :
  clip F64.half (F64.of_Z 0) (F64.of_Z 255) = F64.half.
Proof.
  apply (clip_in_range F64.half (F64.of_Z 0) (F64.of_Z 255)); reflexivity.
Defined.

(** X10: with bounds [a <= b], [clip] returns the upper bound [b] for
    every number above it, +Inf included, and a number equal to the lower
    bound for every number below it, -Inf included: the lower bound
    itself unless that is a zero. *)
Theorem clip_saturates (n a b : float64) :
  F64.leb a b = true ->
  (F64.ltb b n = true -> clip n a b = b)
  /\ (F64.ltb n a = true ->
      F64.eqb (clip n a b) a = true
      /\ (F64.eqb a (S754_zero false) = false -> clip n a b = a)).
Proof.
  intros Hab. destruct (ClipFacts.leb_not_NaN a b Hab) as [Ha Hb].
  split.
  - intros Hbn.
    assert (Hn : F64.IsNaN n = false) by (destruct n, b; try discriminate; reflexivity).
    pose proof (ClipMore.ltb_not_leb b n Hbn) as Hnb.
    unfold clip. rewrite ClipFacts.Max_below by assumption.
    destruct (below n a) eqn:Hna.
    + apply ClipMore.below_leb in Hna.
      rewrite (ClipMore.leb_trans n a b Hna Hab) in Hnb. discriminate.
    + rewrite ClipFacts.Min_below by assumption.
      destruct (below n b) eqn:E; [|reflexivity].
      apply ClipMore.below_leb in E. rewrite E in Hnb. discriminate.
  - intros Hna.
    assert (Hn : F64.IsNaN n = false) by (destruct n, a; try discriminate; reflexivity).
    assert (Hc : F64.eqb (clip n a b) a = true).
    { unfold clip. rewrite ClipFacts.Max_below by assumption.
      rewrite (ClipMore.ltb_below n a Hna).
      rewrite ClipFacts.Min_below by assumption.
      destruct (below a b) eqn:E; [apply ClipFacts.eqb_refl; assumption|].
      apply ClipMore.leb_antisym; [|assumption].
      apply ClipMore.not_below_leb; assumption. }
    split; [exact Hc|]. intros Hz. apply ClipMore.eqb_eq; assumption.
Qed.

Lemma clip_saturates_witness :
  clip (S754_infinity false) MinLatitude MaxLatitude = MaxLatitude.
Proof.
  apply (clip_saturates (S754_infinity false) MinLatitude MaxLatitude);
    reflexivity.
Defined.

(** X11: [clip] does not stop a NaN: with bounds [a <= b] other than
    [a = +Inf] and [b = -Inf], the result is a NaN exactly when [n] is. *)
Theorem clip_NaN (n a b : float64) :
  F64.leb a b = true ->
  F64.IsInf a 1 = false -> F64.IsInf b (-1) = false ->
  F64.IsNaN (clip n a b) = F64.IsNaN n.
Proof.
  intros Hab Hia Hib. destruct (ClipFacts.leb_not_NaN a b Hab) as [Ha Hb].
  destruct (F64.IsNaN n) eqn:Hn.
  - destruct n; try discriminate.
    destruct a as [[]|[]| |[] ma ea], b as [[]|[]| |[] mb eb];
      try discriminate; reflexivity.
  - apply ClipFacts.clip_not_NaN; assumption.
Qed.

Lemma clip_NaN_witness :
  F64.IsNaN (clip F64.NaN MinLatitude MaxLatitude) = F64.IsNaN F64.NaN.
Proof.
  apply (clip_NaN F64.NaN MinLatitude MaxLatitude); reflexivity.
Defined.

(** ** The results of the [float64] operations *)

Module RoundFacts.
Import F64.

Lemma digits2_pos_size (p : positive) : digits2_pos p = Pos.size p.
Proof. induction p as [p IH|p IH|]; cbn; [rewrite IH..|]; reflexivity. Qed.

(** A number is below 2 to the number of its digits. *)
Lemma Zdigits2_bound (m : Z) : 0 <= m -> m < 2 ^ Zdigits2 m.
Proof.
  destruct m as [|p|p]; intros H; [reflexivity| |lia].
  cbn [Zdigits2]. rewrite digits2_pos_size.
  pose proof (Pos.size_gt p) as Hp.
  apply Pos2Z.pos_lt_pos in Hp. rewrite Pos2Z.inj_pow in Hp. exact Hp.
Qed.

Lemma Zdigits2_nonneg (m : Z) : 0 <= Zdigits2 m.
Proof. destruct m; cbn; lia. Qed.

Lemma shr_1_half (mrs : shr_record) :
  0 <= shr_m mrs -> shr_m (shr_1 mrs) = shr_m mrs / 2.
Proof.
  destruct mrs as [m r s]. cbn [shr_m]. intros H.
  destruct m as [|[p|p|]|p]; cbn [shr_1 shr_m]; try lia; try reflexivity.
  - rewrite Pos2Z.inj_xI. apply Z.div_unique with 1; lia.
  - rewrite Pos2Z.inj_xO. apply Z.div_unique with 0; lia.
Qed.

(** Shifting the mantissa [p] times to the right divides it by [2^p]. *)
Lemma iter_shr_1 (p : positive) :
  forall mrs : shr_record,
    0 <= shr_m mrs ->
    shr_m (iter_pos shr_1 p mrs) = shr_m mrs / 2 ^ Zpos p.
Proof.
  assert (Hhalf : forall mrs, 0 <= shr_m mrs -> 0 <= shr_m (shr_1 mrs)).
  { intros mrs H. rewrite shr_1_half by assumption. apply Z.div_pos; lia. }
  induction p as [p IH|p IH|]; intros mrs H; cbn [iter_pos].
  - assert (H1 : 0 <= shr_m (iter_pos shr_1 p (shr_1 mrs))).
    { rewrite IH by auto. apply Z.div_pos; [auto|].
      apply Z.pow_pos_nonneg; lia. }
    rewrite IH, IH, shr_1_half by auto.
    rewrite !Z.div_div by (try apply Z.pow_pos_nonneg; lia).
    f_equal. change 2 with (2 ^ 1) at 1.
    rewrite <- !Z.pow_add_r by lia. f_equal. lia.
  - assert (H1 : 0 <= shr_m (iter_pos shr_1 p mrs)).
    { rewrite IH by auto. apply Z.div_pos; [auto|].
      apply Z.pow_pos_nonneg; lia. }
    rewrite IH, IH by auto.
    rewrite !Z.div_div by (try apply Z.pow_pos_nonneg; lia).
    f_equal. rewrite <- !Z.pow_add_r by lia. f_equal. lia.
  - rewrite shr_1_half by assumption. reflexivity.
Qed.

Lemma shr_m_of_loc (m : Z) (l : location) :
  shr_m (shr_record_of_loc m l) = m.
Proof. destruct l as [|[]]; reflexivity. Qed.

(** After the shift that [shr_fexp] makes the mantissa has at most 53
    bits. *)
Lemma shr_fexp_bound (m e : Z) (l : location) :
  0 <= m ->
  0 <= shr_m (fst (shr_fexp prec emax m e l)) < 2 ^ 53.
Proof.
  intros Hm. unfold shr_fexp, shr.
  pose proof (Zdigits2_bound m Hm) as Hd.
  pose proof (Zdigits2_nonneg m) as Hd0.
  assert (Hn : Zdigits2 m - 53
               <= fexp prec emax (Zdigits2 m + e) - e).
  { unfold fexp, prec. lia. }
  destruct (fexp prec emax (Zdigits2 m + e) - e) as [|p|p] eqn:En;
    cbn [fst].
  - rewrite shr_m_of_loc. split; [assumption|].
    apply Z.lt_le_trans with (2 ^ Zdigits2 m); [assumption|].
    apply Z.pow_le_mono_r; lia.
  - rewrite iter_shr_1, shr_m_of_loc by (rewrite shr_m_of_loc; assumption).
    assert (Hp : 0 < 2 ^ Zpos p) by (apply Z.pow_pos_nonneg; lia).
    split; [apply Z.div_pos; assumption|].
    apply Z.div_lt_upper_bound; [assumption|].
    rewrite <- Z.pow_add_r by lia.
    apply Z.lt_le_trans with (2 ^ Zdigits2 m); [assumption|].
    apply Z.pow_le_mono_r; lia.
  - rewrite shr_m_of_loc. split; [assumption|].
    apply Z.lt_le_trans with (2 ^ Zdigits2 m); [assumption|].
    apply Z.pow_le_mono_r; lia.
Qed.

Lemma round_nearest_even_nonneg (m : Z) (l : location) :
  0 <= m -> 0 <= round_nearest_even m l.
Proof.
  intros H. destruct l as [|[]]; cbn; try lia.
  destruct (Z.even m); lia.
Qed.

(** Rounding gives a number of the sign asked for, never a NaN, with a
    mantissa of at most 53 bits. *)
Lemma binary_round_aux_rounded (sx : bool) (mx ex : Z) (lx : location) :
  0 <= mx -> rounded sx (binary_round_aux prec emax sx mx ex lx).
Proof.
  intros Hm. unfold binary_round_aux.
  pose proof (shr_fexp_bound mx ex lx Hm) as [H1 _].
  destruct (shr_fexp prec emax mx ex lx) as [mrs' e'].
  cbn [fst] in H1.
  pose proof (shr_fexp_bound
                (round_nearest_even (shr_m mrs') (loc_of_shr_record mrs'))
                e' loc_Exact
                (round_nearest_even_nonneg _ _ H1)) as H2.
  destruct (shr_fexp prec emax _ e' loc_Exact) as [mrs'' e''].
  cbn [fst] in H2.
  destruct (shr_m mrs'') as [|m|m]; [| |lia].
  - split; [exact I | reflexivity].
  - destruct (e'' <=? emax - prec); (split; [|reflexivity]); cbn; lia.
Qed.

Lemma binary_round_rounded (sx : bool) (mx : positive) (ex : Z) :
  rounded sx (binary_round prec emax sx mx ex).
Proof.
  unfold binary_round. destruct (shl_align _ _ _) as [mz ez].
  apply binary_round_aux_rounded. lia.
Qed.

Lemma binary_normalize_mantissa53 (m e : Z) (szero : bool) :
  mantissa53 (binary_normalize prec emax m e szero).
Proof.
  destruct m as [|p|p]; cbn [binary_normalize]; [exact I| |];
    apply binary_round_rounded.
Qed.

(** The conversion of a non-negative integer has no sign. *)
Lemma of_Z_nonneg (z : Z) : 0 <= z -> rounded false (of_Z z).
Proof.
  intros H. destruct z as [|p|p]; [split; [exact I|reflexivity]| |lia].
  apply binary_round_rounded.
Qed.

Lemma of_Z_neg (z : Z) : z < 0 -> rounded true (of_Z z).
Proof.
  intros H. destruct z as [|p|p]; try lia. apply binary_round_rounded.
Qed.

Lemma mantissa53_not_NaN (f : float64) : mantissa53 f -> IsNaN f = false.
Proof. destruct f; cbn; intros H; [reflexivity..|contradiction|reflexivity]. Qed.

(** Adding a finite number to a number gives a number. *)
Lemma add_finite_r (x : float64) (s : bool) (m : positive) (e : Z) :
  IsNaN x = false -> Zpos m < 2 ^ 53 ->
  mantissa53 (add x (S754_finite s m e)).
Proof.
  intros Hx Hm. destruct x as [sx|sx| |sx mx ex]; try discriminate.
  - exact Hm.
  - exact I.
  - unfold add, SFadd. apply binary_normalize_mantissa53.
Qed.

Lemma sub_finite_l (s : bool) (m : positive) (e : Z) (y : float64) :
  IsNaN y = false -> Zpos m < 2 ^ 53 ->
  mantissa53 (sub (S754_finite s m e) y).
Proof.
  intros Hy Hm. destruct y as [sy|sy| |sy my ey]; try discriminate.
  - exact Hm.
  - exact I.
  - unfold sub, SFsub. apply binary_normalize_mantissa53.
Qed.

Lemma mul_finite_r (x : float64) (s : bool) (m : positive) (e : Z) :
  IsNaN x = false -> mantissa53 (mul x (S754_finite s m e)).
Proof.
  intros Hx. destruct x as [sx|sx| |sx mx ex]; try discriminate;
    try exact I.
  unfold mul, SFmul. apply binary_round_aux_rounded. lia.
Qed.

Lemma div_finite_r (x : float64) (s : bool) (m : positive) (e : Z) :
  IsNaN x = false -> mantissa53 (div x (S754_finite s m e)).
Proof.
  intros Hx. destruct x as [sx|sx| |sx mx ex]; try discriminate;
    try exact I.
  unfold div, SFdiv, SFdiv_core_binary.
  match goal with
  | |- context [Z.div_eucl ?a ?b] =>
      pose proof (Z.div_pos a b) as Hq;
      unfold Z.div in Hq; destruct (Z.div_eucl a b) as [q r]
  end.
  apply binary_round_aux_rounded. apply Hq; [|lia].
  match goal with
  | |- 0 <= match ?k with _ => _ end =>
      destruct k; try lia; apply Z.shiftl_nonneg; lia
  end.
Qed.
End RoundFacts.

(** ** The pixels of [LatLongToPixelXY] *)

Module PixelFacts.
Import F64.

Lemma shiftl_mono (a b n : Z) : a <= b -> Z.shiftl a n <= Z.shiftl b n.
Proof.
  intros H. destruct (Z.le_gt_cases 0 n) as [Hn|Hn].
  - rewrite !Z.shiftl_mul_pow2 by assumption.
    apply Z.mul_le_mono_nonneg_r; [apply Z.pow_nonneg; lia | assumption].
  - rewrite !Z.shiftl_div_pow2 by lia.
    apply Z.div_le_mono; [apply Z.pow_pos_nonneg; lia | assumption].
Qed.

(** Among positive numbers with mantissas of at most 53 bits, a number
    that is below a normalized one has the smaller integer part. *)
Lemma trunc_le (m mB : positive) (e eB : Z) :
  Zpos m < 2 ^ 53 -> 2 ^ 52 <= Zpos mB ->
  below (S754_finite false m e) (S754_finite false mB eB) = true ->
  Z.shiftl (Zpos m) e <= Z.shiftl (Zpos mB) eB.
Proof.
  intros Hm HB. unfold below, ltb, eqb, SFltb, SFeqb. cbn.
  destruct (Z.compare_spec e eB) as [E|E|E]; cbn.
  - subst eB. change (Pos.compare_cont Eq m mB) with (Pos.compare m mB).
    destruct (Pos.compare_spec m mB) as [F|F|F]; cbn; try discriminate;
      intros _; apply shiftl_mono; lia.
  - intros _.
    replace eB with ((eB - e) + e) by lia.
    rewrite <- Z.shiftl_shiftl by lia.
    apply shiftl_mono. rewrite Z.shiftl_mul_pow2 by lia.
    assert (2 ^ 1 <= 2 ^ (eB - e)) by (apply Z.pow_le_mono_r; lia).
    change (2 ^ 1) with 2 in *. nia.
  - discriminate.
Qed.

Lemma trunc_clip (v : float64) (mB : positive) (eB : Z) :
  mantissa53 v -> 2 ^ 52 <= Zpos mB ->
  exists z : Z,
    trunc (clip v (S754_zero false) (S754_finite false mB eB)) = Some z
    /\ 0 <= z <= Z.shiftl (Zpos mB) eB.
Proof.
  intros Hv HB.
  pose proof (RoundFacts.mantissa53_not_NaN v Hv) as Hn.
  assert (H0 : 0 <= Z.shiftl (Zpos mB) eB) by (apply Z.shiftl_nonneg; lia).
  unfold clip. rewrite (ClipFacts.Max_below v) by (assumption || reflexivity).
  destruct (below v (S754_zero false)) eqn:Ev.
  - exists 0. split; [reflexivity | lia].
  - rewrite ClipFacts.Min_below by (assumption || reflexivity).
    destruct (below v (S754_finite false mB eB)) eqn:Eb.
    + destruct v as [s|s| |s m e]; try discriminate.
      * exists 0. split; [reflexivity | lia].
      * destruct s; discriminate.
      * destruct s; [discriminate|]. cbn [trunc cond_Zopp].
        exists (Z.shiftl (Zpos m) e). split; [reflexivity|].
        split; [apply Z.shiftl_nonneg; lia|].
        apply trunc_le; assumption.
    + exists (Z.shiftl (Zpos mB) eB). split; [reflexivity | lia].
Qed.

Lemma levels_forall (f : Z -> bool) :
  forallb f (map Z.of_nat (seq 0 24)) = true ->
  forall level : Z, 0 <= level <= 23 -> f level = true.
Proof.
  intros H level Hl. rewrite forallb_forall in H. apply H.
  apply in_map_iff. exists (Z.to_nat level). split; [lia|].
  apply in_seq. lia.
Qed.

(** For the levels 0 to 23 the size of the map and the size less 1 are
    [float64] numbers, exactly, and the size less 1 is an [int]. *)
Lemma map_bounds (arch : GoArch) (level : Z) :
  0 <= level <= 23 ->
  exists (mB mM : positive) (eB eM : Z),
    of_Z (Go.uint_sub arch (MapSize arch level) 1) = S754_finite false mB eB
    /\ of_Z (MapSize arch level) = S754_finite false mM eM
    /\ 2 ^ 52 <= Zpos mB
    /\ Z.shiftl (Zpos mB) eB = MapSize arch level - 1
    /\ MapSize arch level - 1 <= Go.MaxInt arch.
Proof.
  intros Hl.
  pose proof
    (levels_forall
       (fun l =>
          match of_Z (Go.uint_sub arch (MapSize arch l) 1),
                of_Z (MapSize arch l) with
          | S754_finite false mB eB, S754_finite false _ _ =>
              (2 ^ 52 <=? Zpos mB)
              && (Z.shiftl (Zpos mB) eB =? MapSize arch l - 1)
              && (MapSize arch l - 1 <=? Go.MaxInt arch)
          | _, _ => false
          end)) as H.
  specialize (H ltac:(destruct arch; vm_compute; reflexivity) level Hl).
  cbv beta in H.
  destruct (of_Z (Go.uint_sub arch (MapSize arch level) 1))
    as [| | |[] mB eB]; try discriminate.
  destruct (of_Z (MapSize arch level)) as [| | |[] mM eM]; try discriminate.
  apply andb_true_iff in H as [H H3]. apply andb_true_iff in H as [H1 H2].
  exists mB, mM, eB, eM. repeat split; lia.
Qed.

(** The conversion to [int] of a number clipped to the map is a pixel
    of the map, whatever the implementation does with the numbers that
    no [int] represents. *)
Lemma int_of_clipped (arch : GoArch) (level : Z) (v : float64) :
  0 <= level <= 23 -> mantissa53 v ->
  exists z : Z,
    0 <= z <= MapSize arch level - 1
    /\ forall conv : float64 -> Z,
        int_of_float64 arch conv
          (clip v (of_Z 0) (of_Z (Go.uint_sub arch (MapSize arch level) 1)))
        = z.
Proof.
  intros Hl Hv.
  destruct (map_bounds arch level Hl)
    as (mB & mM & eB & eM & EB & _ & HB & HT & HI).
  rewrite EB. change (of_Z 0) with (S754_zero false).
  destruct (trunc_clip v mB eB Hv HB) as (z & Ez & Hz).
  exists z. split; [lia|]. intros conv. unfold int_of_float64.
  rewrite Ez. pose proof (GoFacts.MinInt_le arch).
  destruct (Z.leb_spec (Go.MinInt arch) z); [|lia].
  destruct (Z.leb_spec z (Go.MaxInt arch)); [reflexivity|lia].
Qed.

Lemma pixelX_value_mantissa53 (arch : GoArch) (longitude : float64)
    (level : Z) :
  0 <= level <= 23 -> IsNaN longitude = false ->
  mantissa53 (pixelX_value arch longitude level).
Proof.
  intros Hl Hn. unfold pixelX_value. cbv zeta.
  destruct (map_bounds arch level Hl) as (mB & mM & eB & eM & _ & EM & _).
  rewrite EM.
  apply RoundFacts.add_finite_r; [|vm_compute; reflexivity].
  apply RoundFacts.mantissa53_not_NaN, RoundFacts.mul_finite_r.
  apply RoundFacts.mantissa53_not_NaN.
  remember (of_Z 360) as c eqn:Ec. vm_compute in Ec. subst c.
  apply RoundFacts.div_finite_r.
  apply RoundFacts.mantissa53_not_NaN.
  remember (of_Z 180) as c eqn:Ec. vm_compute in Ec. subst c.
  apply RoundFacts.add_finite_r; [|vm_compute; reflexivity].
  apply ClipFacts.clip_not_NaN; [assumption|reflexivity..].
Qed.
End PixelFacts.

(** X12: for every level from 0 to 23 and every longitude that is not a
    NaN (out of range or infinite as it may be), whatever the latitude,
    [pixelX] lies in [0, MapSize(level) - 1], and it does not depend on
    what the implementation does when it converts a [float64] that no
    [int] represents. *)
Theorem LatLongToPixelXY_pixelX_in_map (arch : GoArch)
    (math_Sin math_Log : float64 -> float64) (conv : float64 -> Z)
    (latitude longitude : float64) (level : Z) :
  0 <= level <= 23 ->
  F64.IsNaN longitude = false ->
  0 <= fst (LatLongToPixelXY arch math_Sin math_Log conv
              latitude longitude level)
    <= MapSize arch level - 1
  /\ forall conv' : float64 -> Z,
      fst (LatLongToPixelXY arch math_Sin math_Log conv'
             latitude longitude level)
      = fst (LatLongToPixelXY arch math_Sin math_Log conv
               latitude longitude level).
Proof.
  intros Hl Hn.
  destruct (PixelFacts.int_of_clipped arch level
              (pixelX_value arch longitude level) Hl
              (PixelFacts.pixelX_value_mantissa53 arch longitude level Hl Hn))
    as (z & Hz & E).
  unfold LatLongToPixelXY. cbv zeta. cbn [fst].
  unfold pixelX_value in E. cbv zeta in E.
  split; [rewrite E; exact Hz|].
  intros conv'. rewrite !E. reflexivity.
Qed.

Lemma LatLongToPixelXY_pixelX_in_map_witness :
  0 <= fst (LatLongToPixelXY Arch32 (fun x => x) (fun x => x) (fun _ => 0)
              (F64.of_Z 91) (F64.of_Z 200) 23)
    <= MapSize Arch32 23 - 1.
Proof.
  apply (LatLongToPixelXY_pixelX_in_map Arch32 (fun x => x) (fun x => x)
           (fun _ => 0) (F64.of_Z 91) (F64.of_Z 200) 23);
    [lia | reflexivity].
Defined.

(** X13: for every level from 0 to 23, every latitude and every
    longitude, if the value that [math.Log] returns in the projection is
    not a NaN (it may be infinite), then [pixelY] lies in
    [0, MapSize(level) - 1], and it does not depend on what the
    implementation does when it converts a [float64] that no [int]
    represents. *)
Theorem LatLongToPixelXY_pixelY_in_map (arch : GoArch)
    (math_Sin math_Log : float64 -> float64) (conv : float64 -> Z)
    (latitude longitude : float64) (level : Z) :
  0 <= level <= 23 ->
  F64.IsNaN (mercator_log math_Sin math_Log latitude) = false ->
  0 <= snd (LatLongToPixelXY arch math_Sin math_Log conv
              latitude longitude level)
    <= MapSize arch level - 1
  /\ forall conv' : float64 -> Z,
      snd (LatLongToPixelXY arch math_Sin math_Log conv'
             latitude longitude level)
      = snd (LatLongToPixelXY arch math_Sin math_Log conv
               latitude longitude level).
Proof.
  intros Hl Hn. unfold LatLongToPixelXY. cbv zeta. cbn [snd].
  unfold mercator_log in Hn. cbv zeta in Hn.
  match goal with
  | |- context [int_of_float64 arch conv (clip ?v _ _)] =>
      assert (Hv : mantissa53 v)
  end.
  { destruct (PixelFacts.map_bounds arch level Hl)
      as (mB & mM & eB & eM & _ & EM & _).
    rewrite EM.
    apply RoundFacts.add_finite_r; [|vm_compute; reflexivity].
    apply RoundFacts.mantissa53_not_NaN, RoundFacts.mul_finite_r.
    apply RoundFacts.mantissa53_not_NaN.
    apply RoundFacts.sub_finite_l; [|vm_compute; reflexivity].
    apply RoundFacts.mantissa53_not_NaN, RoundFacts.div_finite_r.
    exact Hn. }
  destruct (PixelFacts.int_of_clipped arch level _ Hl Hv) as (z & Hz & E).
  split; [rewrite E; exact Hz|].
  intros conv'. rewrite !E. reflexivity.
Qed.

Lemma LatLongToPixelXY_pixelY_in_map_witness :
  0 <= snd (LatLongToPixelXY Arch64 (fun x => x) (fun x => x) (fun _ => 0)
              (F64.of_Z 91) (F64.of_Z 200) 23)
    <= MapSize Arch64 23 - 1.
Proof.
  apply (LatLongToPixelXY_pixelY_in_map Arch64 (fun x => x) (fun x => x)
           (fun _ => 0) (F64.of_Z 91) (F64.of_Z 200) 23);
    [lia | reflexivity].
Defined.

Module EdgeFacts.
Import F64.

Lemma add_NaN_l (y : float64) : add NaN y = NaN.
Proof. destruct y; reflexivity. Qed.

Lemma mul_NaN_l (y : float64) : mul NaN y = NaN.
Proof. destruct y; reflexivity. Qed.

Lemma div_NaN_l (y : float64) : div NaN y = NaN.
Proof. destruct y; reflexivity. Qed.

(** A NaN goes through the clip to the map. *)
Lemma clip_NaN_map (z : Z) :
  0 <= z -> clip NaN (of_Z 0) (of_Z z) = NaN.
Proof.
  intros Hz. destruct (RoundFacts.of_Z_nonneg z Hz) as [_ Hs].
  destruct (of_Z z) as [s|s| |s m e]; cbn in Hs; subst; reflexivity.
Qed.

Lemma uint_sub_nonneg (arch : GoArch) (x y : Z) : 0 <= Go.uint_sub arch x y.
Proof.
  unfold Go.uint_sub, Go.to_uint. apply Z.mod_pos_bound.
  destruct arch; reflexivity.
Qed.

(** At or beyond a bound that is not a zero, [clip] returns the bound. *)
Lemma clip_at_or_above (n a b : float64) :
  leb a b = true -> leb b n = true ->
  eqb b (S754_zero false) = false -> clip n a b = b.
Proof.
  intros Hab Hbn Hz.
  destruct (ClipFacts.leb_not_NaN a b Hab) as [Ha Hb].
  destruct (ClipFacts.leb_not_NaN b n Hbn) as [_ Hn].
  unfold clip. rewrite ClipFacts.Max_below by assumption.
  destruct (below n a) eqn:Hna.
  - apply ClipMore.below_leb in Hna.
    rewrite ClipFacts.Min_below by assumption.
    destruct (below a b); [|reflexivity].
    apply ClipMore.eqb_eq; [|assumption].
    apply ClipMore.leb_antisym; [assumption|].
    apply ClipMore.leb_trans with n; assumption.
  - rewrite ClipFacts.Min_below by assumption.
    destruct (below n b) eqn:Hnb; [|reflexivity].
    apply ClipMore.eqb_eq; [|assumption].
    apply ClipMore.leb_antisym; [|assumption].
    apply ClipMore.below_leb; assumption.
Qed.

Lemma clip_at_or_below (n a b : float64) :
  leb a b = true -> leb n a = true ->
  eqb a (S754_zero false) = false -> clip n a b = a.
Proof.
  intros Hab Hna Hz.
  destruct (ClipFacts.leb_not_NaN a b Hab) as [Ha Hb].
  destruct (ClipFacts.leb_not_NaN n a Hna) as [Hn _].
  assert (Hm : Max n a = a).
  { rewrite ClipFacts.Max_below by assumption.
    destruct (below n a) eqn:E; [reflexivity|].
    apply ClipMore.eqb_eq; [|assumption].
    apply ClipMore.leb_antisym; [assumption|].
    apply ClipMore.not_below_leb; assumption. }
  unfold clip. rewrite Hm, ClipFacts.Min_below by assumption.
  destruct (below a b) eqn:E; [reflexivity|].
  apply ClipMore.eqb_eq; [|assumption].
  apply ClipMore.leb_antisym; [|assumption].
  apply ClipMore.not_below_leb; assumption.
Qed.

Lemma MapSize_zero (arch : GoArch) (level : Z) :
  IntSize arch - 8 <= level -> MapSize arch level = 0.
Proof.
  intros H. unfold MapSize, Go.uint_shl, Go.to_uint.
  assert (H0 : 0 <= level) by (destruct arch; cbn [IntSize] in H; lia).
  rewrite Z.shiftl_mul_pow2 by assumption.
  change 256 with (2 ^ 8). rewrite <- Z.pow_add_r by lia.
  replace (8 + level) with ((8 + level - IntSize arch) + IntSize arch) by lia.
  rewrite Z.pow_add_r by (destruct arch; cbn [IntSize] in *; lia).
  apply Z.mod_mul. destruct arch; discriminate.
Qed.

Lemma div_by_zero (x : float64) : is_finite (div x (of_Z 0)) = false.
Proof. destruct x as [s|s| |s m e]; reflexivity. Qed.

Lemma mul_not_finite (x y : float64) :
  is_finite x = false -> is_finite (mul x y) = false.
Proof.
  destruct x as [s|s| |s m e]; try discriminate; intros _;
    destruct y; reflexivity.
Qed.

Lemma div_not_finite (x : float64) (s : bool) (m : positive) (e : Z) :
  is_finite x = false -> is_finite (div x (S754_finite s m e)) = false.
Proof.
  destruct x as [sx|sx| |sx mx ex]; try discriminate; reflexivity.
Qed.
End EdgeFacts.

(** X14: the clip of the longitude does not stop a NaN: for a NaN
    longitude, at every level and for every latitude, [pixelX] is the
    conversion of a NaN to [int], whose value depends on the
    implementation. *)
Theorem LatLongToPixelXY_NaN_longitude (arch : GoArch)
    (math_Sin math_Log : float64 -> float64) (conv : float64 -> Z)
    (latitude : float64) (level : Z) :
  fst (LatLongToPixelXY arch math_Sin math_Log conv latitude F64.NaN level)
  = conv F64.NaN.
Proof.
  unfold LatLongToPixelXY. cbv zeta. cbn [fst].
  change (clip F64.NaN (F64.of_Z MinLongitude) (F64.of_Z MaxLongitude))
    with F64.NaN.
  replace (F64.add
             (F64.mul
                (F64.div (F64.add F64.NaN (F64.of_Z 180)) (F64.of_Z 360))
                (F64.of_Z (MapSize arch level))) F64.half)
    with F64.NaN
    by (change (F64.div (F64.add F64.NaN (F64.of_Z 180)) (F64.of_Z 360))
          with F64.NaN;
        rewrite EdgeFacts.mul_NaN_l; reflexivity).
  rewrite EdgeFacts.clip_NaN_map by apply EdgeFacts.uint_sub_nonneg.
  reflexivity.
Qed.

(** X15: for the levels 0 to 23, every longitude of 180 or more, +Inf
    included, gives the last pixel column, [MapSize(level) - 1], and every
    longitude of -180 or less, -Inf included, gives the column 0. *)
Theorem LatLongToPixelXY_longitude_saturates (arch : GoArch)
    (math_Sin math_Log : float64 -> float64) (conv : float64 -> Z)
    (latitude longitude : float64) (level : Z) :
  0 <= level <= 23 ->
  (F64.leb (F64.of_Z 180) longitude = true ->
   fst (LatLongToPixelXY arch math_Sin math_Log conv latitude longitude level)
   = MapSize arch level - 1)
  /\ (F64.leb longitude (F64.of_Z (-180)) = true ->
      fst (LatLongToPixelXY arch math_Sin math_Log conv
             latitude longitude level)
      = 0).
Proof.
  intros Hl.
  assert (Hx : forall lon,
             F64.IsNaN lon = false ->
             fst (LatLongToPixelXY arch math_Sin math_Log conv
                    latitude lon level)
             = int_of_float64 arch (fun _ => 0)
                 (clip (pixelX_value arch lon level) (F64.of_Z 0)
                    (F64.of_Z (Go.uint_sub arch (MapSize arch level) 1)))).
  { intros lon Hn.
    destruct (PixelFacts.int_of_clipped arch level
                (pixelX_value arch lon level) Hl
                (PixelFacts.pixelX_value_mantissa53 arch lon level Hl Hn))
      as (z & _ & E).
    transitivity z; [|symmetry; apply E].
    unfold LatLongToPixelXY. cbv zeta. cbn [fst]. apply E. }
  split; intros Hlon.
  - destruct (ClipFacts.leb_not_NaN _ _ Hlon) as [_ Hn].
    rewrite (Hx longitude Hn). unfold pixelX_value. cbv zeta.
    rewrite (EdgeFacts.clip_at_or_above longitude) by (assumption || reflexivity).
    apply Z.eqb_eq.
    apply (PixelFacts.levels_forall
             (fun l =>
                int_of_float64 arch (fun _ => 0)
                  (clip
                     (F64.add
                        (F64.mul
                           (F64.div
                              (F64.add (F64.of_Z MaxLongitude) (F64.of_Z 180))
                              (F64.of_Z 360))
                           (F64.of_Z (MapSize arch l))) F64.half)
                     (F64.of_Z 0)
                     (F64.of_Z (Go.uint_sub arch (MapSize arch l) 1)))
                =? MapSize arch l - 1));
      [destruct arch; vm_compute; reflexivity | assumption].
  - destruct (ClipFacts.leb_not_NaN _ _ Hlon) as [Hn _].
    rewrite (Hx longitude Hn). unfold pixelX_value. cbv zeta.
    rewrite (EdgeFacts.clip_at_or_below longitude) by (assumption || reflexivity).
    apply Z.eqb_eq.
    apply (PixelFacts.levels_forall
             (fun l =>
                int_of_float64 arch (fun _ => 0)
                  (clip
                     (F64.add
                        (F64.mul
                           (F64.div
                              (F64.add (F64.of_Z MinLongitude) (F64.of_Z 180))
                              (F64.of_Z 360))
                           (F64.of_Z (MapSize arch l))) F64.half)
                     (F64.of_Z 0)
                     (F64.of_Z (Go.uint_sub arch (MapSize arch l) 1)))
                =? 0));
      [destruct arch; vm_compute; reflexivity | assumption].
Qed.

Lemma LatLongToPixelXY_longitude_saturates_witness :
  fst (LatLongToPixelXY Arch64 (fun x => x) (fun x => x) (fun _ => 0)
         (F64.of_Z 0) (F64.of_Z 200) 1)
  = MapSize Arch64 1 - 1.
Proof.
  apply (LatLongToPixelXY_longitude_saturates Arch64 (fun x => x)
           (fun x => x) (fun _ => 0) (F64.of_Z 0) (F64.of_Z 200) 1);
    [lia | reflexivity].
Defined.

(** ** From coordinates to quadkeys and back *)

Module ComposeFacts.
Lemma tile_of_map_pixel (arch : GoArch) (level p : Z) :
  0 <= level <= 23 -> 0 <= p <= MapSize arch level - 1 ->
  Go.int_quo arch p 256 = p / 256
  /\ 0 <= p / 256 <= 2 ^ level - 1.
Proof.
  intros Hl Hp.
  assert (EM : MapSize arch level = 2 ^ level * 256).
  { unfold MapSize, Go.uint_shl. rewrite Z.shiftl_mul_pow2 by lia.
    rewrite GoFacts.to_uint_small; [lia|].
    pose proof (GoFacts.pow2_le_23 level Hl).
    pose proof (GoFacts.MaxUint_ge arch). lia. }
  pose proof (GoFacts.pow2_le_23 level Hl) as H2.
  assert (Hq : 0 <= p / 256 <= 2 ^ level - 1).
  { split; [apply Z.div_pos; lia|].
    assert (p / 256 < 2 ^ level); [|lia].
    apply Z.div_lt_upper_bound; lia. }
  split; [|exact Hq].
  unfold Go.int_quo. rewrite Z.quot_div_nonneg by lia.
  apply GoFacts.to_int_small.
  pose proof (GoFacts.MinInt_le arch). pose proof (GoFacts.MaxInt_ge arch).
  lia.
Qed.

Lemma decode_encode_in_range (arch : GoArch) (x y level : Z) :
  0 <= level <= 23 ->
  0 <= x <= 2 ^ level - 1 -> 0 <= y <= 2 ^ level - 1 ->
  QuadKeyToTileXY arch (TileXYToQuadKey arch x y level) = Some (x, y, level).
Proof.
  intros Hl Hx Hy. unfold TileXYToQuadKey.
  rewrite QuadKeyFacts.loop_spec_quadkey by lia.
  rewrite DecodeFacts.QuadKeyToTileXY_decode_rest.
  - rewrite QuadKeyFacts.decode_rest_spec_quadkey by lia.
    rewrite QuadKeyFacts.len_spec_quadkey, Z2Nat.id by lia.
    cbn [fst snd Z.lor]. rewrite !Z.mod_small by lia. reflexivity.
  - unfold go_string. rewrite QuadKeyFacts.len_spec_quadkey.
    pose proof (GoFacts.MaxInt_ge arch). lia.
Qed.
End ComposeFacts.

(** X16: for the levels 0 to 23, a longitude that is not a NaN and a
    value of [math.Log] that is not a NaN, the quadkey that
    [LatLongToQuadKey] returns decodes to the tile of the pixel of
    [LatLongToPixelXY], which is pixel divided by 256 and lies in
    [0, 2^level - 1], and to the level. *)
Theorem LatLongToQuadKey_decodes_to_tile (arch : GoArch)
    (math_Sin math_Log : float64 -> float64) (conv : float64 -> Z)
    (latitude longitude : float64) (level : Z) :
  0 <= level <= 23 ->
  F64.IsNaN longitude = false ->
  F64.IsNaN (mercator_log math_Sin math_Log latitude) = false ->
  let pixel :=
    LatLongToPixelXY arch math_Sin math_Log conv latitude longitude level in
  QuadKeyToTileXY arch
    (LatLongToQuadKey arch math_Sin math_Log conv latitude longitude level)
  = Some (fst pixel / 256, snd pixel / 256, level)
  /\ 0 <= fst pixel / 256 <= 2 ^ level - 1
  /\ 0 <= snd pixel / 256 <= 2 ^ level - 1.
Proof.
  intros Hl Hlon Hlog. cbv zeta.
  assert (Hx : 0 <= fst (LatLongToPixelXY arch math_Sin math_Log conv
                           latitude longitude level)
               <= MapSize arch level - 1).
  { destruct (PixelFacts.int_of_clipped arch level
                (pixelX_value arch longitude level) Hl
                (PixelFacts.pixelX_value_mantissa53 arch longitude level
                   Hl Hlon)) as (z & Hz & E).
    unfold LatLongToPixelXY. cbv zeta. cbn [fst].
    unfold pixelX_value in E. cbv zeta in E. rewrite E. exact Hz. }
  assert (Hy : 0 <= snd (LatLongToPixelXY arch math_Sin math_Log conv
                           latitude longitude level)
               <= MapSize arch level - 1).
  { unfold LatLongToPixelXY. cbv zeta. cbn [snd].
    unfold mercator_log in Hlog. cbv zeta in Hlog.
    match goal with
    | |- context [int_of_float64 arch conv (clip ?v _ _)] =>
        assert (Hv : mantissa53 v)
    end.
    { destruct (PixelFacts.map_bounds arch level Hl)
        as (mB & mM & eB & eM & _ & EM & _).
      rewrite EM.
      apply RoundFacts.add_finite_r; [|vm_compute; reflexivity].
      apply RoundFacts.mantissa53_not_NaN, RoundFacts.mul_finite_r.
      apply RoundFacts.mantissa53_not_NaN.
      apply RoundFacts.sub_finite_l; [|vm_compute; reflexivity].
      apply RoundFacts.mantissa53_not_NaN, RoundFacts.div_finite_r.
      exact Hlog. }
    destruct (PixelFacts.int_of_clipped arch level _ Hl Hv) as (z & Hz & E).
    rewrite E. exact Hz. }
  unfold LatLongToQuadKey.
  destruct (LatLongToPixelXY arch math_Sin math_Log conv
              latitude longitude level) as [px py].
  cbn [fst snd] in *. unfold PixelXYToTileXY.
  destruct (ComposeFacts.tile_of_map_pixel arch level px Hl Hx) as [Ex Tx].
  destruct (ComposeFacts.tile_of_map_pixel arch level py Hl Hy) as [Ey Ty].
  rewrite Ex, Ey.
  split; [|split; assumption].
  apply ComposeFacts.decode_encode_in_range; assumption.
Qed.

Lemma LatLongToQuadKey_decodes_to_tile_witness :
  let pixel :=
    LatLongToPixelXY Arch64 (fun x => x) (fun x => x) (fun _ => 0)
      (F64.of_Z 10) (F64.of_Z 20) 5 in
  QuadKeyToTileXY Arch64
    (LatLongToQuadKey Arch64 (fun x => x) (fun x => x) (fun _ => 0)
       (F64.of_Z 10) (F64.of_Z 20) 5)
  = Some (fst pixel / 256, snd pixel / 256, 5)
  /\ 0 <= fst pixel / 256 <= 2 ^ 5 - 1
  /\ 0 <= snd pixel / 256 <= 2 ^ 5 - 1.
Proof.
  apply (LatLongToQuadKey_decodes_to_tile Arch64 (fun x => x) (fun x => x)
           (fun _ => 0) (F64.of_Z 10) (F64.of_Z 20) 5);
    [lia | reflexivity | reflexivity].
Defined.

(** X17: for every latitude and longitude, NaN and infinities included,
    whatever the math functions and the conversion to [int] compute, and
    for every level, [LatLongToQuadKey] returns exactly [levelOfDetail]
    characters, each of them one of '0', '1', '2', '3'. *)
Theorem LatLongToQuadKey_always_quadkey (arch : GoArch)
    (math_Sin math_Log : float64 -> float64) (conv : float64 -> Z)
    (latitude longitude : float64) (level : Z) :
  0 <= level ->
  Go.len (LatLongToQuadKey arch math_Sin math_Log conv
            latitude longitude level) = level
  /\ has_invalid (LatLongToQuadKey arch math_Sin math_Log conv
                    latitude longitude level) = false.
Proof.
  intros Hl. unfold LatLongToQuadKey.
  destruct (LatLongToPixelXY arch math_Sin math_Log conv
              latitude longitude level) as [px py].
  destruct (PixelXYToTileXY arch px py) as [tx ty].
  unfold TileXYToQuadKey.
  destruct (QuadKeyMore.loop_valid arch tx ty (Z.to_nat level)) as [E V].
  rewrite E, V, Z2Nat.id by assumption. split; reflexivity.
Qed.

Lemma LatLongToQuadKey_always_quadkey_witness :
  Go.len (LatLongToQuadKey Arch32 (fun x => x) (fun x => x) (fun _ => -5)
            F64.NaN F64.NaN 40) = 40
  /\ has_invalid (LatLongToQuadKey Arch32 (fun x => x) (fun x => x)
                    (fun _ => -5) F64.NaN F64.NaN 40) = false.
Proof.
  apply (LatLongToQuadKey_always_quadkey Arch32 (fun x => x) (fun x => x)
           (fun _ => -5) F64.NaN F64.NaN 40). lia.
Defined.

(** ** Latitudes beyond the limits, and levels beyond the integers *)

(** X18: every latitude at or above [MaxLatitude], +Inf included, gives
    the ground resolution, the map scale and the pixel of [MaxLatitude],
    and every latitude at or below [MinLatitude], -Inf included, those of
    [MinLatitude]: at every level and whatever the math functions
    return. *)
Theorem latitude_saturates (arch : GoArch)
    (math_Sin math_Log math_Cos : float64 -> float64) (conv : float64 -> Z)
    (latitude longitude : float64) (level screenDpi : Z) :
  (F64.leb MaxLatitude latitude = true ->
   GroundResolution arch math_Cos latitude level
   = GroundResolution arch math_Cos MaxLatitude level
   /\ MapScale arch math_Cos latitude level screenDpi
      = MapScale arch math_Cos MaxLatitude level screenDpi
   /\ LatLongToPixelXY arch math_Sin math_Log conv latitude longitude level
      = LatLongToPixelXY arch math_Sin math_Log conv
          MaxLatitude longitude level)
  /\ (F64.leb latitude MinLatitude = true ->
      GroundResolution arch math_Cos latitude level
      = GroundResolution arch math_Cos MinLatitude level
      /\ MapScale arch math_Cos latitude level screenDpi
         = MapScale arch math_Cos MinLatitude level screenDpi
      /\ LatLongToPixelXY arch math_Sin math_Log conv
           latitude longitude level
         = LatLongToPixelXY arch math_Sin math_Log conv
             MinLatitude longitude level).
Proof.
  split; intros H.
  - assert (E : clip latitude MinLatitude MaxLatitude
                = clip MaxLatitude MinLatitude MaxLatitude).
    { rewrite EdgeFacts.clip_at_or_above by (assumption || reflexivity).
      reflexivity. }
    unfold MapScale, GroundResolution, LatLongToPixelXY. cbv zeta.
    rewrite E. repeat split.
  - assert (E : clip latitude MinLatitude MaxLatitude
                = clip MinLatitude MinLatitude MaxLatitude).
    { rewrite EdgeFacts.clip_at_or_below by (assumption || reflexivity).
      reflexivity. }
    unfold MapScale, GroundResolution, LatLongToPixelXY. cbv zeta.
    rewrite E. repeat split.
Qed.

Lemma latitude_saturates_witness :
  GroundResolution Arch64 (fun x => x) (F64.of_Z 90) 3
  = GroundResolution Arch64 (fun x => x) MaxLatitude 3.
Proof.
  apply (latitude_saturates Arch64 (fun x => x) (fun x => x) (fun x => x)
           (fun _ => 0) (F64.of_Z 90) (F64.of_Z 0) 3 96).
  reflexivity.
Defined.

(** X19: at a level of the width of a [uint] less 8 or more (24 on a
    32-bit target, 56 on a 64-bit one), where [MapSize] is 0,
    [GroundResolution] and [MapScale] divide by zero: for every latitude
    and whatever [math.Cos] returns, their result is an infinity or a
    NaN, never a finite number. *)
Theorem GroundResolution_level_overflow (arch : GoArch)
    (math_Cos : float64 -> float64) (latitude : float64)
    (level screenDpi : Z) :
  IntSize arch - 8 <= level ->
  is_finite (GroundResolution arch math_Cos latitude level) = false
  /\ is_finite (MapScale arch math_Cos latitude level screenDpi) = false.
Proof.
  intros Hl.
  assert (E : is_finite (GroundResolution arch math_Cos latitude level)
              = false).
  { unfold GroundResolution. cbv zeta.
    rewrite (EdgeFacts.MapSize_zero arch level Hl).
    apply EdgeFacts.div_by_zero. }
  split; [exact E|].
  unfold MapScale.
  apply EdgeFacts.div_not_finite, EdgeFacts.mul_not_finite, E.
Qed.

Lemma GroundResolution_level_overflow_witness :
  is_finite (GroundResolution Arch32 (fun x => x) (F64.of_Z 0) 24) = false.
Proof.
  apply (GroundResolution_level_overflow Arch32 (fun x => x) (F64.of_Z 0)
           24 96).
  vm_compute. discriminate.
Defined.

(** ** The pixels of [PixelXYToLatLong] *)

Module ConvertFacts.
Import F64.

(** A positive number has at least half of 2 to the number of its
    digits. *)
Lemma Zdigits2_lower (m : Z) : 0 < m -> 2 ^ (Zdigits2 m - 1) <= m.
Proof.
  destruct m as [|p|p]; intros H; try lia.
  cbn [Zdigits2]. rewrite RoundFacts.digits2_pos_size.
  pose proof (Pos.size_le p) as Hp.
  apply Pos2Z.pos_le_pos in Hp. rewrite Pos2Z.inj_pow in Hp.
  assert (E : 2 ^ Zpos (Pos.size p) = 2 * 2 ^ (Zpos (Pos.size p) - 1)).
  { rewrite <- Z.pow_succ_r by lia. f_equal. lia. }
  lia.
Qed.

Lemma shr_fexp_spec (m e : Z) (l : location) :
  0 <= m ->
  let n := fexp prec emax (Zdigits2 m + e) - e in
  shr_m (fst (shr_fexp prec emax m e l))
  = (if 0 <? n then m / 2 ^ n else m)
  /\ snd (shr_fexp prec emax m e l) = (if 0 <? n then e + n else e).
Proof.
  intros Hm. cbv zeta. unfold shr_fexp, shr.
  destruct (fexp prec emax (Zdigits2 m + e) - e) as [|p|p];
    cbn [fst snd Z.ltb Z.compare].
  - rewrite RoundFacts.shr_m_of_loc. split; reflexivity.
  - rewrite RoundFacts.iter_shr_1, RoundFacts.shr_m_of_loc
      by (rewrite RoundFacts.shr_m_of_loc; assumption).
    split; reflexivity.
  - rewrite RoundFacts.shr_m_of_loc. split; reflexivity.
Qed.

Lemma round_nearest_even_ge (m : Z) (l : location) :
  m <= round_nearest_even m l.
Proof. destruct l as [|[]]; cbn; try lia. destruct (Z.even m); lia. Qed.

(** A mantissa that the shift does not empty keeps a digit. *)
Lemma shifted_positive (m n : Z) :
  0 < m -> 0 < n -> n <= Zdigits2 m - 1 -> 0 < m / 2 ^ n.
Proof.
  intros Hm Hn Hd. apply Z.div_str_pos. split.
  - apply Z.pow_pos_nonneg; lia.
  - apply Z.le_trans with (2 ^ (Zdigits2 m - 1));
      [apply Z.pow_le_mono_r; lia | apply Zdigits2_lower; assumption].
Qed.

(** Rounding a positive mantissa that the first shift does not empty
    gives a positive number, finite or infinite, whose exponent is at
    least the one that [fexp] gives. *)
Lemma binary_round_aux_positive (mx ex : Z) (lx : location) :
  0 < mx ->
  fexp prec emax (Zdigits2 mx + ex) - ex < Zdigits2 mx ->
  match binary_round_aux prec emax false mx ex lx with
  | S754_infinity false => True
  | S754_finite false m e => fexp prec emax (Zdigits2 mx + ex) <= e
  | _ => False
  end.
Proof.
  intros Hm Hn. unfold binary_round_aux.
  destruct (shr_fexp_spec mx ex lx ltac:(lia)) as [M1 E1].
  destruct (shr_fexp prec emax mx ex lx) as [mrs' e'].
  cbn [fst snd] in M1, E1.
  set (n1 := fexp prec emax (Zdigits2 mx + ex) - ex) in *.
  assert (Hm1 : 0 < shr_m mrs').
  { rewrite M1. destruct (Z.ltb_spec 0 n1); [|assumption].
    apply shifted_positive; lia. }
  assert (He1 : fexp prec emax (Zdigits2 mx + ex) <= e').
  { rewrite E1. destruct (Z.ltb_spec 0 n1); lia. }
  assert (Hmin : emin prec emax <= e').
  { apply Z.le_trans with (fexp prec emax (Zdigits2 mx + ex)); [|assumption].
    unfold fexp. lia. }
  pose proof (round_nearest_even_ge (shr_m mrs') (loc_of_shr_record mrs'))
    as Hr.
  set (m2 := round_nearest_even (shr_m mrs') (loc_of_shr_record mrs')) in *.
  destruct (shr_fexp_spec m2 e' loc_Exact ltac:(lia)) as [M2 E2].
  destruct (shr_fexp prec emax m2 e' loc_Exact) as [mrs'' e''].
  cbn [fst snd] in M2, E2.
  set (n2 := fexp prec emax (Zdigits2 m2 + e') - e') in *.
  assert (Hm3 : 0 < shr_m mrs'').
  { rewrite M2. destruct (Z.ltb_spec 0 n2); [|lia].
    apply shifted_positive; try lia.
    unfold n2, fexp, prec in *. lia. }
  assert (He2 : e' <= e'').
  { rewrite E2. destruct (Z.ltb_spec 0 n2); lia. }
  destruct (shr_m mrs'') as [|m|m]; try lia.
  destruct (e'' <=? emax - prec); [lia | exact I].
Qed.

Lemma digits2_pos_iter_xO (m d : positive) :
  digits2_pos (Pos.iter xO m d) = (digits2_pos m + d)%positive.
Proof.
  induction d as [|d IH] using Pos.peano_ind.
  - cbn. lia.
  - rewrite Pos.iter_succ. cbn [digits2_pos]. rewrite IH. lia.
Qed.

(** The conversion of an integer of at least [2^k] is a positive number,
    finite or infinite, with an exponent of at least [k - 52]. *)
Lemma of_Z_large (z k : Z) :
  0 <= k -> 2 ^ k <= z ->
  match of_Z z with
  | S754_infinity false => True
  | S754_finite false m e => k - 52 <= e
  | _ => False
  end.
Proof.
  intros Hk Hz.
  assert (Hp : 0 < 2 ^ k) by (apply Z.pow_pos_nonneg; lia).
  destruct z as [|p|p]; try lia.
  assert (Hd : k < Zpos (digits2_pos p)).
  { pose proof (RoundFacts.Zdigits2_bound (Zpos p) ltac:(lia)) as Hb.
    cbn [Zdigits2] in Hb.
    apply (Z.pow_lt_mono_r_iff 2); lia. }
  unfold of_Z. cbn [binary_normalize]. unfold binary_round, shl_align.
  set (d := Zpos (digits2_pos p)) in *.
  assert (Ef : fexp prec emax (d + 0) = d - 53)
    by (unfold fexp, emin, prec, emax; lia).
  rewrite Ef.
  destruct (d - 53 - 0) as [|q|q] eqn:Eq.
  - pose proof (binary_round_aux_positive (Zpos p) 0 loc_Exact) as H.
    cbn [Zdigits2] in H. fold d in H. rewrite Ef in H.
    specialize (H ltac:(lia) ltac:(lia)).
    destruct (binary_round_aux _ _ _ _ _ _) as [| [] | | [] m e];
      try contradiction; try exact I. lia.
  - pose proof (binary_round_aux_positive (Zpos p) 0 loc_Exact) as H.
    cbn [Zdigits2] in H. fold d in H. rewrite Ef in H.
    specialize (H ltac:(lia) ltac:(lia)).
    destruct (binary_round_aux _ _ _ _ _ _) as [| [] | | [] m e];
      try contradiction; try exact I. lia.
  - pose proof (binary_round_aux_positive
                  (Zpos (Pos.iter xO p q)) (d - 53) loc_Exact) as H.
    cbn [Zdigits2] in H. rewrite digits2_pos_iter_xO in H.
    replace (Zpos (digits2_pos p + q) + (d - 53)) with (d + 0) in H
      by (rewrite Pos2Z.inj_add; fold d; lia).
    rewrite Ef in H.
    specialize (H ltac:(lia) ltac:(lia)).
    destruct (binary_round_aux _ _ _ _ _ _) as [| [] | | [] m e];
      try contradiction; try exact I. lia.
Qed.
End ConvertFacts.

Module ClampFacts.
Import F64.

(** For the levels 0 to 23 the size of the map less 1 is the [float64]
    of exponent [level - 45]. *)
Lemma map_limit (arch : GoArch) (level : Z) :
  0 <= level <= 23 ->
  Go.uint_sub arch (MapSize arch level) 1 = MapSize arch level - 1
  /\ MapSize arch level = 2 ^ (8 + level)
  /\ exists mB : positive,
      of_Z (MapSize arch level - 1) = S754_finite false mB (level - 45).
Proof.
  intros Hl.
  pose proof
    (PixelFacts.levels_forall
       (fun l =>
          (Go.uint_sub arch (MapSize arch l) 1 =? MapSize arch l - 1)
          && (MapSize arch l =? 2 ^ (8 + l))
          && match of_Z (MapSize arch l - 1) with
             | S754_finite false _ eB => eB =? l - 45
             | _ => false
             end)) as H.
  specialize (H ltac:(destruct arch; vm_compute; reflexivity) level Hl).
  cbv beta in H.
  apply andb_true_iff in H as [H H3]. apply andb_true_iff in H as [H1 H2].
  split; [lia|]. split; [lia|].
  destruct (of_Z (MapSize arch level - 1)) as [| | |[] mB eB];
    try discriminate.
  exists mB. f_equal. lia.
Qed.

(** A pixel coordinate below 0 is clipped like 0. *)
Lemma clip_negative (z : Z) (b : float64) :
  z <= 0 -> clip (of_Z z) (of_Z 0) b = clip (of_Z 0) (of_Z 0) b.
Proof.
  intros Hz. destruct (Z.eq_dec z 0) as [->|Hn]; [reflexivity|].
  destruct (RoundFacts.of_Z_neg z ltac:(lia)) as [_ Hs].
  unfold clip. f_equal.
  destruct (of_Z z) as [s|s| |s m e]; cbn in Hs; try discriminate; subst;
    reflexivity.
Qed.

(** A pixel coordinate of the size of the map less 1, or more, is
    clipped to that size less 1. *)
Lemma clip_beyond (arch : GoArch) (level z : Z) :
  0 <= level <= 23 -> MapSize arch level - 1 <= z ->
  clip (of_Z z) (of_Z 0) (of_Z (MapSize arch level - 1))
  = of_Z (MapSize arch level - 1).
Proof.
  intros Hl Hz.
  destruct (map_limit arch level Hl) as (_ & EM & mB & EB).
  rewrite EB. change (of_Z 0) with (S754_zero false).
  apply EdgeFacts.clip_at_or_above; try reflexivity.
  destruct (Z.eq_dec z (MapSize arch level - 1)) as [->|Hne].
  - rewrite EB. apply ClipMore.leb_refl. reflexivity.
  - pose proof (ConvertFacts.of_Z_large z (8 + level) ltac:(lia) ltac:(lia))
      as H.
    destruct (of_Z z) as [| [] | | [] m e]; try contradiction.
    + reflexivity.
    + unfold leb, SFleb. cbn.
      destruct (Z.compare_spec (level - 45) e); try lia; reflexivity.
Qed.

Lemma clip_clamp (arch : GoArch) (level z : Z) :
  0 <= level <= 23 ->
  clip (of_Z z) (of_Z 0) (of_Z (Go.uint_sub arch (MapSize arch level) 1))
  = clip (of_Z (clamp (MapSize arch level - 1) z)) (of_Z 0)
      (of_Z (Go.uint_sub arch (MapSize arch level) 1)).
Proof.
  intros Hl.
  destruct (map_limit arch level Hl) as (-> & EM & _).
  assert (H0 : 0 < MapSize arch level - 1).
  { rewrite EM.
    assert (2 ^ 8 <= 2 ^ (8 + level)) by (apply Z.pow_le_mono_r; lia).
    change (2 ^ 8) with 256 in *. lia. }
  unfold clamp.
  destruct (Z.le_gt_cases z 0) as [Hz|Hz].
  - rewrite Z.max_r, Z.min_l by lia. apply clip_negative. assumption.
  - rewrite Z.max_l by lia.
    destruct (Z.le_gt_cases (MapSize arch level - 1) z) as [Hb|Hb].
    + rewrite Z.min_r by lia.
      rewrite !clip_beyond by (assumption || lia). reflexivity.
    + rewrite Z.min_l by lia. reflexivity.
Qed.
End ClampFacts.

(** X20: for the levels 0 to 23, [PixelXYToLatLong] gives for a pixel
    outside the map, negative or beyond the size of the map, whatever the
    size of the [int], the result of the nearest pixel of the map: the
    coordinates clamped to [0, MapSize(level) - 1]. *)
Theorem PixelXYToLatLong_clamps (arch : GoArch)
    (math_Atan math_Exp : float64 -> float64) (pixelX pixelY level : Z) :
  0 <= level <= 23 ->
  PixelXYToLatLong arch math_Atan math_Exp pixelX pixelY level
  = PixelXYToLatLong arch math_Atan math_Exp
      (clamp (MapSize arch level - 1) pixelX)
      (clamp (MapSize arch level - 1) pixelY) level.
Proof.
  intros Hl. unfold PixelXYToLatLong. cbv zeta.
  rewrite (ClampFacts.clip_clamp arch level pixelX Hl).
  rewrite (ClampFacts.clip_clamp arch level pixelY Hl).
  reflexivity.
Qed.

Lemma PixelXYToLatLong_clamps_witness :
  PixelXYToLatLong Arch32 (fun x => x) (fun x => x) (-3) (2 ^ 31 - 1) 2
  = PixelXYToLatLong Arch32 (fun x => x) (fun x => x)
      (clamp (MapSize Arch32 2 - 1) (-3))
      (clamp (MapSize Arch32 2 - 1) (2 ^ 31 - 1)) 2.
Proof.
  apply (PixelXYToLatLong_clamps Arch32 (fun x => x) (fun x => x)
           (-3) (2 ^ 31 - 1) 2).
  lia.
Defined.

(** X21: for the levels 0 to 23, the pixel column 0, and every column
    left of it, has the longitude -180 exactly, whatever the row. *)
Theorem PixelXYToLatLong_west_edge (arch : GoArch)
    (math_Atan math_Exp : float64 -> float64) (pixelX pixelY level : Z) :
  0 <= level <= 23 -> pixelX <= 0 ->
  snd (PixelXYToLatLong arch math_Atan math_Exp pixelX pixelY level)
  = F64.of_Z (-180).
Proof.
  intros Hl Hx. unfold PixelXYToLatLong. cbv zeta. cbn [snd].
  rewrite ClampFacts.clip_negative by assumption.
  apply ClipMore.eqb_eq; [|reflexivity].
  apply (PixelFacts.levels_forall
           (fun l =>
              F64.eqb
                (F64.mul (F64.of_Z 360)
                   (F64.sub
                      (F64.div
                         (clip (F64.of_Z 0) (F64.of_Z 0)
                            (F64.of_Z
                               (Go.uint_sub arch (MapSize arch l) 1)))
                         (F64.of_Z (MapSize arch l))) F64.half))
                (F64.of_Z (-180))));
    [destruct arch; vm_compute; reflexivity | assumption].
Qed.

Lemma PixelXYToLatLong_west_edge_witness :
  snd (PixelXYToLatLong Arch64 (fun x => x) (fun x => x) (-9) 77 23)
  = F64.of_Z (-180).
Proof.
  apply (PixelXYToLatLong_west_edge Arch64 (fun x => x) (fun x => x)
           (-9) 77 23); lia.
Defined.

(** ** Operations that are exact *)

Module ExactFacts.
Import F64.

Lemma pow2_pos (k : Z) : 0 <= k -> 0 < 2 ^ k.
Proof. intros H. apply Z.pow_pos_nonneg; lia. Qed.

(** The number of digits of [z] is the [d] with [2^(d-1) <= z < 2^d]. *)
Lemma digits_unique (z d : Z) :
  0 < z -> 2 ^ (d - 1) <= z < 2 ^ d -> Zdigits2 z = d.
Proof.
  intros Hz [Hl Hu].
  pose proof (RoundFacts.Zdigits2_bound z ltac:(lia)) as Bu.
  pose proof (ConvertFacts.Zdigits2_lower z Hz) as Bl.
  pose proof (RoundFacts.Zdigits2_nonneg z) as B0.
  assert (0 < d).
  { destruct (Z.le_gt_cases d 0) as [Hd|Hd]; [|assumption].
    assert (2 ^ d <= 2 ^ 0) by (apply Z.pow_le_mono_r; lia).
    change (2 ^ 0) with 1 in *. lia. }
  assert (d - 1 < Zdigits2 z)
    by (apply (Z.pow_lt_mono_r_iff 2); lia).
  assert (Zdigits2 z - 1 < d)
    by (apply (Z.pow_lt_mono_r_iff 2); lia).
  lia.
Qed.

Lemma digits_shift (z j : Z) :
  0 < z -> 0 <= j -> Zdigits2 (z * 2 ^ j) = Zdigits2 z + j.
Proof.
  intros Hz Hj.
  pose proof (RoundFacts.Zdigits2_bound z ltac:(lia)) as Bu.
  pose proof (ConvertFacts.Zdigits2_lower z Hz) as Bl.
  pose proof (pow2_pos j Hj) as Hp.
  assert (Hd : 0 < Zdigits2 z) by (destruct z; cbn; lia).
  apply digits_unique; [nia|].
  replace (Zdigits2 z + j - 1) with ((Zdigits2 z - 1) + j) by lia.
  rewrite !Z.pow_add_r by lia. nia.
Qed.

Lemma digits_mono (x y : Z) :
  0 < x -> x <= y -> Zdigits2 x <= Zdigits2 y.
Proof.
  intros Hx Hxy.
  pose proof (RoundFacts.Zdigits2_bound y ltac:(lia)) as Bu.
  pose proof (ConvertFacts.Zdigits2_lower x Hx) as Bl.
  pose proof (RoundFacts.Zdigits2_nonneg y).
  assert (Zdigits2 x - 1 < Zdigits2 y); [|lia].
  apply (Z.pow_lt_mono_r_iff 2); lia.
Qed.

Lemma pow2_xO (p : positive) : 2 ^ Zpos p~0 = 2 ^ Zpos p * 2 ^ Zpos p.
Proof. rewrite <- Z.pow_add_r by lia. f_equal. lia. Qed.

Lemma pow2_xI (p : positive) :
  2 ^ Zpos p~1 = 2 * (2 ^ Zpos p * 2 ^ Zpos p).
Proof.
  rewrite <- Z.pow_add_r, <- Z.pow_succ_r by lia. f_equal. lia.
Qed.

Lemma shr_1_even (q : Z) :
  0 <= q ->
  shr_1 {| shr_m := 2 * q; shr_r := false; shr_s := false |}
  = {| shr_m := q; shr_r := false; shr_s := false |}.
Proof. destruct q; intros H; try lia; reflexivity. Qed.

(** Shifting out [p] zero bits leaves nothing to round. *)
Lemma iter_shr_1_exact (p : positive) :
  forall q : Z,
    0 <= q ->
    iter_pos shr_1 p
      {| shr_m := q * 2 ^ Zpos p; shr_r := false; shr_s := false |}
    = {| shr_m := q; shr_r := false; shr_s := false |}.
Proof.
  induction p as [p IH|p IH|]; intros q Hq; cbn [iter_pos].
  - replace (q * 2 ^ Zpos p~1) with (2 * ((q * 2 ^ Zpos p) * 2 ^ Zpos p)).
    + pose proof (pow2_pos (Zpos p) ltac:(lia)).
      rewrite shr_1_even, IH, IH by nia. reflexivity.
    + rewrite pow2_xI. ring.
  - replace (q * 2 ^ Zpos p~0) with ((q * 2 ^ Zpos p) * 2 ^ Zpos p).
    + pose proof (pow2_pos (Zpos p) ltac:(lia)).
      rewrite IH, IH by nia. reflexivity.
    + rewrite pow2_xO. ring.
  - change (2 ^ 1) with 2. replace (q * 2) with (2 * q) by lia.
    apply shr_1_even. assumption.
Qed.

(** [shr_fexp] on a mantissa [N * 2^j] of 53 digits or more, in the
    range of the normal numbers, with nothing to round. *)
Lemma shr_fexp_exact (N j e : Z) :
  0 < N -> 0 <= j -> Zdigits2 N <= 53 -> 53 <= Zdigits2 N + j ->
  -1074 <= e + (Zdigits2 N + j - 53) ->
  shr_fexp prec emax (N * 2 ^ j) e loc_Exact
  = ({| shr_m := N * 2 ^ (53 - Zdigits2 N);
        shr_r := false; shr_s := false |},
     e + (Zdigits2 N + j - 53)).
Proof.
  intros HN Hj Hd Hd' He. unfold shr_fexp, shr.
  rewrite digits_shift by assumption.
  replace (fexp prec emax (Zdigits2 N + j + e) - e)
    with (Zdigits2 N + j - 53)
    by (unfold fexp, emin, prec, emax; lia).
  cbn [shr_record_of_loc].
  destruct (Zdigits2 N + j - 53) as [|p|p] eqn:E; try lia.
  - replace j with (53 - Zdigits2 N) by lia.
    rewrite Z.add_0_r. reflexivity.
  - replace (N * 2 ^ j) with ((N * 2 ^ (53 - Zdigits2 N)) * 2 ^ Zpos p).
    + rewrite iter_shr_1_exact; [reflexivity|].
      pose proof (pow2_pos (53 - Zdigits2 N) ltac:(lia)). nia.
    + rewrite <- Z.mul_assoc, <- Z.pow_add_r by lia. do 2 f_equal. lia.
Qed.

(** Rounding a mantissa [N * 2^j] of 53 digits or more, with [N] of
    at most 53 bits, is exact: it gives the normalized number. *)
Lemma binary_round_aux_exact (s : bool) (N : positive) (j e : Z) :
  0 <= j -> Zpos (digits2_pos N) <= 53 ->
  53 <= Zpos (digits2_pos N) + j ->
  -1000 <= e + j <= 900 ->
  binary_round_aux prec emax s (Zpos N * 2 ^ j) e loc_Exact
  = canon s N (e + j).
Proof.
  intros Hj Hd Hd' He. unfold binary_round_aux.
  set (d := Zpos (digits2_pos N)) in *.
  assert (Ed : Zdigits2 (Zpos N) = d) by reflexivity.
  rewrite (shr_fexp_exact (Zpos N) j e) by (rewrite ?Ed; lia).
  cbn [shr_m loc_of_shr_record round_nearest_even]. rewrite Ed.
  pose proof (shr_fexp_exact (Zpos N) (53 - d) (e + (d + j - 53))) as H2.
  rewrite Ed in H2.
  rewrite H2 by lia. cbn [shr_m].
  replace (e + (d + j - 53) + (d + (53 - d) - 53))
    with (e + j - (53 - d)) by lia.
  pose proof (pow2_pos (53 - d) ltac:(lia)) as Hp.
  destruct (Zpos N * 2 ^ (53 - d)) as [|m|m] eqn:Em; try lia.
  destruct (Z.leb_spec (e + j - (53 - d)) (emax - prec));
    [|unfold emax, prec in *; lia].
  unfold canon. cbv zeta. fold d. rewrite Em. reflexivity.
Qed.
Lemma iter_xO_pow2 (m q : positive) :
  Zpos (Pos.iter xO m q) = Zpos m * 2 ^ Zpos q.
Proof.
  induction q as [|q IH] using Pos.peano_ind.
  - cbn [Pos.iter]. rewrite Pos2Z.inj_xO. change (2 ^ 1) with 2. lia.
  - rewrite Pos.iter_succ, Pos2Z.inj_xO, IH, Pos2Z.inj_succ.
    rewrite Z.pow_succ_r by lia. ring.
Qed.

Lemma shl_align_fst (m : positive) (e ez : Z) :
  ez <= e -> Zpos (fst (shl_align m e ez)) = Zpos m * 2 ^ (e - ez).
Proof.
  intros H. unfold shl_align.
  destruct (ez - e) as [|d|d] eqn:E; cbn [fst]; try lia.
  - replace (e - ez) with 0 by lia. lia.
  - rewrite iter_xO_pow2. do 2 f_equal. lia.
Qed.

(** Rounding an integer [N * 2^j] with [N] of at most 53 bits is exact,
    however many digits it has. *)
Lemma binary_round_exact (s : bool) (M N : positive) (j e : Z) :
  Zpos M = Zpos N * 2 ^ j -> 0 <= j -> Zpos (digits2_pos N) <= 53 ->
  -1000 <= e + j <= 900 ->
  binary_round prec emax s M e = canon s N (e + j).
Proof.
  intros EM Hj Hd He. unfold binary_round, shl_align.
  assert (Ed : Zpos (digits2_pos M) = Zpos (digits2_pos N) + j).
  { change (Zpos (digits2_pos M)) with (Zdigits2 (Zpos M)).
    rewrite EM, digits_shift by lia. reflexivity. }
  set (d := Zpos (digits2_pos N)) in *.
  assert (Hd0 : 0 < d) by (unfold d; lia).
  replace (fexp prec emax (Zpos (digits2_pos M) + e) - e)
    with (d + j - 53)
    by (rewrite Ed; unfold fexp, emin, prec, emax; lia).
  destruct (d + j - 53) as [|q|q] eqn:E; subst d.
  - rewrite EM. apply binary_round_aux_exact; lia.
  - rewrite EM. apply binary_round_aux_exact; lia.
  - rewrite iter_xO_pow2, EM, <- Z.mul_assoc, <- Z.pow_add_r by lia.
    replace (fexp prec emax (Zpos (digits2_pos M) + e))
      with (e - Zpos q)
      by (rewrite Ed; unfold fexp, emin, prec, emax; lia).
    replace (e + j) with ((e - Zpos q) + (j + Zpos q)) by lia.
    apply binary_round_aux_exact; lia.
Qed.

Lemma digits_53 (N : positive) :
  Zpos N < 2 ^ 53 -> Zpos (digits2_pos N) <= 53.
Proof.
  intros H.
  pose proof (ConvertFacts.Zdigits2_lower (Zpos N) ltac:(lia)) as Hl.
  cbn [Zdigits2] in Hl.
  assert (Zpos (digits2_pos N) - 1 < 53); [|lia].
  apply (Z.pow_lt_mono_r_iff 2); lia.
Qed.

Lemma binary_normalize_exact (z j e : Z) :
  Z.abs z < 2 ^ 53 -> 0 <= j -> -1000 <= e + j <= 900 ->
  binary_normalize prec emax (z * 2 ^ j) e false = dyadic z (e + j).
Proof.
  intros Hz Hj He. pose proof (pow2_pos j Hj) as Hp.
  destruct z as [|N|N]; [reflexivity| |].
  - destruct (Zpos N * 2 ^ j) as [|M|M] eqn:EM; try lia.
    cbn [binary_normalize dyadic].
    apply binary_round_exact; [lia | assumption | | assumption].
    apply digits_53. lia.
  - destruct (Zneg N * 2 ^ j) as [|M|M] eqn:EM; try lia.
    cbn [binary_normalize dyadic].
    apply binary_round_exact; [lia | assumption | | assumption].
    apply digits_53. lia.
Qed.

(** The conversion of an integer of at most 53 bits is exact. *)
Lemma of_Z_dyadic (z : Z) : Z.abs z < 2 ^ 53 -> of_Z z = dyadic z 0.
Proof.
  intros Hz. unfold of_Z.
  replace z with (z * 2 ^ 0) at 1 by (change (2 ^ 0) with 1; lia).
  apply binary_normalize_exact; lia.
Qed.

(** The mantissa of a normalized number has 53 digits. *)
Lemma canon_mantissa (N : positive) :
  Zpos N < 2 ^ 53 ->
  let a := 53 - Zpos (digits2_pos N) in
  0 <= a
  /\ Zpos (Z.to_pos (Zpos N * 2 ^ a)) = Zpos N * 2 ^ a
  /\ Zpos (digits2_pos (Z.to_pos (Zpos N * 2 ^ a))) = 53
  /\ 2 ^ 52 <= Zpos N * 2 ^ a < 2 ^ 53.
Proof.
  intros H. cbv zeta. pose proof (digits_53 N H) as Hd.
  set (a := 53 - Zpos (digits2_pos N)).
  assert (Ha : 0 <= a) by (unfold a; lia).
  pose proof (pow2_pos a Ha) as Hp.
  assert (E : Zpos (Z.to_pos (Zpos N * 2 ^ a)) = Zpos N * 2 ^ a)
    by (apply Z2Pos.id; nia).
  assert (D : Zdigits2 (Zpos N * 2 ^ a) = 53).
  { rewrite digits_shift by lia. cbn [Zdigits2]. unfold a. lia. }
  split; [assumption|]. split; [assumption|]. split.
  - change (Zpos (digits2_pos (Z.to_pos (Zpos N * 2 ^ a))))
      with (Zdigits2 (Zpos (Z.to_pos (Zpos N * 2 ^ a)))).
    rewrite E. exact D.
  - pose proof (RoundFacts.Zdigits2_bound (Zpos N * 2 ^ a) ltac:(nia)) as Bu.
    pose proof (ConvertFacts.Zdigits2_lower (Zpos N * 2 ^ a) ltac:(nia))
      as Bl.
    rewrite D in Bu, Bl. change (53 - 1) with 52 in Bl. lia.
Qed.

(** The same number written with another exponent. *)
Lemma dyadic_shift (z i k : Z) :
  0 <= i -> Z.abs (z * 2 ^ i) < 2 ^ 53 ->
  dyadic (z * 2 ^ i) k = dyadic z (k + i).
Proof.
  intros Hi Hz. pose proof (pow2_pos i Hi) as Hp.
  assert (Hs : forall (s : bool) (N M : positive),
             Zpos M = Zpos N * 2 ^ i -> Zpos M < 2 ^ 53 ->
             canon s M k = canon s N (k + i)).
  { intros s N M EM HM. unfold canon. cbv zeta.
    assert (Ed : Zpos (digits2_pos M) = Zpos (digits2_pos N) + i).
    { change (Zpos (digits2_pos M)) with (Zdigits2 (Zpos M)).
      rewrite EM, digits_shift by lia. reflexivity. }
    pose proof (digits_53 M HM) as Hd.
    rewrite Ed. f_equal; [|lia].
    f_equal. rewrite EM, <- Z.mul_assoc, <- Z.pow_add_r by lia.
    do 2 f_equal. lia. }
  destruct z as [|N|N]; [reflexivity| |].
  - destruct (Zpos N * 2 ^ i) as [|M|M] eqn:EM; try lia.
    cbn [dyadic]. apply Hs; lia.
  - destruct (Zneg N * 2 ^ i) as [|M|M] eqn:EM; try lia.
    cbn [dyadic]. apply Hs; lia.
Qed.
Lemma cond_Zopp_mul (s : bool) (x y : Z) :
  cond_Zopp s x * y = cond_Zopp s (x * y).
Proof. destruct s; cbn; lia. Qed.

Lemma dyadic_cond_Zopp (s : bool) (N : positive) (k : Z) :
  dyadic (cond_Zopp s (Zpos N)) k = canon s N k.
Proof. destruct s; reflexivity. Qed.

Lemma abs_cond_Zopp (s : bool) (N : positive) :
  Z.abs (cond_Zopp s (Zpos N)) = Zpos N.
Proof. destruct s; reflexivity. Qed.

(** The aligned mantissas that [SFadd] and [SFsub] add. *)
Lemma aligned_sum (s1 s2 : bool) (N1 N2 : positive) (k1 k2 : Z) :
  Zpos N1 < 2 ^ 53 -> Zpos N2 < 2 ^ 53 ->
  let a1 := 53 - Zpos (digits2_pos N1) in
  let a2 := 53 - Zpos (digits2_pos N2) in
  let ez := Z.min (k1 - a1) (k2 - a2) in
  let k := Z.min k1 k2 in
  0 <= k - ez
  /\ cond_Zopp s1
       (Zpos (fst (shl_align (Z.to_pos (Zpos N1 * 2 ^ a1)) (k1 - a1) ez)))
     = cond_Zopp s1 (Zpos N1) * 2 ^ (k1 - k) * 2 ^ (k - ez)
  /\ cond_Zopp s2
       (Zpos (fst (shl_align (Z.to_pos (Zpos N2 * 2 ^ a2)) (k2 - a2) ez)))
     = cond_Zopp s2 (Zpos N2) * 2 ^ (k2 - k) * 2 ^ (k - ez).
Proof.
  intros H1 H2. cbv zeta.
  destruct (canon_mantissa N1 H1) as (A1 & E1 & _).
  destruct (canon_mantissa N2 H2) as (A2 & E2 & _).
  cbv zeta in *.
  set (a1 := 53 - Zpos (digits2_pos N1)) in *.
  set (a2 := 53 - Zpos (digits2_pos N2)) in *.
  set (ez := Z.min (k1 - a1) (k2 - a2)).
  set (k := Z.min k1 k2).
  assert (Hk : 0 <= k - ez) by (unfold k, ez; lia).
  split; [exact Hk|].
  rewrite !shl_align_fst by (unfold ez; lia). rewrite E1, E2.
  rewrite !cond_Zopp_mul, <- !Z.mul_assoc.
  rewrite <- !Z.pow_add_r by (unfold k, ez in *; lia).
  split; do 3 f_equal; unfold k, ez; lia.
Qed.

(** The sum of two numbers written with at most 53 bits, when it can be
    written so itself, is exact. *)
Lemma add_dyadic (z1 k1 z2 k2 : Z) :
  Z.abs z1 < 2 ^ 53 -> Z.abs z2 < 2 ^ 53 ->
  -900 <= k1 <= 900 -> -900 <= k2 <= 900 ->
  let k := Z.min k1 k2 in
  let z := z1 * 2 ^ (k1 - k) + z2 * 2 ^ (k2 - k) in
  Z.abs z < 2 ^ 53 ->
  add (dyadic z1 k1) (dyadic z2 k2) = dyadic z k.
Proof.
  intros H1 H2 K1 K2. cbv zeta. intros Hz.
  set (k := Z.min k1 k2) in *.
  assert (F : forall (s1 s2 : bool) (N1 N2 : positive),
             z1 = cond_Zopp s1 (Zpos N1) -> z2 = cond_Zopp s2 (Zpos N2) ->
             add (canon s1 N1 k1) (canon s2 N2 k2)
             = dyadic (z1 * 2 ^ (k1 - k) + z2 * 2 ^ (k2 - k)) k).
  { intros s1 s2 N1 N2 -> ->.
    rewrite abs_cond_Zopp in H1, H2.
    destruct (aligned_sum s1 s2 N1 N2 k1 k2 H1 H2) as (Hk & A1 & A2).
    cbv zeta in Hk, A1, A2. fold k in Hk, A1, A2.
    unfold add, SFadd, canon. cbv zeta.
    rewrite A1, A2, <- Z.mul_add_distr_r.
    set (ez := Z.min (k1 - (53 - Zpos (digits2_pos N1)))
                 (k2 - (53 - Zpos (digits2_pos N2)))) in *.
    rewrite binary_normalize_exact by (assumption || lia).
    f_equal. lia. }
  assert (Hk1 : 0 <= k1 - k) by (unfold k; lia).
  assert (Hk2 : 0 <= k2 - k) by (unfold k; lia).
  destruct z1 as [|N1|N1], z2 as [|N2|N2]; cbn [dyadic];
    try (apply (F false false); reflexivity);
    try (apply (F false true); reflexivity);
    try (apply (F true false); reflexivity);
    try (apply (F true true); reflexivity);
    try reflexivity;
    rewrite ?Z.mul_0_l, ?Z.add_0_l, ?Z.add_0_r in *;
    rewrite dyadic_shift by assumption; cbn [dyadic];
    unfold add, SFadd, canon; cbv beta iota zeta; f_equal; lia.
Qed.
(** The difference of two numbers written with at most 53 bits, when it
    can be written so itself, is exact. *)
Lemma sub_dyadic (z1 k1 z2 k2 : Z) :
  Z.abs z1 < 2 ^ 53 -> Z.abs z2 < 2 ^ 53 ->
  -900 <= k1 <= 900 -> -900 <= k2 <= 900 ->
  let k := Z.min k1 k2 in
  let z := z1 * 2 ^ (k1 - k) - z2 * 2 ^ (k2 - k) in
  Z.abs z < 2 ^ 53 ->
  sub (dyadic z1 k1) (dyadic z2 k2) = dyadic z k.
Proof.
  intros H1 H2 K1 K2. cbv zeta. intros Hz.
  set (k := Z.min k1 k2) in *.
  assert (F : forall (s1 s2 : bool) (N1 N2 : positive),
             z1 = cond_Zopp s1 (Zpos N1) -> z2 = cond_Zopp s2 (Zpos N2) ->
             sub (canon s1 N1 k1) (canon s2 N2 k2)
             = dyadic (z1 * 2 ^ (k1 - k) - z2 * 2 ^ (k2 - k)) k).
  { intros s1 s2 N1 N2 -> ->.
    rewrite abs_cond_Zopp in H1, H2.
    destruct (aligned_sum s1 s2 N1 N2 k1 k2 H1 H2) as (Hk & A1 & A2).
    cbv zeta in Hk, A1, A2. fold k in Hk, A1, A2.
    unfold sub, SFsub, canon. cbv zeta.
    rewrite A1, A2, <- Z.mul_sub_distr_r.
    rewrite binary_normalize_exact by (assumption || lia).
    f_equal. lia. }
  assert (Hk1 : 0 <= k1 - k) by (unfold k; lia).
  assert (Hk2 : 0 <= k2 - k) by (unfold k; lia).
  destruct z1 as [|N1|N1], z2 as [|N2|N2]; cbn [dyadic];
    try (apply (F false false); reflexivity);
    try (apply (F false true); reflexivity);
    try (apply (F true false); reflexivity);
    try (apply (F true true); reflexivity);
    try reflexivity.
  - replace (0 * 2 ^ (k1 - k) - Zpos N2 * 2 ^ (k2 - k))
      with (Zneg N2 * 2 ^ (k2 - k)) in * by lia.
    rewrite dyadic_shift by assumption. cbn [dyadic].
    unfold sub, SFsub, canon. cbv beta iota zeta. cbn [negb].
    f_equal. lia.
  - replace (0 * 2 ^ (k1 - k) - Zneg N2 * 2 ^ (k2 - k))
      with (Zpos N2 * 2 ^ (k2 - k)) in * by lia.
    rewrite dyadic_shift by assumption. cbn [dyadic].
    unfold sub, SFsub, canon. cbv beta iota zeta. cbn [negb].
    f_equal. lia.
  - rewrite Z.mul_0_l, Z.sub_0_r in *.
    rewrite dyadic_shift by assumption. cbn [dyadic].
    unfold sub, SFsub, canon. cbv beta iota zeta. f_equal. lia.
  - rewrite Z.mul_0_l, Z.sub_0_r in *.
    rewrite dyadic_shift by assumption. cbn [dyadic].
    unfold sub, SFsub, canon. cbv beta iota zeta. f_equal. lia.
Qed.

Lemma digits_mul_lower (x y : Z) :
  0 < x -> 0 < y -> Zdigits2 x + Zdigits2 y - 1 <= Zdigits2 (x * y).
Proof.
  intros Hx Hy.
  pose proof (ConvertFacts.Zdigits2_lower x Hx) as Lx.
  pose proof (ConvertFacts.Zdigits2_lower y Hy) as Ly.
  pose proof (RoundFacts.Zdigits2_bound (x * y) ltac:(nia)) as B.
  assert (0 < Zdigits2 x) by (destruct x; cbn; lia).
  assert (0 < Zdigits2 y) by (destruct y; cbn; lia).
  assert (L : 2 ^ (Zdigits2 x - 1 + (Zdigits2 y - 1)) <= x * y).
  { rewrite Z.pow_add_r by lia.
    pose proof (pow2_pos (Zdigits2 x - 1) ltac:(lia)).
    pose proof (pow2_pos (Zdigits2 y - 1) ltac:(lia)). nia. }
  pose proof (RoundFacts.Zdigits2_nonneg (x * y)).
  assert (Zdigits2 x - 1 + (Zdigits2 y - 1) < Zdigits2 (x * y)); [|lia].
  apply (Z.pow_lt_mono_r_iff 2); lia.
Qed.

Lemma mul_canon (s1 s2 : bool) (N1 N2 : positive) (k1 k2 : Z) :
  Zpos N1 * Zpos N2 < 2 ^ 53 ->
  -450 <= k1 <= 450 -> -450 <= k2 <= 450 ->
  mul (canon s1 N1 k1) (canon s2 N2 k2)
  = canon (xorb s1 s2) (N1 * N2) (k1 + k2).
Proof.
  intros H K1 K2.
  assert (H1 : Zpos N1 < 2 ^ 53) by nia.
  assert (H2 : Zpos N2 < 2 ^ 53) by nia.
  destruct (canon_mantissa N1 H1) as (A1 & E1 & _).
  destruct (canon_mantissa N2 H2) as (A2 & E2 & _).
  cbv zeta in *.
  set (rhs := canon (xorb s1 s2) (N1 * N2) (k1 + k2)).
  unfold mul, SFmul, canon. cbv beta iota zeta. subst rhs.
  rewrite Pos2Z.inj_mul, E1, E2.
  set (a1 := 53 - Zpos (digits2_pos N1)) in *.
  set (a2 := 53 - Zpos (digits2_pos N2)) in *.
  replace (Zpos N1 * 2 ^ a1 * (Zpos N2 * 2 ^ a2))
    with (Zpos (N1 * N2) * 2 ^ (a1 + a2))
    by (rewrite Pos2Z.inj_mul, Z.pow_add_r by lia; ring).
  pose proof (digits_mul_lower (Zpos N1) (Zpos N2) ltac:(lia) ltac:(lia))
    as L.
  rewrite <- Pos2Z.inj_mul in L. cbn [Zdigits2] in L.
  rewrite binary_round_aux_exact.
  - f_equal. subst a1 a2. lia.
  - lia.
  - apply digits_53. rewrite Pos2Z.inj_mul. assumption.
  - subst a1 a2. lia.
  - subst a1 a2. lia.
Qed.

(** The product of two numbers is exact when it can be written with at
    most 53 bits. *)
Lemma mul_dyadic (z1 k1 z2 k2 : Z) :
  Z.abs (z1 * z2) < 2 ^ 53 ->
  -450 <= k1 <= 450 -> -450 <= k2 <= 450 ->
  (z1 = 0 -> 0 <= z2) -> (z2 = 0 -> 0 <= z1) ->
  mul (dyadic z1 k1) (dyadic z2 k2) = dyadic (z1 * z2) (k1 + k2).
Proof.
  intros H K1 K2 Z1 Z2.
  destruct z1 as [|N1|N1], z2 as [|N2|N2]; cbn [dyadic Z.mul];
    try reflexivity; try (specialize (Z1 eq_refl); lia);
    try (specialize (Z2 eq_refl); lia);
    try (apply mul_canon; assumption || lia).
Qed.

Lemma div_eucl_exact (x b : Z) : 0 < b -> Z.div_eucl (x * b) b = (x, 0).
Proof.
  intros Hb.
  pose proof (Z.div_mul x b ltac:(lia)) as Hq.
  pose proof (Z.mod_mul x b ltac:(lia)) as Hr.
  unfold Z.div, Z.modulo in Hq, Hr.
  destruct (Z.div_eucl (x * b) b) as [q r]. congruence.
Qed.

(** The quotient of two numbers is exact when the integer of the one
    divides the integer of the other. *)
Lemma div_dyadic (q z2 k1 k2 : Z) :
  0 <= q -> 0 < z2 -> q * z2 < 2 ^ 53 ->
  -450 <= k1 <= 450 -> -450 <= k2 <= 450 ->
  div (dyadic (q * z2) k1) (dyadic z2 k2) = dyadic q (k1 - k2).
Proof.
  intros Hq Hz H K1 K2.
  destruct z2 as [|N2|N2]; try lia.
  destruct q as [|Q|Q]; try lia; [reflexivity|].
  cbn [Z.mul dyadic].
  assert (H1 : Zpos (Q * N2) < 2 ^ 53) by (rewrite Pos2Z.inj_mul; lia).
  assert (H2 : Zpos N2 < 2 ^ 53) by nia.
  assert (HQ : Zpos Q < 2 ^ 53) by nia.
  destruct (canon_mantissa (Q * N2) H1) as (A1 & E1 & D1 & B1).
  destruct (canon_mantissa N2 H2) as (A2 & E2 & D2 & B2).
  cbv zeta in *.
  set (rhs := canon false Q (k1 - k2)).
  unfold div, SFdiv, SFdiv_core_binary, canon. cbv beta iota zeta.
  subst rhs. cbn [Zdigits2 xorb]. rewrite D1, D2.
  set (a1 := 53 - Zpos (digits2_pos (Q * N2))) in *.
  set (a2 := 53 - Zpos (digits2_pos N2)) in *.
  set (e1 := k1 - a1). set (e2 := k2 - a2).
  replace (Z.min (fexp prec emax (53 + e1 - (53 + e2))) (e1 - e2))
    with (e1 - e2 - 53)
    by (unfold fexp, emin, prec, emax, e1, e2; lia).
  replace (e1 - e2 - (e1 - e2 - 53)) with 53 by lia.
  cbv iota. rewrite Z.shiftl_mul_pow2, E1, E2 by lia.
  replace (Zpos (Q * N2) * 2 ^ a1 * 2 ^ 53)
    with ((Zpos Q * 2 ^ (53 + a1 - a2)) * (Zpos N2 * 2 ^ a2)).
  2:{ rewrite Pos2Z.inj_mul.
      replace (2 ^ (53 + a1 - a2) ) with (2 ^ (53 + a1 - a2)) by reflexivity.
      assert (E : 2 ^ (53 + a1 - a2) * 2 ^ a2 = 2 ^ a1 * 2 ^ 53).
      { rewrite <- !Z.pow_add_r by lia. f_equal. lia. }
      nia. }
  rewrite div_eucl_exact by lia.
  assert (EL : new_location (Zpos N2 * 2 ^ a2) 0 = loc_Exact).
  { unfold new_location, new_location_even, new_location_odd.
    destruct (Z.even _); reflexivity. }
  rewrite EL.
  assert (L : 2 ^ 52 <= Zpos Q * 2 ^ (53 + a1 - a2)).
  { assert (E : 2 ^ (53 + a1 - a2) * 2 ^ a2 = 2 ^ a1 * 2 ^ 53).
    { rewrite <- !Z.pow_add_r by lia. f_equal. lia. }
    rewrite Pos2Z.inj_mul in B1.
    change (2 ^ 53) with (2 * 2 ^ 52) in *.
    pose proof (pow2_pos (53 + a1 - a2) ltac:(lia)).
    nia. }
  assert (Dq : 53 <= Zpos (digits2_pos Q) + (53 + a1 - a2)).
  { pose proof (digits_shift (Zpos Q) (53 + a1 - a2) ltac:(lia) ltac:(lia))
      as Ds.
    cbn [Zdigits2] in Ds. rewrite <- Ds.
    pose proof (digits_mono (2 ^ 52) (Zpos Q * 2 ^ (53 + a1 - a2))
                  ltac:(lia) L) as Dm.
    change (Zdigits2 (2 ^ 52)) with 53 in Dm. exact Dm. }
  rewrite binary_round_aux_exact.
  - f_equal. unfold e1, e2. lia.
  - lia.
  - apply digits_53. assumption.
  - exact Dq.
  - unfold e1, e2. lia.
Qed.
Lemma compare_canon (N1 N2 : positive) (k : Z) :
  Zpos N1 < 2 ^ 53 -> Zpos N2 < 2 ^ 53 ->
  SFcompare (canon false N1 k) (canon false N2 k)
  = Some (Pos.compare N1 N2).
Proof.
  intros H1 H2.
  destruct (canon_mantissa N1 H1) as (A1 & E1 & _).
  destruct (canon_mantissa N2 H2) as (A2 & E2 & _).
  cbv zeta in *. unfold canon. cbv zeta. cbn [SFcompare].
  set (a1 := 53 - Zpos (digits2_pos N1)) in *.
  set (a2 := 53 - Zpos (digits2_pos N2)) in *.
  change (Pos.compare_cont Eq ?x ?y) with (Pos.compare x y).
  f_equal.
  destruct (Pos.compare_spec N1 N2) as [E|L|G].
  - subst N2. rewrite Z.compare_refl, Pos.compare_refl. reflexivity.
  - pose proof (digits_mono (Zpos N1) (Zpos N2) ltac:(lia) ltac:(lia)) as D.
    cbn [Zdigits2] in D.
    destruct (Z.compare_spec (k - a1) (k - a2)) as [Ee|Le|Ge];
      [|reflexivity|subst a1 a2; lia].
    apply Pos.compare_lt_iff.
    enough (Zpos (Z.to_pos (Zpos N1 * 2 ^ a1))
            < Zpos (Z.to_pos (Zpos N2 * 2 ^ a2))) by lia.
    rewrite E1, E2. replace a2 with a1 by lia.
    pose proof (pow2_pos a1 A1). nia.
  - pose proof (digits_mono (Zpos N2) (Zpos N1) ltac:(lia) ltac:(lia)) as D.
    cbn [Zdigits2] in D.
    destruct (Z.compare_spec (k - a1) (k - a2)) as [Ee|Le|Ge];
      [|subst a1 a2; lia|reflexivity].
    apply Pos.compare_gt_iff.
    enough (Zpos (Z.to_pos (Zpos N2 * 2 ^ a2))
            < Zpos (Z.to_pos (Zpos N1 * 2 ^ a1))) by lia.
    rewrite E1, E2. replace a2 with a1 by lia.
    pose proof (pow2_pos a1 A1). nia.
Qed.

Lemma compare_negative (m1 m2 : positive) (e1 e2 : Z) :
  SFcompare (S754_finite true m1 e1) (S754_finite true m2 e2)
  = option_map CompOpp
      (SFcompare (S754_finite false m1 e1) (S754_finite false m2 e2)).
Proof. cbn. destruct (Z.compare e1 e2); reflexivity. Qed.

(** Numbers written with the same exponent compare as their integers. *)
Lemma compare_dyadic (z1 z2 k : Z) :
  Z.abs z1 < 2 ^ 53 -> Z.abs z2 < 2 ^ 53 ->
  SFcompare (dyadic z1 k) (dyadic z2 k) = Some (Z.compare z1 z2).
Proof.
  intros H1 H2.
  destruct z1 as [|N1|N1], z2 as [|N2|N2]; cbn [dyadic Z.compare];
    try reflexivity.
  - apply compare_canon; lia.
  - unfold canon. cbv zeta. rewrite compare_negative.
    pose proof (compare_canon N1 N2 k ltac:(lia) ltac:(lia)) as C.
    unfold canon in C. cbv zeta in C. rewrite C. reflexivity.
Qed.

Lemma leb_dyadic (z1 z2 k : Z) :
  Z.abs z1 < 2 ^ 53 -> Z.abs z2 < 2 ^ 53 -> z1 <= z2 ->
  leb (dyadic z1 k) (dyadic z2 k) = true.
Proof.
  intros H1 H2 H. unfold leb, SFleb. rewrite compare_dyadic by assumption.
  destruct (Z.compare_spec z1 z2); try reflexivity. lia.
Qed.

Lemma ltb_dyadic (z1 z2 k : Z) :
  Z.abs z1 < 2 ^ 53 -> Z.abs z2 < 2 ^ 53 -> z1 < z2 ->
  ltb (dyadic z1 k) (dyadic z2 k) = true.
Proof.
  intros H1 H2 H. unfold ltb, SFltb. rewrite compare_dyadic by assumption.
  destruct (Z.compare_spec z1 z2); try reflexivity; lia.
Qed.

Lemma dyadic_nonzero (z k : Z) :
  z <> 0 -> eqb (dyadic z k) (S754_zero false) = false.
Proof. destruct z as [|N|N]; intros H; [contradiction|reflexivity..]. Qed.

(** The integer part of a number that is not negative. *)
Lemma trunc_dyadic (z k : Z) :
  0 <= z -> z < 2 ^ 53 -> trunc (dyadic z k) = Some (Z.shiftl z k).
Proof.
  intros H0 H. destruct z as [|N|N]; try lia.
  - rewrite Z.shiftl_0_l. reflexivity.
  - destruct (canon_mantissa N H) as (A & E & _). cbv zeta in *.
    cbn [dyadic]. unfold canon. cbv zeta. cbn [trunc cond_Zopp].
    rewrite E, <- Z.shiftl_mul_pow2, Z.shiftl_shiftl by assumption.
    do 2 f_equal. lia.
Qed.

(** A number other than a zero that lies between the bounds goes
    through [clip] as it is; so does +0 between a negative and a positive
    bound. *)
Lemma clip_inside (n a b : float64) :
  leb a n = true -> leb n b = true ->
  eqb n (S754_zero false) = false -> clip n a b = n.
Proof.
  intros Han Hnb Hz.
  destruct (ClipFacts.leb_not_NaN a n Han) as [Ha Hn].
  destruct (ClipFacts.leb_not_NaN n b Hnb) as [_ Hb].
  assert (Hm : Max n a = n).
  { rewrite ClipFacts.Max_below by assumption.
    destruct (below n a) eqn:E; [|reflexivity].
    apply ClipMore.eqb_eq; [|assumption].
    apply ClipMore.leb_antisym; auto using ClipMore.below_leb. }
  unfold clip. rewrite Hm, ClipFacts.Min_below by assumption.
  destruct (below n b) eqn:E; [reflexivity|].
  apply ClipMore.eqb_eq; [|assumption].
  apply ClipMore.leb_antisym; [|assumption].
  apply ClipMore.not_below_leb; assumption.
Qed.

Lemma clip_zero_inside (a b : float64) :
  ltb a (S754_zero false) = true -> ltb (S754_zero false) b = true ->
  clip (S754_zero false) a b = S754_zero false.
Proof.
  destruct a as [[]|[]| |[] ma ea], b as [[]|[]| |[] mb eb];
    try discriminate; reflexivity.
Qed.

Lemma clip_zero_low (b : float64) :
  ltb (S754_zero false) b = true ->
  clip (S754_zero false) (S754_zero false) b = S754_zero false.
Proof.
  destruct b as [[]|[]| |[] mb eb]; try discriminate; reflexivity.
Qed.
End ExactFacts.

(** ** The longitude of a pixel column, and back *)

Module LongitudeFacts.
Import F64.

Lemma add_low_high (z1 z2 k i : Z) :
  0 <= i -> Z.abs z1 < 2 ^ 53 -> Z.abs z2 < 2 ^ 53 ->
  Z.abs (z1 + z2 * 2 ^ i) < 2 ^ 53 -> -900 <= k -> k + i <= 900 ->
  add (dyadic z1 k) (dyadic z2 (k + i)) = dyadic (z1 + z2 * 2 ^ i) k.
Proof.
  intros Hi H1 H2 H Hk Hki.
  pose proof (ExactFacts.add_dyadic z1 k z2 (k + i) H1 H2
                ltac:(lia) ltac:(lia)) as S.
  cbv zeta in S. rewrite Z.min_l in S by lia.
  replace (k - k) with 0 in S by lia.
  replace (k + i - k) with i in S by lia.
  change (2 ^ 0) with 1 in S. rewrite Z.mul_1_r in S. apply S, H.
Qed.

Lemma add_high_low (z1 z2 k i : Z) :
  0 <= i -> Z.abs z1 < 2 ^ 53 -> Z.abs z2 < 2 ^ 53 ->
  Z.abs (z1 * 2 ^ i + z2) < 2 ^ 53 -> -900 <= k -> k + i <= 900 ->
  add (dyadic z1 (k + i)) (dyadic z2 k) = dyadic (z1 * 2 ^ i + z2) k.
Proof.
  intros Hi H1 H2 H Hk Hki.
  pose proof (ExactFacts.add_dyadic z1 (k + i) z2 k H1 H2
                ltac:(lia) ltac:(lia)) as S.
  cbv zeta in S. rewrite Z.min_r in S by lia.
  replace (k - k) with 0 in S by lia.
  replace (k + i - k) with i in S by lia.
  change (2 ^ 0) with 1 in S. rewrite Z.mul_1_r in S. apply S, H.
Qed.

Lemma sub_low_high (z1 z2 k i : Z) :
  0 <= i -> Z.abs z1 < 2 ^ 53 -> Z.abs z2 < 2 ^ 53 ->
  Z.abs (z1 - z2 * 2 ^ i) < 2 ^ 53 -> -900 <= k -> k + i <= 900 ->
  sub (dyadic z1 k) (dyadic z2 (k + i)) = dyadic (z1 - z2 * 2 ^ i) k.
Proof.
  intros Hi H1 H2 H Hk Hki.
  pose proof (ExactFacts.sub_dyadic z1 k z2 (k + i) H1 H2
                ltac:(lia) ltac:(lia)) as S.
  cbv zeta in S. rewrite Z.min_l in S by lia.
  replace (k - k) with 0 in S by lia.
  replace (k + i - k) with i in S by lia.
  change (2 ^ 0) with 1 in S. rewrite Z.mul_1_r in S. apply S, H.
Qed.

(** The powers of 2 of the map, for the levels 0 to 23. *)
Lemma map_powers (level : Z) :
  0 <= level <= 23 ->
  2 ^ (8 + level) = 2 * 2 ^ (7 + level)
  /\ 128 <= 2 ^ (7 + level) <= 2 ^ 30.
Proof.
  intros Hl. split.
  - rewrite <- Z.pow_succ_r by lia. f_equal. lia.
  - split.
    + change 128 with (2 ^ 7). apply Z.pow_le_mono_r; lia.
    + apply Z.pow_le_mono_r; lia.
Qed.

Lemma of_Z_map_size (level : Z) :
  0 <= level <= 23 -> of_Z (2 ^ (8 + level)) = dyadic 1 (8 + level).
Proof.
  intros Hl. destruct (map_powers level Hl) as [E B].
  rewrite ExactFacts.of_Z_dyadic by lia.
  rewrite <- (Z.mul_1_l (2 ^ (8 + level))).
  rewrite ExactFacts.dyadic_shift by lia. reflexivity.
Qed.

(** The pixel column, clipped to the map and divided by the size of the
    map: the fraction is exact. *)
Lemma column_fraction (level px : Z) :
  0 <= level <= 23 -> 0 <= px <= 2 ^ (8 + level) - 1 ->
  div (clip (of_Z px) (of_Z 0) (of_Z (2 ^ (8 + level) - 1)))
      (of_Z (2 ^ (8 + level)))
  = dyadic px (- (8 + level)).
Proof.
  intros Hl Hpx. destruct (map_powers level Hl) as [E B].
  rewrite of_Z_map_size by assumption.
  rewrite (ExactFacts.of_Z_dyadic px), (ExactFacts.of_Z_dyadic (_ - 1))
    by lia.
  change (of_Z 0) with (dyadic 0 0).
  assert (C : clip (dyadic px 0) (dyadic 0 0) (dyadic (2 ^ (8 + level) - 1) 0)
              = dyadic px 0).
  { destruct (Z.eq_dec px 0) as [->|Hn].
    - apply ExactFacts.clip_zero_low.
      change (S754_zero false) with (dyadic 0 0).
      apply ExactFacts.ltb_dyadic; lia.
    - apply ExactFacts.clip_inside.
      + apply ExactFacts.leb_dyadic; lia.
      + apply ExactFacts.leb_dyadic; lia.
      + apply ExactFacts.dyadic_nonzero. assumption. }
  rewrite C. rewrite <- (Z.mul_1_r px) at 1.
  rewrite ExactFacts.div_dyadic by lia. f_equal.
Qed.

(** The longitude that [PixelXYToLatLong] computes for a column of the
    map has no rounding error. *)
Lemma longitude_of_column (level px : Z) :
  0 <= level <= 23 -> 0 <= px <= 2 ^ (8 + level) - 1 ->
  mul (of_Z 360)
    (sub
       (div (clip (of_Z px) (of_Z 0) (of_Z (2 ^ (8 + level) - 1)))
            (of_Z (2 ^ (8 + level))))
       half)
  = dyadic (360 * px - 180 * 2 ^ (8 + level)) (- (8 + level)).
Proof.
  intros Hl Hpx. destruct (map_powers level Hl) as [E B].
  rewrite column_fraction by assumption.
  change half with (dyadic 1 (-1)).
  replace (dyadic 1 (-1)) with (dyadic 1 (- (8 + level) + (7 + level)))
    by (f_equal; lia).
  rewrite sub_low_high by lia.
  rewrite (ExactFacts.of_Z_dyadic 360) by (cbn; lia).
  rewrite ExactFacts.mul_dyadic by lia.
  f_equal. lia.
Qed.

(** The column that [LatLongToPixelXY] computes for such a longitude:
    the value it converts to [int]. *)
Lemma column_of_longitude (level px : Z) :
  0 <= level <= 23 -> 0 <= px <= 2 ^ (8 + level) - 1 ->
  add
    (mul
       (div
          (add
             (clip
                (dyadic (360 * px - 180 * 2 ^ (8 + level)) (- (8 + level)))
                (of_Z MinLongitude) (of_Z MaxLongitude))
             (of_Z 180))
          (of_Z 360))
       (of_Z (2 ^ (8 + level))))
    half
  = dyadic (2 * px + 1) (-1).
Proof.
  intros Hl Hpx. destruct (map_powers level Hl) as [E B].
  set (K := - (8 + level)).
  set (z := 360 * px - 180 * 2 ^ (8 + level)).
  assert (Hz : -180 * 2 ^ (8 + level) <= z < 180 * 2 ^ (8 + level))
    by (unfold z; lia).
  assert (C : clip (dyadic z K) (of_Z MinLongitude) (of_Z MaxLongitude)
              = dyadic z K).
  { destruct (Z.eq_dec z 0) as [->|Hn].
    - apply ExactFacts.clip_zero_inside; reflexivity.
    - assert (Elo : of_Z MinLongitude = dyadic (-180 * 2 ^ (8 + level)) K).
      { change (of_Z MinLongitude) with (dyadic (-180) 0).
        rewrite ExactFacts.dyadic_shift by lia. f_equal. unfold K. lia. }
      assert (Ehi : of_Z MaxLongitude = dyadic (180 * 2 ^ (8 + level)) K).
      { change (of_Z MaxLongitude) with (dyadic 180 0).
        rewrite ExactFacts.dyadic_shift by lia. f_equal. unfold K. lia. }
      rewrite Elo, Ehi. apply ExactFacts.clip_inside.
      + apply ExactFacts.leb_dyadic; lia.
      + apply ExactFacts.leb_dyadic; lia.
      + apply ExactFacts.dyadic_nonzero. assumption. }
  rewrite C.
  change (of_Z 180) with (dyadic 180 0).
  replace (dyadic 180 0) with (dyadic 180 (K + (8 + level)))
    by (f_equal; unfold K; lia).
  rewrite add_low_high by (unfold K; lia).
  replace (z + 180 * 2 ^ (8 + level)) with (px * 360) by (unfold z; lia).
  rewrite (ExactFacts.of_Z_dyadic 360) by (cbn; lia).
  rewrite ExactFacts.div_dyadic by (unfold K; lia).
  rewrite of_Z_map_size by assumption.
  rewrite ExactFacts.mul_dyadic by (unfold K; lia).
  replace (K - 0 + (8 + level)) with (-1 + 1) by (unfold K; lia).
  change half with (dyadic 1 (-1)).
  rewrite (add_high_low (px * 1) 1 (-1) 1) by lia.
  f_equal. change (2 ^ 1) with 2. lia.
Qed.

(** The conversion to [int] of that value clipped to the map. *)
Lemma column_converted (arch : GoArch) (conv : float64 -> Z)
    (level px : Z) :
  0 <= level <= 23 -> 0 <= px <= 2 ^ (8 + level) - 1 ->
  int_of_float64 arch conv
    (clip (dyadic (2 * px + 1) (-1)) (of_Z 0) (of_Z (2 ^ (8 + level) - 1)))
  = px.
Proof.
  intros Hl Hpx. destruct (map_powers level Hl) as [E B].
  rewrite (ExactFacts.of_Z_dyadic (_ - 1)) by lia.
  assert (EB : dyadic (2 ^ (8 + level) - 1) 0
               = dyadic ((2 ^ (8 + level) - 1) * 2 ^ 1) (-1)).
  { rewrite ExactFacts.dyadic_shift by (change (2 ^ 1) with 2; lia).
    reflexivity. }
  change (2 ^ 1) with 2 in EB.
  assert (T : trunc (clip (dyadic (2 * px + 1) (-1)) (of_Z 0)
                       (dyadic (2 ^ (8 + level) - 1) 0)) = Some px).
  { destruct (Z.eq_dec px (2 ^ (8 + level) - 1)) as [->|Hn].
    - rewrite EdgeFacts.clip_at_or_above.
      + rewrite ExactFacts.trunc_dyadic by lia.
        rewrite Z.shiftl_0_r. reflexivity.
      + change (of_Z 0) with (dyadic 0 0).
        apply ExactFacts.leb_dyadic; lia.
      + rewrite EB. apply ExactFacts.leb_dyadic; lia.
      + apply ExactFacts.dyadic_nonzero. lia.
    - rewrite ExactFacts.clip_inside.
      + rewrite ExactFacts.trunc_dyadic by lia.
        f_equal. rewrite Z.shiftl_div_pow2 by lia.
        change (2 ^ (- (-1))) with 2.
        symmetry. apply Z.div_unique with 1; lia.
      + change (of_Z 0) with (dyadic 0 (-1)).
        apply ExactFacts.leb_dyadic; lia.
      + rewrite EB. apply ExactFacts.leb_dyadic; lia.
      + apply ExactFacts.dyadic_nonzero. lia. }
  unfold int_of_float64. rewrite T.
  pose proof (GoFacts.MinInt_le arch). pose proof (GoFacts.MaxInt_ge arch).
  destruct (Z.leb_spec (Go.MinInt arch) px); [|lia].
  destruct (Z.leb_spec px (Go.MaxInt arch)); [reflexivity|lia].
Qed.
End LongitudeFacts.

(** X22: for the levels 0 to 23 the longitude of [PixelXYToLatLong] has
    no rounding error: for the pixel column [c], the column given
    clamped to the map, it is the [float64] of value
    [(360 * c - 180 * MapSize) / MapSize], that is [360 * c / MapSize -
    180], whatever the row and the size of the [int]. *)
Theorem PixelXYToLatLong_longitude_exact (arch : GoArch)
    (math_Atan math_Exp : float64 -> float64) (pixelX pixelY level : Z) :
  0 <= level <= 23 ->
  let c := clamp (MapSize arch level - 1) pixelX in
  snd (PixelXYToLatLong arch math_Atan math_Exp pixelX pixelY level)
  = dyadic (360 * c - 180 * MapSize arch level) (- (8 + level))
  /\ MapSize arch level = 2 ^ (8 + level).
Proof.
  intros Hl. cbv zeta.
  destruct (ClampFacts.map_limit arch level Hl) as (EU & EM & _).
  split; [|exact EM].
  unfold PixelXYToLatLong. cbv zeta. cbn [snd].
  rewrite (ClampFacts.clip_clamp arch level pixelX Hl).
  rewrite EU, EM.
  apply LongitudeFacts.longitude_of_column; [assumption|].
  destruct (LongitudeFacts.map_powers level Hl). unfold clamp. lia.
Qed.

Lemma PixelXYToLatLong_longitude_exact_witness :
  snd (PixelXYToLatLong Arch32 (fun x => x) (fun x => x) 384 7 1)
  = dyadic (360 * clamp (MapSize Arch32 1 - 1) 384 - 180 * MapSize Arch32 1)
      (- (8 + 1))
  /\ MapSize Arch32 1 = 2 ^ (8 + 1).
Proof.
  apply (PixelXYToLatLong_longitude_exact Arch32 (fun x => x) (fun x => x)
           384 7 1).
  lia.
Defined.

(** X23: for the levels 0 to 23, the longitude that [PixelXYToLatLong]
    gives for a pixel column is taken back by [LatLongToPixelXY] to that
    very column, clamped to the map: the round trip of a column of the
    map is exact, whatever the row, the latitude, the math functions and
    the size of the [int]. *)
Theorem pixel_longitude_round_trip (arch : GoArch)
    (math_Sin math_Log math_Atan math_Exp : float64 -> float64)
    (conv : float64 -> Z) (latitude : float64) (pixelX pixelY level : Z) :
  0 <= level <= 23 ->
  fst (LatLongToPixelXY arch math_Sin math_Log conv latitude
         (snd (PixelXYToLatLong arch math_Atan math_Exp pixelX pixelY level))
         level)
  = clamp (MapSize arch level - 1) pixelX.
Proof.
  intros Hl.
  destruct (ClampFacts.map_limit arch level Hl) as (EU & EM & _).
  destruct (LongitudeFacts.map_powers level Hl) as [E B].
  assert (Hc : 0 <= clamp (MapSize arch level - 1) pixelX
               <= 2 ^ (8 + level) - 1)
    by (rewrite EM; unfold clamp; lia).
  unfold PixelXYToLatLong, LatLongToPixelXY. cbv zeta. cbn [fst snd].
  rewrite (ClampFacts.clip_clamp arch level pixelX Hl).
  rewrite EU, EM in *.
  rewrite LongitudeFacts.longitude_of_column by assumption.
  rewrite LongitudeFacts.column_of_longitude by assumption.
  apply LongitudeFacts.column_converted; assumption.
Qed.

Lemma pixel_longitude_round_trip_witness :
  fst (LatLongToPixelXY Arch64 (fun x => x) (fun x => x) (fun _ => 0)
         (F64.of_Z 0)
         (snd (PixelXYToLatLong Arch64 (fun x => x) (fun x => x) 1000 7 3))
         3)
  = clamp (MapSize Arch64 3 - 1) 1000.
Proof.
  apply (pixel_longitude_round_trip Arch64 (fun x => x) (fun x => x)
           (fun x => x) (fun x => x) (fun _ => 0) (F64.of_Z 0) 1000 7 3).
  lia.
Defined.

(** ** The ground resolution from one level to the next *)

Module ResolutionFacts.
Import F64.

Lemma round_nearest_even_le (m : Z) (l : location) :
  round_nearest_even m l <= m + 1.
Proof. destruct l as [|[]]; cbn; try lia. destruct (Z.even m); lia. Qed.

(** Rounding a mantissa of 53 digits or more, in the range of the normal
    numbers, gives a normal number: a mantissa of exactly 53 bits. *)
Lemma binary_round_aux_normal (s : bool) (mx ex : Z) (lx : location) :
  0 < mx -> 53 <= Zdigits2 mx ->
  -1000 <= ex + Zdigits2 mx <= 900 ->
  exists (m : positive) (e : Z),
    binary_round_aux prec emax s mx ex lx = S754_finite s m e
    /\ 2 ^ 52 <= Zpos m < 2 ^ 53
    /\ ex + Zdigits2 mx - 53 <= e <= ex + Zdigits2 mx - 52.
Proof.
  intros Hm Hd He. unfold binary_round_aux.
  set (d := Zdigits2 mx) in *.
  pose proof (ConvertFacts.Zdigits2_lower mx Hm) as Lx. fold d in Lx.
  destruct (ConvertFacts.shr_fexp_spec mx ex lx ltac:(lia)) as [M1 E1].
  pose proof (RoundFacts.shr_fexp_bound mx ex lx ltac:(lia)) as [_ U1].
  destruct (shr_fexp prec emax mx ex lx) as [mrs' e'].
  cbn [fst snd] in M1, E1, U1. cbv zeta in M1, E1. fold d in M1, E1.
  replace (fexp prec emax (d + ex) - ex) with (d - 53) in M1, E1
    by (unfold fexp, emin, prec, emax; lia).
  assert (Ee : e' = ex + (d - 53))
    by (rewrite E1; destruct (Z.ltb_spec 0 (d - 53)); lia).
  assert (L1 : 2 ^ 52 <= shr_m mrs').
  { rewrite M1. destruct (Z.ltb_spec 0 (d - 53)) as [Hn|Hn].
    - apply Z.div_le_lower_bound; [apply ExactFacts.pow2_pos; lia|].
      rewrite <- Z.pow_add_r by lia.
      replace (d - 53 + 52) with (d - 1) by lia. exact Lx.
    - replace (d - 1) with 52 in Lx by lia. exact Lx. }
  pose proof (ConvertFacts.round_nearest_even_ge
                (shr_m mrs') (loc_of_shr_record mrs')) as R1.
  pose proof (round_nearest_even_le
                (shr_m mrs') (loc_of_shr_record mrs')) as R2.
  set (m2 := round_nearest_even (shr_m mrs') (loc_of_shr_record mrs')) in *.
  destruct (ConvertFacts.shr_fexp_spec m2 e' loc_Exact ltac:(lia))
    as [M2 E2].
  destruct (shr_fexp prec emax m2 e' loc_Exact) as [mrs'' e''].
  cbn [fst snd] in M2, E2. cbv zeta in M2, E2.
  destruct (Z.eq_dec m2 (2 ^ 53)) as [Em|Nm].
  - assert (D2 : Zdigits2 m2 = 54)
      by (rewrite Em; reflexivity).
    rewrite D2 in M2, E2.
    replace (fexp prec emax (54 + e') - e') with 1 in M2, E2
      by (unfold fexp, emin, prec, emax; lia).
    cbn [Z.ltb Z.compare] in M2, E2. rewrite Em in M2.
    change (2 ^ 53 / 2 ^ 1) with (2 ^ 52) in M2.
    rewrite M2. change (2 ^ 52) with (Zpos (Z.to_pos (2 ^ 52))).
    destruct (Z.leb_spec e'' (emax - prec));
      [|unfold emax, prec in *; lia].
    eexists _, _. split; [reflexivity|].
    split; [cbn; lia | lia].
  - assert (D2 : Zdigits2 m2 = 53)
      by (apply ExactFacts.digits_unique; change (53 - 1) with 52; lia).
    rewrite D2 in M2, E2.
    replace (fexp prec emax (53 + e') - e') with 0 in M2, E2
      by (unfold fexp, emin, prec, emax; lia).
    cbn [Z.ltb Z.compare] in M2, E2.
    rewrite M2. destruct m2 as [|m|m] eqn:Em2; try lia.
    destruct (Z.leb_spec e'' (emax - prec));
      [|unfold emax, prec in *; lia].
    exists m, e''. split; [reflexivity|]. split; lia.
Qed.

(** The product of two normal numbers, far from overflow and underflow,
    is a normal number. *)
Lemma mul_normal (s1 s2 : bool) (m1 m2 : positive) (e1 e2 : Z) :
  2 ^ 52 <= Zpos m1 < 2 ^ 53 -> 2 ^ 52 <= Zpos m2 < 2 ^ 53 ->
  -390 <= e1 <= 390 -> -390 <= e2 <= 390 ->
  exists (m : positive) (e : Z),
    mul (S754_finite s1 m1 e1) (S754_finite s2 m2 e2)
    = S754_finite (xorb s1 s2) m e
    /\ 2 ^ 52 <= Zpos m < 2 ^ 53
    /\ e1 + e2 + 52 <= e <= e1 + e2 + 54.
Proof.
  intros H1 H2 E1 E2. unfold mul, SFmul.
  assert (D : 105 <= Zdigits2 (Zpos (m1 * m2)) <= 106).
  { rewrite Pos2Z.inj_mul. split.
    - pose proof (ExactFacts.digits_mul_lower (Zpos m1) (Zpos m2)
                    ltac:(lia) ltac:(lia)) as L.
      rewrite (ExactFacts.digits_unique (Zpos m1) 53) in L
        by (change (53 - 1) with 52; lia).
      rewrite (ExactFacts.digits_unique (Zpos m2) 53) in L
        by (change (53 - 1) with 52; lia).
      lia.
    - pose proof (ConvertFacts.Zdigits2_lower (Zpos m1 * Zpos m2)
                    ltac:(lia)) as L.
      pose proof (RoundFacts.Zdigits2_nonneg (Zpos m1 * Zpos m2)).
      assert (Zdigits2 (Zpos m1 * Zpos m2) - 1 < 106); [|lia].
      apply (Z.pow_lt_mono_r_iff 2); [lia|lia|].
      apply Z.le_lt_trans with (Zpos m1 * Zpos m2); [assumption|].
      change (2 ^ 106) with (2 ^ 53 * 2 ^ 53). nia. }
  destruct (binary_round_aux_normal (xorb s1 s2) (Zpos (m1 * m2))
              (e1 + e2) loc_Exact ltac:(lia) ltac:(lia) ltac:(lia))
    as (m & e & E & B & R).
  exists m, e. split; [exact E|]. split; [exact B|lia].
Qed.

Lemma digits_at_least (z : Z) : 2 ^ 52 <= z -> 53 <= Zdigits2 z.
Proof.
  intros H. pose proof (RoundFacts.Zdigits2_bound z ltac:(lia)) as B.
  pose proof (RoundFacts.Zdigits2_nonneg z) as B0.
  assert (52 < Zdigits2 z); [|lia].
  apply (Z.pow_lt_mono_r_iff 2); lia.
Qed.

Lemma digits_at_most (z d : Z) : 0 < z -> 0 <= d -> z < 2 ^ d -> Zdigits2 z <= d.
Proof.
  intros Hz Hd H. pose proof (ConvertFacts.Zdigits2_lower z Hz) as B.
  pose proof (RoundFacts.Zdigits2_nonneg z) as B0.
  assert (Zdigits2 z - 1 < d); [|lia].
  apply (Z.pow_lt_mono_r_iff 2); lia.
Qed.

(** The shift of a long mantissa does not depend on the exponent. *)
Lemma shr_fexp_shift (mx ex k : Z) (l : location) :
  53 <= Zdigits2 mx ->
  -1000 <= ex + Zdigits2 mx <= 900 ->
  -1000 <= ex + k + Zdigits2 mx <= 900 ->
  shr_fexp prec emax mx (ex + k) l
  = (fst (shr_fexp prec emax mx ex l),
     snd (shr_fexp prec emax mx ex l) + k).
Proof.
  intros Hd H1 H2. unfold shr_fexp.
  replace (fexp prec emax (Zdigits2 mx + (ex + k)) - (ex + k))
    with (Zdigits2 mx - 53) by (unfold fexp, emin, prec, emax; lia).
  replace (fexp prec emax (Zdigits2 mx + ex) - ex)
    with (Zdigits2 mx - 53) by (unfold fexp, emin, prec, emax; lia).
  unfold shr. destruct (Zdigits2 mx - 53); cbn [fst snd]; f_equal; lia.
Qed.

(** Rounding at another exponent, in the range of the normal numbers,
    gives the same mantissa. *)
Lemma binary_round_aux_shift (s s' : bool) (mx ex k : Z) (lx : location)
    (m : positive) (e : Z) :
  0 < mx -> 53 <= Zdigits2 mx ->
  -990 <= ex + Zdigits2 mx <= 890 ->
  -990 <= ex + k + Zdigits2 mx <= 890 ->
  binary_round_aux prec emax s mx ex lx = S754_finite s' m e ->
  binary_round_aux prec emax s mx (ex + k) lx = S754_finite s' m (e + k).
Proof.
  intros Hm Hd He Hk. unfold binary_round_aux.
  rewrite (shr_fexp_shift mx ex k lx) by lia.
  set (d := Zdigits2 mx) in *.
  pose proof (ConvertFacts.Zdigits2_lower mx Hm) as Lx. fold d in Lx.
  destruct (ConvertFacts.shr_fexp_spec mx ex lx ltac:(lia)) as [M1 E1].
  pose proof (RoundFacts.shr_fexp_bound mx ex lx ltac:(lia)) as [_ U1].
  destruct (shr_fexp prec emax mx ex lx) as [mrs' e'].
  cbn [fst snd] in *. cbv zeta in M1, E1. fold d in M1, E1.
  replace (fexp prec emax (d + ex) - ex) with (d - 53) in M1, E1
    by (unfold fexp, emin, prec, emax; lia).
  assert (Ee : e' = ex + (d - 53))
    by (rewrite E1; destruct (Z.ltb_spec 0 (d - 53)); lia).
  assert (L1 : 2 ^ 52 <= shr_m mrs').
  { rewrite M1. destruct (Z.ltb_spec 0 (d - 53)) as [Hn|Hn].
    - apply Z.div_le_lower_bound; [apply ExactFacts.pow2_pos; lia|].
      rewrite <- Z.pow_add_r by lia.
      replace (d - 53 + 52) with (d - 1) by lia. exact Lx.
    - replace (d - 1) with 52 in Lx by lia. exact Lx. }
  pose proof (ConvertFacts.round_nearest_even_ge
                (shr_m mrs') (loc_of_shr_record mrs')) as R1.
  pose proof (round_nearest_even_le
                (shr_m mrs') (loc_of_shr_record mrs')) as R2.
  set (m2 := round_nearest_even (shr_m mrs') (loc_of_shr_record mrs')) in *.
  assert (D2 : 53 <= Zdigits2 m2 <= 54).
  { split; [apply digits_at_least; lia|].
    apply digits_at_most; [lia|lia|].
    change (2 ^ 54) with (2 * 2 ^ 53). lia. }
  rewrite (shr_fexp_shift m2 e' k loc_Exact) by lia.
  destruct (ConvertFacts.shr_fexp_spec m2 e' loc_Exact ltac:(lia))
    as [_ E2].
  destruct (shr_fexp prec emax m2 e' loc_Exact) as [mrs'' e''].
  cbn [fst snd] in *. cbv zeta in E2.
  assert (Ee2 : e' <= e'' <= e' + 1).
  { rewrite E2.
    replace (fexp prec emax (Zdigits2 m2 + e') - e')
      with (Zdigits2 m2 - 53) by (unfold fexp, emin, prec, emax; lia).
    destruct (Z.ltb_spec 0 (Zdigits2 m2 - 53)); lia. }
  destruct (shr_m mrs'') as [|p|p]; try discriminate.
  destruct (Z.leb_spec e'' (emax - prec));
    [|unfold emax, prec in *; lia].
  destruct (Z.leb_spec (e'' + k) (emax - prec));
    [|unfold emax, prec in *; lia].
  intros E. injection E as <- <- <-. reflexivity.
Qed.

Lemma product_digits (m1 m2 : positive) :
  2 ^ 52 <= Zpos m1 < 2 ^ 53 -> 2 ^ 52 <= Zpos m2 < 2 ^ 53 ->
  105 <= Zdigits2 (Zpos (m1 * m2)) <= 106.
Proof.
  intros H1 H2. rewrite Pos2Z.inj_mul. split.
  - pose proof (ExactFacts.digits_mul_lower (Zpos m1) (Zpos m2)
                  ltac:(lia) ltac:(lia)) as L.
    rewrite (ExactFacts.digits_unique (Zpos m1) 53) in L
      by (change (53 - 1) with 52; lia).
    rewrite (ExactFacts.digits_unique (Zpos m2) 53) in L
      by (change (53 - 1) with 52; lia).
    lia.
  - apply digits_at_most; [lia|lia|].
    change (2 ^ 106) with (2 ^ 53 * 2 ^ 53). nia.
Qed.

(** A product at another exponent of the first factor. *)
Lemma mul_shift (s1 s2 s : bool) (m1 m2 m : positive) (e1 e2 e k : Z) :
  2 ^ 52 <= Zpos m1 < 2 ^ 53 -> 2 ^ 52 <= Zpos m2 < 2 ^ 53 ->
  -390 <= e1 <= 390 -> -390 <= e1 + k <= 390 -> -390 <= e2 <= 390 ->
  mul (S754_finite s1 m1 e1) (S754_finite s2 m2 e2) = S754_finite s m e ->
  mul (S754_finite s1 m1 (e1 + k)) (S754_finite s2 m2 e2)
  = S754_finite s m (e + k).
Proof.
  intros H1 H2 E1 Ek E2. unfold mul, SFmul.
  pose proof (product_digits m1 m2 H1 H2) as D.
  replace (e1 + k + e2) with (e1 + e2 + k) by lia.
  apply binary_round_aux_shift; lia.
Qed.

(** The quotient and the remainder that [SFdiv] rounds, for two normal
    numbers. *)
Lemma div_core_normal (m1 m2 : positive) (e1 e2 : Z) :
  2 ^ 52 <= Zpos m1 < 2 ^ 53 -> 2 ^ 52 <= Zpos m2 < 2 ^ 53 ->
  -900 <= e1 - e2 <= 900 ->
  SFdiv_core_binary prec emax (Zpos m1) e1 (Zpos m2) e2
  = (Zpos m1 * 2 ^ 53 / Zpos m2, e1 - e2 - 53,
     new_location (Zpos m2) ((Zpos m1 * 2 ^ 53) mod Zpos m2)).
Proof.
  intros H1 H2 He. unfold SFdiv_core_binary.
  rewrite (ExactFacts.digits_unique (Zpos m1) 53)
    by (change (53 - 1) with 52; lia).
  rewrite (ExactFacts.digits_unique (Zpos m2) 53)
    by (change (53 - 1) with 52; lia).
  cbv zeta.
  replace (Z.min (fexp prec emax (53 + e1 - (53 + e2))) (e1 - e2))
    with (e1 - e2 - 53) by (unfold fexp, emin, prec, emax; lia).
  replace (e1 - e2 - (e1 - e2 - 53)) with 53 by lia.
  cbv iota. rewrite Z.shiftl_mul_pow2 by lia.
  unfold Z.div, Z.modulo.
  destruct (Z.div_eucl (Zpos m1 * 2 ^ 53) (Zpos m2)) as [q r].
  reflexivity.
Qed.

Lemma quotient_digits (m1 m2 : positive) :
  2 ^ 52 <= Zpos m1 < 2 ^ 53 -> 2 ^ 52 <= Zpos m2 < 2 ^ 53 ->
  0 < Zpos m1 * 2 ^ 53 / Zpos m2
  /\ 53 <= Zdigits2 (Zpos m1 * 2 ^ 53 / Zpos m2) <= 54.
Proof.
  intros H1 H2.
  assert (L : 2 ^ 52 <= Zpos m1 * 2 ^ 53 / Zpos m2).
  { apply Z.div_le_lower_bound; [lia|]. nia. }
  assert (U : Zpos m1 * 2 ^ 53 / Zpos m2 < 2 ^ 54).
  { apply Z.div_lt_upper_bound; [lia|].
    change (2 ^ 54) with (2 * 2 ^ 53). nia. }
  split; [lia|]. split; [apply digits_at_least; exact L|].
  apply digits_at_most; lia.
Qed.

(** The quotient of two normal numbers, far from overflow and underflow,
    is a normal number. *)
Lemma div_normal (s1 s2 : bool) (m1 m2 : positive) (e1 e2 : Z) :
  2 ^ 52 <= Zpos m1 < 2 ^ 53 -> 2 ^ 52 <= Zpos m2 < 2 ^ 53 ->
  -390 <= e1 <= 390 -> -390 <= e2 <= 390 ->
  exists (m : positive) (e : Z),
    div (S754_finite s1 m1 e1) (S754_finite s2 m2 e2)
    = S754_finite (xorb s1 s2) m e
    /\ 2 ^ 52 <= Zpos m < 2 ^ 53
    /\ e1 - e2 - 53 <= e <= e1 - e2 - 51.
Proof.
  intros H1 H2 E1 E2. unfold div, SFdiv.
  rewrite div_core_normal by lia.
  destruct (quotient_digits m1 m2 H1 H2) as [Q D].
  destruct (binary_round_aux_normal (xorb s1 s2)
              (Zpos m1 * 2 ^ 53 / Zpos m2) (e1 - e2 - 53)
              (new_location (Zpos m2) ((Zpos m1 * 2 ^ 53) mod Zpos m2))
              ltac:(lia) ltac:(lia) ltac:(lia))
    as (m & e & E & B & R).
  exists m, e. split; [exact E|]. split; [exact B|lia].
Qed.

(** A quotient at another exponent of the dividend. *)
Lemma div_shift (s1 s2 s : bool) (m1 m2 m : positive) (e1 e2 e k : Z) :
  2 ^ 52 <= Zpos m1 < 2 ^ 53 -> 2 ^ 52 <= Zpos m2 < 2 ^ 53 ->
  -390 <= e1 <= 390 -> -390 <= e1 + k <= 390 -> -390 <= e2 <= 390 ->
  div (S754_finite s1 m1 e1) (S754_finite s2 m2 e2) = S754_finite s m e ->
  div (S754_finite s1 m1 (e1 + k)) (S754_finite s2 m2 e2)
  = S754_finite s m (e + k).
Proof.
  intros H1 H2 E1 Ek E2. unfold div, SFdiv.
  rewrite !div_core_normal by lia.
  destruct (quotient_digits m1 m2 H1 H2) as [Q D].
  replace (e1 + k - e2 - 53) with (e1 - e2 - 53 + k) by lia.
  apply binary_round_aux_shift; lia.
Qed.

(** A normal number is its own normal form. *)
Lemma normal_canon (s : bool) (m : positive) (e : Z) :
  2 ^ 52 <= Zpos m < 2 ^ 53 -> canon s m e = S754_finite s m e.
Proof.
  intros H. unfold canon. cbv zeta.
  assert (D : Zpos (digits2_pos m) = 53).
  { change (Zpos (digits2_pos m)) with (Zdigits2 (Zpos m)).
    apply ExactFacts.digits_unique; [lia|].
    change (53 - 1) with 52. exact H. }
  rewrite D. change (53 - 53) with 0. change (2 ^ 0) with 1.
  rewrite Z.mul_1_r, Z.sub_0_r. reflexivity.
Qed.

(** Dividing a normal number by a power of two only moves the
    exponent. *)
Lemma div_power (m : positive) (e k : Z) :
  2 ^ 52 <= Zpos m < 2 ^ 53 -> -440 <= e <= 440 -> -440 <= k <= 440 ->
  div (S754_finite false m e) (dyadic 1 k) = S754_finite false m (e - k).
Proof.
  intros H He Hk.
  pose proof (ExactFacts.div_dyadic (Zpos m) 1 e k
                ltac:(lia) ltac:(lia) ltac:(lia) ltac:(lia) ltac:(lia))
    as E.
  rewrite Z.mul_1_r in E. cbn [dyadic] in E.
  rewrite (normal_canon false m e), (normal_canon false m (e - k)) in E
    by assumption.
  exact E.
Qed.

(** The values of a function of the level whose mantissa is fixed and
    whose exponent goes down with the level: each is half the one before,
    and they go down. *)
Lemma halving_family (f : Z -> float64) (m : positive) (e : Z) :
  2 ^ 52 <= Zpos m < 2 ^ 53 -> -400 <= e <= 400 ->
  (forall level, 0 <= level <= 23 ->
                 f level = S754_finite false m (e - level)) ->
  forall level level' : Z,
    0 <= level -> level < level' -> level' <= 23 ->
    f (level + 1) = div (f level) (of_Z 2)
    /\ ltb (f level') (f level) = true.
Proof.
  intros H He F level level' H0 H1 H2.
  rewrite !F by lia. split.
  - change (of_Z 2) with (dyadic 1 1).
    rewrite div_power by lia. f_equal. lia.
  - unfold ltb, SFltb. cbn [SFcompare].
    destruct (Z.compare_spec (e - level') (e - level));
      [lia|reflexivity|lia].
Qed.

Ltac constant c :=
  let E := fresh "E" in
  destruct c as [| | |? ? ?] eqn:E; vm_compute in E;
  try discriminate E; injection E as <- <- <-.

(** The product of a positive normal cosine with 2, pi and the radius of
    the earth is a positive normal number. *)
Lemma circumference_normal (c : float64) :
  normal_positive c = true ->
  exists (m : positive) (e : Z),
    mul (mul (mul c (of_Z 2)) Pi) (of_Z EarthRadius)
    = S754_finite false m e
    /\ 2 ^ 52 <= Zpos m < 2 ^ 53 /\ -230 <= e <= 230.
Proof.
  destruct c as [| | |[] mc ec]; try discriminate.
  cbn [normal_positive]. intros H.
  apply andb_prop in H as [H H4]. apply andb_prop in H as [H H3].
  apply andb_prop in H as [H1 H2].
  apply Z.leb_le in H1, H3, H4. apply Z.ltb_lt in H2.
  constant (of_Z 2). constant (of_Z EarthRadius). unfold Pi.
  match goal with
  | |- context [mul (S754_finite false mc ec) (S754_finite false ?m ?e)] =>
      destruct (mul_normal false false mc m ec e ltac:(lia)
                  ltac:(cbn; lia) ltac:(lia) ltac:(lia))
        as (ma & ea & -> & Ba & Ra)
  end.
  cbn [xorb].
  match goal with
  | |- context [mul (S754_finite _ ma ea) (S754_finite false ?m ?e)] =>
      destruct (mul_normal false false ma m ea e ltac:(lia)
                  ltac:(cbn; lia) ltac:(lia) ltac:(lia))
        as (mb & eb & -> & Bb & Rb)
  end.
  cbn [xorb].
  match goal with
  | |- context [mul (S754_finite _ mb eb) (S754_finite false ?m ?e)] =>
      destruct (mul_normal false false mb m eb e ltac:(lia)
                  ltac:(cbn; lia) ltac:(lia) ltac:(lia))
        as (mq & eq & -> & Bq & Rq)
  end.
  cbn [xorb].
  exists mq, eq. split; [reflexivity|]. split; [exact Bq|lia].
Qed.

(** The ground resolution in closed form: one mantissa for all levels. *)
Lemma GroundResolution_closed (arch : GoArch)
    (math_Cos : float64 -> float64) (latitude : float64) :
  normal_positive (cosine_value math_Cos latitude) = true ->
  exists (m : positive) (e : Z),
    2 ^ 52 <= Zpos m < 2 ^ 53 /\ -240 <= e <= 240
    /\ forall level, 0 <= level <= 23 ->
         GroundResolution arch math_Cos latitude level
         = S754_finite false m (e - level).
Proof.
  intros H. destruct (circumference_normal _ H) as (m & e & E & B & R).
  exists m, (e - 8). split; [exact B|]. split; [lia|].
  intros level Hl. unfold GroundResolution. cbv zeta.
  unfold cosine_value in E. cbv zeta in E. rewrite E.
  destruct (ClampFacts.map_limit arch level Hl) as (_ & -> & _).
  rewrite LongitudeFacts.of_Z_map_size by assumption.
  rewrite div_power by lia. f_equal. lia.
Qed.

(** The screen resolution as a normal number. *)
Lemma of_Z_normal (z : Z) :
  0 < z < 2 ^ 53 ->
  exists (m : positive) (e : Z),
    of_Z z = S754_finite false m e
    /\ 2 ^ 52 <= Zpos m < 2 ^ 53 /\ -52 <= e <= 0.
Proof.
  intros H. rewrite ExactFacts.of_Z_dyadic by lia.
  destruct z as [|N|N]; try lia. cbn [dyadic].
  destruct (ExactFacts.canon_mantissa N ltac:(lia)) as (A & E & D & B).
  cbv zeta in *. unfold canon. cbv zeta.
  eexists _, _. split; [reflexivity|]. rewrite E. split; [exact B|].
  pose proof (Pos2Z.is_pos (digits2_pos N)). lia.
Qed.

(** The map scale in closed form: one mantissa for all levels. *)
Lemma MapScale_closed (arch : GoArch)
    (math_Cos : float64 -> float64) (latitude : float64) (screenDpi : Z) :
  normal_positive (cosine_value math_Cos latitude) = true ->
  0 < screenDpi < 2 ^ 53 ->
  exists (m : positive) (e : Z),
    2 ^ 52 <= Zpos m < 2 ^ 53 /\ -400 <= e <= 400
    /\ forall level, 0 <= level <= 23 ->
         MapScale arch math_Cos latitude level screenDpi
         = S754_finite false m (e - level).
Proof.
  intros H Hd.
  destruct (GroundResolution_closed arch math_Cos latitude H)
    as (mg & eg & Bg & Rg & G).
  destruct (of_Z_normal screenDpi Hd) as (md & ed & Ed & Bd & Rd).
  destruct (mul_normal false false mg md eg ed ltac:(lia) ltac:(lia)
              ltac:(lia) ltac:(lia))
    as (mp & ep & Ep & Bp & Rp).
  cbn [xorb] in Ep.
  assert (Em : exists mi ei, metersPerInch = S754_finite false mi ei
                             /\ 2 ^ 52 <= Zpos mi < 2 ^ 53
                             /\ -60 <= ei <= -50).
  { unfold metersPerInch. eexists _, _. split; [reflexivity|].
    split; cbn; lia. }
  destruct Em as (mi & ei & Ei & Bi & Ri).
  destruct (div_normal false false mp mi ep ei ltac:(lia) ltac:(lia)
              ltac:(lia) ltac:(lia))
    as (ms & es & Es & Bs & Rs).
  cbn [xorb] in Es.
  exists ms, es. split; [exact Bs|]. split; [lia|].
  intros level Hl. unfold MapScale. rewrite G by assumption.
  rewrite Ed, Ei.
  replace (eg - level) with (eg + - level) by lia.
  rewrite (mul_shift false false _ mg md mp eg ed ep (- level)
             ltac:(lia) ltac:(lia) ltac:(lia) ltac:(lia) ltac:(lia) Ep).
  rewrite (div_shift false false _ mp mi ms ep ei es (- level)
             ltac:(lia) ltac:(lia) ltac:(lia) ltac:(lia) ltac:(lia) Es).
  f_equal.
Qed.
End ResolutionFacts.

(** X24: when the value of [math.Cos] at the clipped latitude is a
    positive normal [float64] between 2^-148 and 2^253 (the range holds
    the cosines of the clipped latitudes, from about 0.086 to 1), the
    ground resolution at the levels 0 to 23 is halved, with no rounding
    error, from each level to the next, and goes down as the level goes
    up. *)
Theorem GroundResolution_halves (arch : GoArch)
    (math_Cos : float64 -> float64) (latitude : float64)
    (level level' : Z) :
  normal_positive (cosine_value math_Cos latitude) = true ->
  0 <= level -> level < level' -> level' <= 23 ->
  GroundResolution arch math_Cos latitude (level + 1)
  = F64.div (GroundResolution arch math_Cos latitude level) (F64.of_Z 2)
  /\ F64.ltb (GroundResolution arch math_Cos latitude level')
             (GroundResolution arch math_Cos latitude level) = true.
Proof.
  intros H H0 H1 H2.
  destruct (ResolutionFacts.GroundResolution_closed arch math_Cos latitude H)
    as (m & e & B & R & G).
  apply (ResolutionFacts.halving_family
           (GroundResolution arch math_Cos latitude) m e B ltac:(lia) G
           level level' H0 H1 H2).
Qed.

Lemma GroundResolution_halves_witness :
  GroundResolution Arch64 (fun _ => F64.half) (F64.of_Z 60) (4 + 1)
  = F64.div (GroundResolution Arch64 (fun _ => F64.half) (F64.of_Z 60) 4)
            (F64.of_Z 2)
  /\ F64.ltb (GroundResolution Arch64 (fun _ => F64.half) (F64.of_Z 60) 9)
             (GroundResolution Arch64 (fun _ => F64.half) (F64.of_Z 60) 4)
     = true.
Proof.
  apply (GroundResolution_halves Arch64 (fun _ => F64.half) (F64.of_Z 60)
           4 9); [reflexivity|lia|lia|lia].
Defined.

(** X25: under the same condition on the value of [math.Cos], and for a
    screen resolution between 1 and 2^53 - 1 dots per inch, the map scale
    at the levels 0 to 23 is halved, with no rounding error, from each
    level to the next, and goes down as the level goes up. *)
Theorem MapScale_halves (arch : GoArch)
    (math_Cos : float64 -> float64) (latitude : float64)
    (screenDpi level level' : Z) :
  normal_positive (cosine_value math_Cos latitude) = true ->
  0 < screenDpi < 2 ^ 53 ->
  0 <= level -> level < level' -> level' <= 23 ->
  MapScale arch math_Cos latitude (level + 1) screenDpi
  = F64.div (MapScale arch math_Cos latitude level screenDpi) (F64.of_Z 2)
  /\ F64.ltb (MapScale arch math_Cos latitude level' screenDpi)
             (MapScale arch math_Cos latitude level screenDpi) = true.
Proof.
  intros H Hd H0 H1 H2.
  destruct (ResolutionFacts.MapScale_closed arch math_Cos latitude
              screenDpi H Hd)
    as (m & e & B & R & G).
  apply (ResolutionFacts.halving_family
           (fun l => MapScale arch math_Cos latitude l screenDpi)
           m e B R G level level' H0 H1 H2).
Qed.

Lemma MapScale_halves_witness :
  MapScale Arch32 (fun _ => F64.half) (F64.of_Z 60) (4 + 1) 96
  = F64.div (MapScale Arch32 (fun _ => F64.half) (F64.of_Z 60) 4 96)
            (F64.of_Z 2)
  /\ F64.ltb (MapScale Arch32 (fun _ => F64.half) (F64.of_Z 60) 9 96)
             (MapScale Arch32 (fun _ => F64.half) (F64.of_Z 60) 4 96)
     = true.
Proof.
  apply (MapScale_halves Arch32 (fun _ => F64.half) (F64.of_Z 60) 96 4 9);
    [reflexivity|lia|lia|lia|lia].
Defined.

(** ** The range of the pixels and the order of the resolutions *)

Module NaNFacts.
Import F64.


(** A NaN latitude goes through the clip and through every operation of
    [GroundResolution], when [math.Cos] returns a NaN for a NaN (the
    special case that Go documents). *)
Lemma GroundResolution_NaN (arch : GoArch) (math_Cos : float64 -> float64)
    (level : Z) :
  math_Cos NaN = NaN ->
  GroundResolution arch math_Cos NaN level = NaN.
Proof.
  intros H.
  assert (E : div (mul (clip NaN MinLatitude MaxLatitude) Pi) (of_Z 180)
              = NaN) by reflexivity.
  unfold GroundResolution. cbv zeta. rewrite E, H.
  replace (mul (mul (mul NaN (of_Z 2)) Pi) (of_Z EarthRadius)) with NaN
    by reflexivity.
  apply EdgeFacts.div_NaN_l.
Qed.
End NaNFacts.




(** C7, amended: when the value of [math.Cos] at the clipped latitude is
    a positive normal [float64] between 2^-148 and 2^253 (the range holds
    the cosines of the clipped latitudes, from about 0.086 to 1), the
    ground resolution is strictly decreasing in the level: for all levels
    k < k' from 0 to 23, the resolution at k' is less than the one at
    k. *)
Theorem GroundResolution_strictly_decreasing (arch : GoArch)
    (math_Cos : float64 -> float64) (latitude : float64) (k k' : Z) :
  normal_positive (cosine_value math_Cos latitude) = true ->
  0 <= k -> k < k' -> k' <= 23 ->
  F64.ltb (GroundResolution arch math_Cos latitude k')
          (GroundResolution arch math_Cos latitude k) = true.
Proof.
  intros H H0 H1 H2.
  destruct (ResolutionFacts.GroundResolution_closed arch math_Cos latitude H)
    as (m & e & B & R & G).
  apply (ResolutionFacts.halving_family
           (GroundResolution arch math_Cos latitude) m e B ltac:(lia) G
           k k' H0 H1 H2).
Qed.

Lemma GroundResolution_strictly_decreasing_witness :
  F64.ltb (GroundResolution Arch32 (fun _ => F64.half) (F64.of_Z 60) 23)
          (GroundResolution Arch32 (fun _ => F64.half) (F64.of_Z 60) 1)
  = true.
Proof.
  apply (GroundResolution_strictly_decreasing Arch32 (fun _ => F64.half)
           (F64.of_Z 60) 1 23); [reflexivity|lia|lia|lia].
Defined.

(** C7, as it is stated, fails for a NaN latitude: the clip returns the
    NaN, [math.Cos] of a NaN is a NaN, the resolution is a NaN at every
    level, and no NaN is less than another. *)
Lemma GroundResolution_NaN_latitude_not_decreasing :
  1 <= 1 /\ 1 < 2 /\ 2 <= 23
  /\ GroundResolution Arch64 (fun x => x) F64.NaN 1 = F64.NaN
  /\ GroundResolution Arch64 (fun x => x) F64.NaN 2 = F64.NaN
  /\ F64.ltb (GroundResolution Arch64 (fun x => x) F64.NaN 2)
             (GroundResolution Arch64 (fun x => x) F64.NaN 1) = false.
Proof.
  assert (E : forall level,
             GroundResolution Arch64 (fun x => x) F64.NaN level = F64.NaN)
    by (intros level; apply NaNFacts.GroundResolution_NaN; reflexivity).
  split; [lia|]. split; [lia|]. split; [lia|].
  split; [apply E|]. split; [apply E|].
  rewrite !E. reflexivity.
Qed.

